(** * qllm: provider adapters and the conversation reducer

    A shallow embedding of the parts of the qllm library that its
    specification makes claims about:

    - [Js]        the JavaScript values, strings and exceptions the code relies on;
    - [OpenAI]    [providers/openai/index.ts];
    - [Google]    the Google adapter (constructor, chat completion, emulated
                  streaming, output-variable extraction, error handling);
    - [Anthropic] the Bedrock adapter (messages, streaming, error handling);
    - [Reducer]   [conversationReducer] and [isValidConversation].

    Strings are [string]s of 8-bit code units (the Latin-1 range of the
    UTF-16 code units JavaScript uses), numbers are the integers [Z]
    (token counts, HTTP statuses and millisecond timestamps are integers),
    a plain object used as a dictionary and a [Map] are [gmap]s, a [Set] of
    provider ids is a [gset]. *)

From Stdlib Require Import ZArith Lia Ascii.
From stdpp Require Import gmap strings list fin_maps pretty.

Set Warnings "-register-all".

Local Open Scope Z_scope.
Local Open Scope string_scope.

(** ** JavaScript values, strings and exceptions *)
Module Js.

(** *** Strings *)

(** [\s] of a regular expression and the characters [trim] strips:
    WhiteSpace and LineTerminator, on the 8-bit range TAB, LF, VT, FF, CR,
    SPACE and NBSP. *)
Definition is_space (c : Ascii.ascii) : bool :=
  let n := Ascii.N_of_ascii c in
  (((9 <=? n) && (n <=? 13)) || (n =? 32) || (n =? 160))%N.

(** [\w] of a regular expression without the unicode flag: [A-Za-z0-9_]. *)
Definition is_word (c : Ascii.ascii) : bool :=
  let n := Ascii.N_of_ascii c in
  (((48 <=? n) && (n <=? 57)) || ((65 <=? n) && (n <=? 90))
   || ((97 <=? n) && (n <=? 122)) || (n =? 95))%N.

Fixpoint concat (l : list string) : string :=
  match l with
  | [] => ""
  | s :: l' => s +:+ concat l'
  end.

Fixpoint rev (s : string) : string :=
  match s with
  | "" => ""
  | String c s' => rev s' +:+ String c ""
  end.

Fixpoint drop (n : nat) (s : string) : string :=
  match n, s with
  | O, _ => s
  | S _, "" => ""
  | S k, String _ s' => drop k s'
  end.

(** [String.prototype.includes]. *)
Fixpoint includes (hay needle : string) : bool :=
  String.prefix needle hay
  || match hay with
     | "" => false
     | String _ hay' => includes hay' needle
     end.

Fixpoint trimStart (s : string) : string :=
  match s with
  | "" => ""
  | String c s' => if is_space c then trimStart s' else s
  end.

Definition trimEnd (s : string) : string := rev (trimStart (rev s)).

(** [String.prototype.trim]. *)
Definition trim (s : string) : string := trimEnd (trimStart s).

(** A string is falsy exactly when it is empty. *)
Definition truthy_string (s : string) : bool :=
  match s with "" => false | _ => true end.

(** [a || b] on strings. *)
Definition or_string (a b : string) : string :=
  if truthy_string a then a else b.

(** [a || b] where [a] may be [undefined]. *)
Definition or_default (a : option string) (b : string) : string :=
  match a with
  | Some s => or_string s b
  | None => b
  end.

(** [a || 0] on a number that may be [undefined]. *)
Definition or_zero (a : option Z) : Z :=
  match a with
  | Some n => n
  | None => 0
  end.

(** [s.split(/(\s+)/)]: the string is cut at every maximal run of
    white space and, because the separator is a capturing group, each run
    is kept in the result between the pieces it separates.  [inws] tells
    whether the scan is inside a run, [cur] is the piece or run collected
    since the last cut.  A run that ends the string is followed by the
    empty last piece. *)
Fixpoint split_go (inws : bool) (cur s : string) : list string :=
  match s with
  | "" => if inws then [cur; ""] else [cur]
  | String c s' =>
      if Bool.eqb (is_space c) inws
      then split_go inws (cur +:+ String c "") s'
      else cur :: split_go (is_space c) (String c "") s'
  end.

Definition split_whitespace (s : string) : list string :=
  split_go false "" s.

(** *** Values *)

(** Dynamically typed values, as far as the code inspects them. *)
Inductive JsValue : Type :=
| JUndefined
| JNull
| JBool (b : bool)
| JNumber (n : Z)
| JString (s : string)
| JArray (items : list JsValue)
| JObject (fields : list (string * JsValue))
| JSet (members : list JsValue).

(** The values [JSON.parse] can produce (its numbers taken as integers);
    none is a [Set]. *)
Inductive Json : Type :=
| JsonNull
| JsonBool (b : bool)
| JsonNumber (n : Z)
| JsonString (s : string)
| JsonArray (items : list Json)
| JsonObject (fields : list (string * Json)).

Fixpoint of_json (j : Json) : JsValue :=
  match j with
  | JsonNull => JNull
  | JsonBool b => JBool b
  | JsonNumber n => JNumber n
  | JsonString s => JString s
  | JsonArray items => JArray (map of_json items)
  | JsonObject fields => JObject (map (fun kv => (fst kv, of_json (snd kv))) fields)
  end.

Definition typeof (v : JsValue) : string :=
  match v with
  | JUndefined => "undefined"
  | JBool _ => "boolean"
  | JNumber _ => "number"
  | JString _ => "string"
  | JNull | JArray _ | JObject _ | JSet _ => "object"
  end.

Definition isArray (v : JsValue) : bool :=
  match v with JArray _ => true | _ => false end.

Definition instanceof_Set (v : JsValue) : bool :=
  match v with JSet _ => true | _ => false end.

(** The string-keyed properties of [Object.prototype], which every plain
    object inherits: the [in] operator finds them in any such object. *)
Definition Object_prototype_names : list string :=
  ["constructor"; "__defineGetter__"; "__defineSetter__"; "hasOwnProperty";
   "__lookupGetter__"; "__lookupSetter__"; "isPrototypeOf"; "propertyIsEnumerable";
   "toString"; "valueOf"; "__proto__"; "toLocaleString"].

Definition inherited (k : string) : bool :=
  existsb (String.eqb k) Object_prototype_names.

Fixpoint assoc (k : string) (fields : list (string * JsValue)) : option JsValue :=
  match fields with
  | [] => None
  | (k', v) :: rest => if String.eqb k k' then Some v else assoc k rest
  end.


(** Truthiness of a value (numbers are integers here, so there is no NaN). *)
Definition truthy (v : JsValue) : bool :=
  match v with
  | JUndefined | JNull => false
  | JBool b => b
  | JNumber n => negb (n =? 0)%Z
  | JString s => truthy_string s
  | JArray _ | JObject _ | JSet _ => true
  end.

(** [a || b]. *)
Definition or_value (a b : JsValue) : JsValue :=
  if truthy a then a else b.

(** [v === 'text'] for a string literal. *)
Definition strict_eq_string (v : JsValue) (lit : string) : bool :=
  match v with JString s => String.eqb s lit | _ => false end.

(** [a[0]] on an array; [undefined] when it is empty. *)
Definition first (items : list JsValue) : JsValue :=
  match items with
  | [] => JUndefined
  | v :: _ => v
  end.

Fixpoint join (sep : string) (l : list string) : string :=
  match l with
  | [] => ""
  | [s] => s
  | s :: l' => s +:+ sep +:+ join sep l'
  end.

(** The string [Array.prototype.join] puts for an element: nothing for
    [undefined] and [null], [ToString] otherwise. *)
Fixpoint join_item (v : JsValue) : string :=
  match v with
  | JUndefined | JNull => ""
  | JBool b => if b then "true" else "false"
  | JNumber n => pretty n
  | JString s => s
  | JArray items => join "," (map join_item items)
  | JObject _ => "[object Object]"
  | JSet _ => "[object Set]"
  end.

Definition newline : string := String (Ascii.ascii_of_nat 10) "".

(** *** Exceptions *)

(** What a [throw] can carry: the built-in errors, the library's own
    error classes (the provider errors carry the provider name), the
    SDKs' [APIError] with its HTTP status, and any value that is not an
    [Error]: [null], [undefined], a string, a plain object. *)
Inductive Thrown : Type :=
| Error (message : string)
| TypeError (message : string)
| SyntaxError (message : string)
| APIError (status : option Z) (message : string)
| AuthenticationError (message providerName : string)
| RateLimitError (message providerName : string)
| InvalidRequestError (message providerName : string)
| ConversationError (message : string)
| ConversationNotFoundError (id : string)
| InvalidConversationOperationError (message : string)
| NotAnError (value : JsValue).

(** [e instanceof Error]. *)
Definition instanceof_Error (e : Thrown) : bool :=
  match e with NotAnError _ => false | _ => true end.

(** Modelled from the spec: the constructors of the conversation errors
    are declared in [../types], which is not part of the sources; the
    message of [ConversationNotFoundError(id)] is taken to mention the id. *)
Definition message (e : Thrown) : string :=
  match e with
  | Error m | TypeError m | SyntaxError m | APIError _ m
  | AuthenticationError m _ | RateLimitError m _ | InvalidRequestError m _
  | ConversationError m | InvalidConversationOperationError m => m
  | ConversationNotFoundError id => "Conversation with id " +:+ id +:+ " not found"
  | NotAnError _ => ""
  end.

Definition name (e : Thrown) : string :=
  match e with
  | Error _ => "Error"
  | TypeError _ => "TypeError"
  | SyntaxError _ => "SyntaxError"
  | APIError _ _ => "Error"
  | AuthenticationError _ _ => "AuthenticationError"
  | RateLimitError _ _ => "RateLimitError"
  | InvalidRequestError _ _ => "InvalidRequestError"
  | ConversationError _ => "ConversationError"
  | ConversationNotFoundError _ => "ConversationNotFoundError"
  | InvalidConversationOperationError _ => "InvalidConversationOperationError"
  | NotAnError _ => ""
  end.

(** The string a template literal puts for [${v}]: like [join], except
    that [undefined] and [null] are spelled out. *)
Definition to_string (v : JsValue) : string :=
  match v with
  | JUndefined => "undefined"
  | JNull => "null"
  | _ => join_item v
  end.

(** The string a template literal puts for [${error}]:
    [Error.prototype.toString] gives [name: message]. *)
Definition toString (e : Thrown) : string :=
  match e with
  | NotAnError value => to_string value
  | _ => if truthy_string (message e) then name e +:+ ": " +:+ message e else name e
  end.

(** The normalized provider errors of the Provider Contract. *)
Definition is_provider_error (providerName : string) (e : Thrown) : bool :=
  match e with
  | AuthenticationError _ p | RateLimitError _ p | InvalidRequestError _ p =>
      String.eqb p providerName
  | _ => false
  end.

(** A computation either returns or throws. *)
Inductive Outcome (A : Type) : Type :=
| Returns (a : A)
| Throws (e : Thrown).
Arguments Returns {A} a.
Arguments Throws {A} e.

Definition bind {A B} (x : Outcome A) (f : A -> Outcome B) : Outcome B :=
  match x with
  | Returns a => f a
  | Throws e => Throws e
  end.

(** [try { body } catch (error) { handler(error) }]. *)
Definition try_catch {A} (body : Outcome A) (handler : Thrown -> Outcome A) : Outcome A :=
  match body with
  | Returns a => Returns a
  | Throws e => handler e
  end.

(** Property read [v.k] for the property names the code reads ([id],
    [messages], [metadata], [activeProviders], [role], [content], [data],
    [text], [status], [message]): reading from [undefined] or [null] throws a [TypeError] (the
    message is V8's), an object gives the field or [undefined], and no
    other value has one of these properties. *)
Definition get (v : JsValue) (k : string) : Outcome JsValue :=
  match v with
  | JUndefined =>
      Throws (TypeError ("Cannot read properties of undefined (reading '" +:+ k +:+ "')"))
  | JNull =>
      Throws (TypeError ("Cannot read properties of null (reading '" +:+ k +:+ "')"))
  | JObject fields => Returns (default JUndefined (assoc k fields))
  | _ => Returns JUndefined
  end.

End Js.

Declare Scope outcome_scope.
Delimit Scope outcome_scope with outcome.
Notation "x <- c1 ;; c2" := (Js.bind c1 (fun x => c2))
  (at level 100, c1 at next level, right associativity) : outcome_scope.


(** ** The shared response types *)
Module Types.

(** Modelled from the spec: [ChatCompletionResponse] and
    [ChatStreamCompletionResponse] are declared in [../../types], which is
    not part of the sources.  The fields are the ones the adapters write;
    a field an adapter leaves out or sets to [undefined] or [null] is
    [None]. *)
Record Usage : Type := {
  promptTokens : Z;
  completionTokens : Z;
  totalTokens : Z;
}.

Record ChatCompletionResponse : Type := {
  model : string;
  text : string;
  finishReason : option string;
  usage : option Usage;
  outputVariables : option (gmap string string);
}.

Record ChatStreamCompletionResponse : Type := {
  chunk_model : string;
  chunk_text : option string;
  chunk_finishReason : option string;
}.

(** What iterating an async generator to its end observes: the chunks it
    yielded, in order, and how it finished. *)
Record Stream : Type := {
  chunks : list ChatStreamCompletionResponse;
  finished : Js.Outcome unit;
}.

(** The non-null text fragments of a stream, concatenated in order. *)
Definition stream_text (s : Stream) : string :=
  Js.concat (omap chunk_text (chunks s)).

(** The fields of [LLMOptions] the adapters branch on; the sampling
    parameters (temperature, top-p, top-k) are floating-point numbers
    handed to the backend unchanged and are left out. *)
Record LLMOptions : Type := {
  opt_model : option string;
  opt_maxTokens : option Z;
  opt_systemMessage : option string;
}.

(** [n || d] on an optional number. *)
Definition or_number (n : option Z) (d : Z) : Z :=
  match n with
  | Some n => if (n =? 0)%Z then d else n
  | None => d
  end.

(** The documented chat message: a role and the tagged union
    [{type: "text", text: s}] as content. *)
Definition text_message (role s : string) : Js.JsValue :=
  Js.JObject [("role", Js.JString role);
              ("content", Js.JObject [("type", Js.JString "text");
                                      ("text", Js.JString s)])].

End Types.

(** ** The OpenAI adapter, [providers/openai/index.ts] *)
Module OpenAI.
Import Js Types.
Local Open Scope outcome_scope.

Definition DEFAULT_MAX_TOKENS : Z := 1024 * 4.
Definition DEFAULT_MODEL : string := "gpt-4o-mini".
Definition name : string := "OpenAI".

Record OpenAIProvider : Type := { apiKey : string }.

(** [constructor()]; [env] is [process.env]. *)
Definition constructor (env : gmap string string) : Outcome OpenAIProvider :=
  match env !! "OPENAI_API_KEY" with
  | Some apiKey =>
      if truthy_string apiKey
      then Returns {| apiKey := apiKey |}
      else Throws (Error "OpenAI API key not found in environment variables")
  | None => Throws (Error "OpenAI API key not found in environment variables")
  end.

(** The message sent on the wire, [ChatCompletionMessageParam]. *)
Record WireMessage : Type := {
  wire_role : JsValue;
  wire_content : JsValue;
}.

Record ChatRequest : Type := {
  req_model : string;
  req_messages : list WireMessage;
  req_max_tokens : Z;
}.

(** The SDK's completion: [choices[i].message.content],
    [choices[i].finish_reason] and the optional [usage]. *)
Record Choice : Type := {
  choice_content : option string;
  choice_finish_reason : option string;
}.

Record CompletionUsage : Type := {
  prompt_tokens : Z;
  completion_tokens : Z;
  total_tokens : Z;
}.

Record ChatCompletion : Type := {
  choices : list Choice;
  completion_usage : option CompletionUsage;
}.

Definition handleError {A} (error : Thrown) : Outcome A :=
  match error with
  | APIError status msg =>
      if bool_decide (status = Some 401)
      then Throws (AuthenticationError "Authentication failed with OpenAI" "OpenAI")
      else if bool_decide (status = Some 429)
      then Throws (RateLimitError "Rate limit exceeded for OpenAI" "OpenAI")
      else Throws (InvalidRequestError ("OpenAI request failed: " +:+ msg) "OpenAI")
  | NotAnError value =>
      Throws (InvalidRequestError ("Unknown error occurred: " +:+ to_string value) "OpenAI")
  | _ =>
      Throws (InvalidRequestError ("Unexpected error: " +:+ message error) "OpenAI")
  end.

Definition createSystemMessage (systemMessageText : string) : JsValue :=
  JObject [("role", JString "system");
           ("content", JObject [("type", JString "text");
                                ("data", JObject [("text", JString systemMessageText)])])].

Definition withSystemMessage (options : LLMOptions) (messages : list JsValue)
  : list JsValue :=
  match opt_systemMessage options with
  | Some s =>
      if truthy_string s && (0 <? String.length s)%nat
      then createSystemMessage s :: messages
      else messages
  | None => messages
  end.

(** The body of the [map] in [formatMessages]:
    [{ role: message.role, content: message.content.data.text || '' }]. *)
Definition formatMessage (message : JsValue) : Outcome WireMessage :=
  role <- get message "role";;
  content <- get message "content";;
  data <- get content "data";;
  text <- get data "text";;
  Returns {| wire_role := role; wire_content := or_value text (JString "") |}.

Fixpoint formatMessages (messages : list JsValue) : Outcome (list WireMessage) :=
  match messages with
  | [] => Returns []
  | message :: rest =>
      m <- formatMessage message;;
      ms <- formatMessages rest;;
      Returns (m :: ms)
  end.

(** [generateChatCompletion]; [create] is the backend call
    [client.chat.completions.create]. *)
Definition generateChatCompletion
    (create : ChatRequest -> Outcome ChatCompletion)
    (messages : list JsValue) (options : LLMOptions)
  : Outcome ChatCompletionResponse :=
  try_catch
    (let messageWithSystem := withSystemMessage options messages in
     formattedMessages <- formatMessages messageWithSystem;;
     let model := or_default (opt_model options) DEFAULT_MODEL in
     response <- create {| req_model := model;
                           req_messages := formattedMessages;
                           req_max_tokens :=
                             or_number (opt_maxTokens options) DEFAULT_MAX_TOKENS |};;
     let firstResponse := head (choices response) in
     let usage := completion_usage response in
     Returns {| model := model;
                text := or_default (firstResponse ≫= choice_content) "";
                finishReason := firstResponse ≫= choice_finish_reason;
                usage := Some {| promptTokens := or_zero (prompt_tokens <$> usage);
                                 completionTokens := or_zero (completion_tokens <$> usage);
                                 totalTokens := or_zero (total_tokens <$> usage) |};
                outputVariables := None |})
    handleError.

(** *** Streaming *)

(** One chunk of the SDK's stream, as far as the adapter reads it:
    [choices[0]?.delta?.content] and [choices[0]?.finish_reason]. *)
Record StreamDelta : Type := {
  delta_content : option string;
  delta_finish_reason : option string;
}.

(** What [for await] observes of the SDK's stream: the chunks it gives, in
    order, and whether it then ends or fails. *)
Record BackendStream : Type := {
  deltas : list StreamDelta;
  ended : Outcome unit;
}.

(** The chunk yielded for one chunk of the SDK:
    [{ text: content || null, finishReason, model }]. *)
Definition to_chunk (model : string) (chunk : StreamDelta) : ChatStreamCompletionResponse :=
  {| chunk_model := model;
     chunk_text := match delta_content chunk with
                   | Some content => if truthy_string content then Some content else None
                   | None => None
                   end;
     chunk_finishReason := delta_finish_reason chunk |}.

(** [streamChatCompletion], consumed to its end; [create_stream] is the
    backend call with [stream: true].  A failure before the first chunk or
    between two chunks reaches [handleError]; the chunks yielded before it
    stay yielded. *)
Definition streamChatCompletion
    (create_stream : ChatRequest -> Outcome BackendStream)
    (messages : list JsValue) (options : LLMOptions)
  : Stream :=
  let model := or_default (opt_model options) DEFAULT_MODEL in
  match (formattedMessages <- formatMessages (withSystemMessage options messages);;
         create_stream {| req_model := model;
                          req_messages := formattedMessages;
                          req_max_tokens :=
                            or_number (opt_maxTokens options) DEFAULT_MAX_TOKENS |})
  with
  | Returns stream =>
      {| chunks := map (to_chunk model) (deltas stream);
         finished := try_catch (ended stream) handleError |}
  | Throws error => {| chunks := []; finished := handleError error |}
  end.

(** *** Model listing *)




(** *** Embeddings *)

Definition DEFAULT_EMBEDDING_MODEL : string := "text-embedding-3-small".

Record EmbeddingRequestParams : Type := {
  embedding_content : string;
  embedding_model : option string;
}.

Section Embeddings.
(** The numbers of an embedding vector. *)
Variable Number : Type.

Record EmbeddingResponse : Type := {
  embedding : list Number;
  embeddings : list (list Number);
}.

(** [generateEmbedding]; [create] is the backend call
    [client.embeddings.create], which gives [response.data] (possibly
    missing) with one vector per item. *)
Definition generateEmbedding
    (create : string -> string -> Outcome (option (list (list Number))))
    (input : EmbeddingRequestParams)
  : Outcome EmbeddingResponse :=
  try_catch
    (let modelId := or_default (embedding_model input) DEFAULT_EMBEDDING_MODEL in
     response <- create modelId (embedding_content input);;
     match response with
     | None | Some [] => Throws (Error "No embedding generated")
     | Some (first :: rest) =>
         Returns {| embedding := first; embeddings := first :: rest |}
     end)
    handleError.

End Embeddings.

End OpenAI.

(** ** The Bedrock adapter *)
Module Anthropic.
Import Js.

(** [error.status] of a caught value, which is typed [any]: the SDK's API
    errors carry one, the other errors have none, and a value that is not an
    error is read like any value, so that [null] and [undefined] throw. *)
Definition status (error : Thrown) : Outcome JsValue :=
  match error with
  | APIError (Some n) _ => Returns (JNumber n)
  | NotAnError value => get value "status"
  | _ => Returns JUndefined
  end.

(** [error.message] of a caught value. *)
Definition message_of (error : Thrown) : Outcome JsValue :=
  match error with
  | NotAnError value => get value "message"
  | _ => Returns (JString (message error))
  end.

(** [v === n] for a number literal. *)
Definition strict_eq_number (v : JsValue) (n : Z) : bool :=
  match v with JNumber m => (m =? n)%Z | _ => false end.

Definition handleError {A} (error : Thrown) : Outcome A :=
  Js.bind (status error) (fun s =>
    if strict_eq_number s 401
    then Throws (AuthenticationError "Authentication failed with Anthropic" "Anthropic")
    else if strict_eq_number s 429
    then Throws (RateLimitError "Rate limit exceeded for Anthropic" "Anthropic")
    else Js.bind (message_of error) (fun m =>
           Throws (InvalidRequestError ("Anthropic request failed: " +:+ to_string m)
                                       "Anthropic"))).

(** *** Messages *)

Definition DEFAULT_MAX_TOKENS : Z := 1024.
Definition DEFAULT_MODEL_ID : string := "anthropic.claude-3-haiku-20240307-v1:0".

(** The adapter's field [model]; the client with its credentials and
    region only reaches the backend. *)
Record AnthropicProvider : Type := { provider_model : string }.

Definition constructor (model : option string) : AnthropicProvider :=
  {| provider_model := or_default model DEFAULT_MODEL_ID |}.











End Anthropic.

(** ** The Google adapter *)
Module Google.
Import Js Types.
Local Open Scope outcome_scope.

Definition DEFAULT_MAX_TOKENS : Z := 1024 * 4.
Definition name : string := "Google".

(** The fields of a [GoogleModelConfig] the adapter reads. *)
Record GoogleModelConfig : Type := {
  config_name : string;
  endpoint : string;
}.

(** The adapter's fields: the API key and the model table, which starts
    as [ALL_GOOGLE_MODELS] and is replaced by the fetched catalogue when
    the asynchronous refresh succeeds. *)
Record GoogleProvider : Type := {
  key : option string;
  availableModels : gmap string GoogleModelConfig;
}.

Section Models.
(** [DEFAULT_GOOGLE_MODEL] and [ALL_GOOGLE_MODELS] come from [./models],
    which is not part of the sources. *)
Variable DEFAULT_GOOGLE_MODEL : string.
Variable ALL_GOOGLE_MODELS : gmap string GoogleModelConfig.

(** [constructor(key?)]; [env] is [process.env]. *)
Definition constructor (key : option string) (env : gmap string string)
  : Outcome GoogleProvider :=
  let apiKey := match key with
                | Some k => Some k
                | None => env !! "GOOGLE_API_KEY"
                end in
  match apiKey with
  | Some k =>
      if truthy_string k
      then Returns {| key := apiKey; availableModels := ALL_GOOGLE_MODELS |}
      else Throws (AuthenticationError "Google API key GOOGLE_API_KEY is required" "Google")
  | None => Throws (AuthenticationError "Google API key GOOGLE_API_KEY is required" "Google")
  end.

Definition getKey (this : GoogleProvider) : Outcome string :=
  match key this with
  | Some k =>
      if truthy_string k then Returns k
      else Throws (AuthenticationError "Google API key is required" "Google")
  | None => Throws (AuthenticationError "Google API key is required" "Google")
  end.

Definition handleError {A} (error : Thrown) : Outcome A :=
  if instanceof_Error error
     && includes (message error) "API key"
  then Throws (AuthenticationError (message error) name)
  else if instanceof_Error error
          && (includes (message error) "quota"
              || includes (message error) "rate limit")
  then Throws (RateLimitError (message error) name)
  else if instanceof_Error error
          && (includes (message error) "not supported"
              || includes (message error) "invalid")
  then Throws (InvalidRequestError (message error) name)
  else Throws (Error (name +:+ " provider error: " +:+ toString error)).

(** *** Output variables *)

(** The longest prefix of [\w] characters, and what follows it. *)
Fixpoint take_word (s : string) : string * string :=
  match s with
  | "" => ("", "")
  | String c s' =>
      if is_word c
      then let '(w, r) := take_word s' in (String c w, r)
      else ("", s)
  end.

(** The lazy [[\s\S]*?] followed by the closing tag: the shortest
    prefix of [s] after which [closing] stands. *)
Fixpoint find_close (closing s : string) : option string :=
  if String.prefix closing s then Some ""
  else match s with
       | "" => None
       | String c s' => String c <$> find_close closing s'
       end.

(** One attempt of [/<(\w+)>([\s\S]*?)<\/\1>/] at the start of [s]:
    the two captures and the length of the whole match.  [\w+] is
    greedy and must be followed by [>], which is no [\w] character, so
    only the longest name can match. *)
Definition match_tag (s : string) : option (string * string * nat) :=
  match s with
  | String "<"%char s1 =>
      let '(tag, s2) := take_word s1 in
      if truthy_string tag
      then match s2 with
           | String ">"%char s3 =>
               let closing := "</" +:+ tag +:+ ">" in
               match find_close closing s3 with
               | Some value =>
                   Some (tag, value,
                         (2 + String.length tag + String.length value
                          + String.length closing)%nat)
               | None => None
               end
           | _ => None
           end
      else None
  | _ => None
  end.

(** The [while ((match = tagPattern.exec(text)) !== null)] loop of a
    global regular expression: the scan goes left to right, a match
    moves [lastIndex] behind itself ([skip] counts the characters still
    to pass), a failed attempt moves on by one character. *)
Fixpoint exec_all (skip : nat) (s : string) : list (string * string) :=
  match s with
  | "" => []
  | String _ s' =>
      match skip with
      | S k => exec_all k s'
      | O =>
          match match_tag s with
          | Some (tag, value, len) => (tag, value) :: exec_all (Nat.pred len) s'
          | None => exec_all 0 s'
          end
      end
  end.

(** [variables[k] = v] on an object literal: the key [__proto__] is the
    accessor inherited from [Object.prototype], and assigning a string
    to it changes nothing. *)
Definition assign (k v : string) (variables : gmap string string)
  : gmap string string :=
  if bool_decide (k = "__proto__") then variables else <[k := v]> variables.

Definition extractOutputVariables (text : string) : gmap string string :=
  let variables :=
    fold_left (fun vars m => assign (fst m) (trim (snd m)) vars)
              (exec_all 0 text) ∅ in
  if truthy_string (trim text)
  then <["qllm_response" := trim text]> variables
  else variables.

(** *** Chat completion *)

(** [Array.isArray(msg.content) ? msg.content[0] : msg.content]. *)
Definition first_content (msg : JsValue) : Outcome JsValue :=
  c <- get msg "content";;
  Returns (match c with
           | JArray items => first items
           | _ => c
           end).

(** [content.type === 'text' ? content.text : '']. *)
Definition content_text (content : JsValue) : Outcome JsValue :=
  type <- get content "type";;
  if strict_eq_string type "text" then get content "text" else Returns (JString "").

Fixpoint message_texts (messages : list JsValue) : Outcome (list JsValue) :=
  match messages with
  | [] => Returns []
  | msg :: rest =>
      content <- first_content msg;;
      t <- content_text content;;
      ts <- message_texts rest;;
      Returns (t :: ts)
  end.

Definition convertMessagesToPrompt (messages : list JsValue) : Outcome string :=
  ts <- message_texts messages;;
  Returns (join (newline +:+ newline) (map join_item ts)).

(** [model in this.availableModels]: the table is a plain object, so the
    operator finds its own keys and the names it inherits from
    [Object.prototype]. *)
Definition supported (this : GoogleProvider) (model : string) : bool :=
  bool_decide (is_Some (availableModels this !! model)) || inherited model.

(** [generateChatCompletion]; [generateContent] is the SDK call
    [genModel.generateContent(prompt)] followed by [response.text()]. *)
Definition generateChatCompletion
    (this : GoogleProvider)
    (generateContent : string -> string -> Outcome string)
    (messages : list JsValue) (options : option LLMOptions)
  : Outcome ChatCompletionResponse :=
  try_catch
    (let model := or_default (options ≫= opt_model) DEFAULT_GOOGLE_MODEL in
     if negb (supported this model)
     then Throws (InvalidRequestError ("Model " +:+ model +:+ " not supported by Google") "Google")
     else
       prompt <- convertMessagesToPrompt messages;;
       text <- generateContent model prompt;;
       Returns {| model := model;
                  text := text;
                  finishReason := None;
                  usage := None;
                  outputVariables :=
                    if truthy_string text
                    then Some (extractOutputVariables text)
                    else None |})
    handleError.

(** *** Emulated streaming *)

(** One entry of the request's [contents]. *)
Record Content : Type := {
  content_role : string;
  part_text : string;
}.

(** [msg.parts[0].text.trim()]: only a string has [trim]. *)
Definition trim_value (text : JsValue) : Outcome string :=
  match text with
  | JString s => Returns (trim s)
  | JUndefined => Throws (TypeError "Cannot read properties of undefined (reading 'trim')")
  | JNull => Throws (TypeError "Cannot read properties of null (reading 'trim')")
  | _ => Throws (TypeError "msg.parts[0].text.trim is not a function")
  end.

(** The [map] over the messages, which runs to its end before the
    [filter] starts. *)
Fixpoint map_contents (messages : list JsValue) : Outcome (list (string * JsValue)) :=
  match messages with
  | [] => Returns []
  | msg :: rest =>
      content <- first_content msg;;
      text <- content_text content;;
      role <- get msg "role";;
      cs <- map_contents rest;;
      Returns ((if strict_eq_string role "user" then "user" else "model", text) :: cs)
  end.

Fixpoint filter_contents (mapped : list (string * JsValue)) : Outcome (list Content) :=
  match mapped with
  | [] => Returns []
  | (role, text) :: rest =>
      trimmed <- trim_value text;;
      cs <- filter_contents rest;;
      Returns (if truthy_string trimmed
               then {| content_role := role; part_text := join_item text |} :: cs
               else cs)
  end.

Record RequestBody : Type := {
  contents : list Content;
  maxOutputTokens : Z;
}.

(** The two values the adapter reads from the parsed response body:
    [data?.candidates?.[0]?.content?.parts?.[0]?.text] and
    [data?.candidates?.[0]?.finishReason]. *)
Record ResponseData : Type := {
  candidate_text : option string;
  candidate_finishReason : option string;
}.

(** What [fetch] resolves to: [ok], [status], the result of [json()], and
    for the error path [JSON.stringify] of the parsed body, which is
    [null] when the body is not JSON. *)
Record FetchResponse : Type := {
  ok : bool;
  status : Z;
  error_details : string;
  json : Outcome ResponseData;
}.

Definition chunk (model word : string) : ChatStreamCompletionResponse :=
  {| chunk_model := model; chunk_text := Some word; chunk_finishReason := None |}.

(** The part of [streamChatCompletion] before the first [yield]: it gives
    the model, the text and the final chunk's finish reason, or throws.
    For a name the table only inherits, [this.availableModels[model]] is a
    function or [Object.prototype], whose [endpoint] is [undefined]. *)
Definition stream_prelude
    (this : GoogleProvider)
    (fetch : string -> RequestBody -> Outcome FetchResponse)
    (messages : list JsValue) (options : option LLMOptions)
  : Outcome (string * string * string) :=
  let model := or_default (options ≫= opt_model) DEFAULT_GOOGLE_MODEL in
  if negb (supported this model)
  then Throws (InvalidRequestError ("Model " +:+ model +:+ " not supported by Google") "Google")
  else
    apiKey <- getKey this;;
    let endpoint := default "undefined" (endpoint <$> availableModels this !! model) in
    mapped <- map_contents messages;;
    contents <- filter_contents mapped;;
    response <- fetch (endpoint +:+ "?key=" +:+ apiKey)
                      {| contents := contents;
                         maxOutputTokens :=
                           or_number (options ≫= opt_maxTokens) DEFAULT_MAX_TOKENS |};;
    if negb (ok response)
    then Throws (Error ("HTTP error! status: " +:+ pretty (status response)
                        +:+ ", details: " +:+ error_details response))
    else
      data <- json response;;
      let text := or_default (candidate_text data) "" in
      if negb (truthy_string text)
      then Throws (Error "No text generated from the model")
      else Returns (model, text, or_default (candidate_finishReason data) "stop").

(** [streamChatCompletion], consumed to its end: one chunk per piece of
    [text.split(/(\s+)/)], then the final chunk with the empty text and the
    finish reason.  An exception of the prelude reaches [handleError]
    before any chunk is yielded. *)
Definition streamChatCompletion
    (this : GoogleProvider)
    (fetch : string -> RequestBody -> Outcome FetchResponse)
    (messages : list JsValue) (options : option LLMOptions)
  : Stream :=
  match stream_prelude this fetch messages options with
  | Returns (model, text, finishReason) =>
      {| chunks := map (chunk model) (split_whitespace text)
                   ++ [{| chunk_model := model;
                          chunk_text := Some "";
                          chunk_finishReason := Some finishReason |}];
         finished := Returns tt |}
  | Throws error => {| chunks := []; finished := handleError error |}
  end.

End Models.
End Google.

(** ** The conversation reducer *)
Module Reducer.
Import Js.

(** *** Data *)

(** Modelled from the spec: [Conversation], [ConversationMessage],
    [ConversationMetadata] and [CreateConversationOptions] are declared in
    [../types], which is not part of the sources; the fields are those the
    reducer reads and writes.  A [Date] is its time value in milliseconds.
    An optional field that is absent is [None]. *)
Inductive Role : Type := system | user | assistant.

Record MessageContent : Type := {
  content_type : string;
  content_text : string;
}.

Record ConversationMessage : Type := {
  message_id : string;
  role : Role;
  content : MessageContent;
  timestamp : Z;
  providerId : string;
  options : list (string * JsValue);
}.

(** [Omit<ConversationMessage, 'id'>]. *)
Record NewMessage : Type := {
  new_role : Role;
  new_content : MessageContent;
  new_timestamp : Z;
  new_providerId : string;
  new_options : list (string * JsValue);
}.

Record ConversationMetadata : Type := {
  createdAt : Z;
  updatedAt : Z;
  title : option string;
  description : option string;
  extension : gmap string JsValue;
}.

(** [Partial<ConversationMetadata>]. *)
Record PartialMetadata : Type := {
  p_createdAt : option Z;
  p_updatedAt : option Z;
  p_title : option string;
  p_description : option string;
  p_extension : gmap string JsValue;
}.

Record Conversation : Type := {
  id : string;
  messages : list ConversationMessage;
  metadata : ConversationMetadata;
  activeProviders : gset string;
}.

(** [Partial<Conversation>]: the partiality is shallow, so a [metadata]
    that is present is a whole [ConversationMetadata]. *)
Record PartialConversation : Type := {
  u_id : option string;
  u_messages : option (list ConversationMessage);
  u_metadata : option ConversationMetadata;
  u_activeProviders : option (gset string);
}.

Record CreateConversationOptions : Type := {
  initialMessage : option string;
  c_metadata : option PartialMetadata;
  providerIds : option (list string);
}.

Inductive ConversationAction : Type :=
| CREATE_CONVERSATION (payload : CreateConversationOptions)
| UPDATE_CONVERSATION (id : string) (updates : PartialConversation)
| DELETE_CONVERSATION (payload : string)
| ADD_MESSAGE (id : string) (message : NewMessage)
| SET_METADATA (id : string) (metadata : PartialMetadata)
| ADD_PROVIDER (id : string) (providerId : string)
| REMOVE_PROVIDER (id : string) (providerId : string)
| CLEAR_HISTORY (payload : string)
| IMPORT_CONVERSATION (payload : string).

(** The object spread [{ ...base, ...over }] on metadata: a field that
    [over] has replaces the one of [base]. *)
Definition spread (base : ConversationMetadata) (over : PartialMetadata)
  : ConversationMetadata :=
  {| createdAt := default (createdAt base) (p_createdAt over);
     updatedAt := default (updatedAt base) (p_updatedAt over);
     title := match p_title over with Some t => Some t | None => title base end;
     description := match p_description over with
                    | Some d => Some d
                    | None => description base
                    end;
     extension := p_extension over ∪ extension base |}.

Definition as_partial (m : ConversationMetadata) : PartialMetadata :=
  {| p_createdAt := Some (createdAt m);
     p_updatedAt := Some (updatedAt m);
     p_title := title m;
     p_description := description m;
     p_extension := extension m |}.

Definition no_metadata : PartialMetadata :=
  {| p_createdAt := None; p_updatedAt := None; p_title := None;
     p_description := None; p_extension := ∅ |}.

(** [{ ...metadata, updatedAt: now }]. *)
Definition touch (m : ConversationMetadata) (now : Z) : ConversationMetadata :=
  {| createdAt := createdAt m; updatedAt := now; title := title m;
     description := description m; extension := extension m |}.

(** *** Objects and the world around the reducer *)

(** Objects have identity: a [Map] from conversation ids to references, a
    [Conversation], or an object that came out of [JSON.parse] and is
    stored as it is. *)
Definition loc : Type := nat.

Inductive Obj : Type :=
| OMap (entries : gmap string loc)
| OConv (c : Conversation)
| OAny (v : JsValue).

(** The heap, and how many ids [uuidv4] has produced and how often the
    clock has been read by [new Date()]. *)
Record World : Type := {
  heap : gmap loc Obj;
  uuids_drawn : nat;
  clock_reads : nat;
}.

(** The ids [uuidv4] produces and the times the clock shows, in the order
    they are asked for. *)
Record Env : Type := {
  uuid_at : nat -> string;
  time_at : nat -> Z;
}.

(** A run returns, throws, or is [Wrong]: it followed a dangling reference
    or used an object that is no [Map] or no [Conversation], which typed
    code never does. *)
Inductive Result (A : Type) : Type :=
| Done (a : A)
| Raised (e : Thrown)
| Wrong.
Arguments Done {A} a.
Arguments Raised {A} e.
Arguments Wrong {A}.

Definition M (A : Type) : Type := World -> Result A * World.

Definition ret {A} (a : A) : M A := fun w => (Done a, w).

Definition and_then {A B} (x : M A) (f : A -> M B) : M B :=
  fun w =>
    match x w with
    | (Done a, w') => f a w'
    | (Raised e, w') => (Raised e, w')
    | (Wrong, w') => (Wrong, w')
    end.

Definition throw {A} (e : Thrown) : M A := fun w => (Raised e, w).

Definition wrong {A} : M A := fun w => (Wrong, w).

(** [try { body } catch (error) { handler(error) }]; what the body did to
    the world before it threw stays done. *)
Definition catch {A} (body : M A) (handler : Thrown -> M A) : M A :=
  fun w =>
    match body w with
    | (Raised e, w') => handler e w'
    | r => r
    end.

Definition lift {A} (o : Outcome A) : M A :=
  match o with
  | Returns a => ret a
  | Throws e => throw e
  end.

Declare Scope reducer_scope.
Delimit Scope reducer_scope with reducer.
Notation "x <- c1 ;; c2" := (and_then c1 (fun x => c2))
  (at level 100, c1 at next level, right associativity) : reducer_scope.
Notation "c1 ;; c2" := (and_then c1 (fun _ => c2))
  (at level 100, right associativity) : reducer_scope.
Local Open Scope reducer_scope.

Definition set_heap (h : gmap loc Obj) (w : World) : World :=
  {| heap := h; uuids_drawn := uuids_drawn w; clock_reads := clock_reads w |}.

(** A new object gets a reference no object has. *)
Definition alloc (o : Obj) : M loc :=
  fun w =>
    let l := fresh (dom (heap w)) in
    (Done l, set_heap (<[l := o]> (heap w)) w).

(** Writing into an existing object. *)
Definition store (l : loc) (o : Obj) : M unit :=
  fun w =>
    match heap w !! l with
    | Some _ => (Done tt, set_heap (<[l := o]> (heap w)) w)
    | None => (Wrong, w)
    end.

Definition read_map (l : loc) : M (gmap string loc) :=
  fun w =>
    match heap w !! l with
    | Some (OMap m) => (Done m, w)
    | _ => (Wrong, w)
    end.

Definition read_conv (l : loc) : M Conversation :=
  fun w =>
    match heap w !! l with
    | Some (OConv c) => (Done c, w)
    | _ => (Wrong, w)
    end.

Section WithEnv.
Variable env : Env.

(** [uuidv4()]. *)
Definition uuidv4 : M string :=
  fun w =>
    (Done (uuid_at env (uuids_drawn w)),
     {| heap := heap w; uuids_drawn := S (uuids_drawn w);
        clock_reads := clock_reads w |}).

(** [new Date()]. *)
Definition new_Date : M Z :=
  fun w =>
    (Done (time_at env (clock_reads w)),
     {| heap := heap w; uuids_drawn := uuids_drawn w;
        clock_reads := S (clock_reads w) |}).

End WithEnv.

(** [state.get(id)]. *)
Definition map_get (state : loc) (id : string) : M (option loc) :=
  m <- read_map state;; ret (m !! id).

(** [new Map(state)]. *)
Definition new_Map (state : loc) : M loc :=
  m <- read_map state;; alloc (OMap m).

(** [map.set(key, value)]. *)
Definition map_set (map : loc) (key : string) (value : loc) : M unit :=
  m <- read_map map;; store map (OMap (<[key := value]> m)).

(** [map.delete(key)]. *)
Definition map_delete (map : loc) (key : string) : M unit :=
  m <- read_map map;; store map (OMap (delete key m)).

(** [conversation.messages.push(message)]. *)
Definition push_message (conversation : loc) (message : ConversationMessage) : M unit :=
  c <- read_conv conversation;;
  store conversation
        (OConv {| id := id c; messages := messages c ++ [message];
                  metadata := metadata c; activeProviders := activeProviders c |}).

(** [return new Map(state).set(id, conversation)]. *)
Definition with_entry (state : loc) (id : string) (conversation : loc) : M loc :=
  newState <- new_Map state;;
  map_set newState id conversation;;
  ret newState.

(** *** [isValidConversation] *)

Definition isValidConversation (data : JsValue) : Outcome bool :=
  (if negb (String.eqb (typeof data) "object") then Returns false else
   data_id <- get data "id";;
   if negb (String.eqb (typeof data_id) "string") then Returns false else
   data_messages <- get data "messages";;
   if negb (isArray data_messages) then Returns false else
   data_metadata <- get data "metadata";;
   if negb (String.eqb (typeof data_metadata) "object") then Returns false else
   data_activeProviders <- get data "activeProviders";;
   Returns (instanceof_Set data_activeProviders))%outcome.

(** *** [conversationReducer] *)

Section Reducer.
Variable env : Env.
(** [JSON.parse]: a value, or a [SyntaxError]. *)
Variable JSON_parse : string -> Outcome Json.

Definition not_found {A} (cid : string) : M A :=
  throw (ConversationNotFoundError cid).

(** The common ending of the updating cases: the new conversation object,
    and [new Map(state).set(id, updatedConversation)]. *)
Definition replace (state : loc) (cid : string) (updatedConversation : Conversation)
  : M loc :=
  updated <- alloc (OConv updatedConversation);;
  with_entry state cid updated.

Definition conversationReducer (state : loc) (action : ConversationAction) : M loc :=
  match action with
  | CREATE_CONVERSATION payload =>
      cid <- uuidv4 env;;
      now <- new_Date env;;
      let given := default no_metadata (c_metadata payload) in
      conversation <-
        alloc (OConv
          {| id := cid;
             messages := [];
             metadata :=
               spread {| createdAt := now;
                         updatedAt := now;
                         title := Some (or_default (p_title given) ("Conversation " +:+ cid));
                         description := Some (or_default (p_description given) "");
                         extension := ∅ |}
                      given;
             activeProviders := list_to_set (default [] (providerIds payload)) |});;
      (if truthy_string (default "" (initialMessage payload))
       then
         mid <- uuidv4 env;;
         push_message conversation
           {| message_id := mid;
              role := user;
              content := {| content_type := "text";
                            content_text := default "" (initialMessage payload) |};
              timestamp := now;
              providerId := default "" (head (default [] (providerIds payload)));
              options := [] |}
       else ret tt);;
      with_entry state cid conversation

  | UPDATE_CONVERSATION cid updates =>
      found <- map_get state cid;;
      match found with
      | None => not_found cid
      | Some l =>
          conversation <- read_conv l;;
          now <- new_Date env;;
          replace state cid
            {| id := default (id conversation) (u_id updates);
               messages := default (messages conversation) (u_messages updates);
               metadata :=
                 touch (spread (metadata conversation)
                               (default no_metadata (as_partial <$> u_metadata updates)))
                       now;
               activeProviders :=
                 default (activeProviders conversation) (u_activeProviders updates) |}
      end

  | DELETE_CONVERSATION payload =>
      newState <- new_Map state;;
      map_delete newState payload;;
      ret newState

  | ADD_MESSAGE cid message =>
      found <- map_get state cid;;
      match found with
      | None => not_found cid
      | Some l =>
          mid <- uuidv4 env;;
          stamp <- new_Date env;;
          conversation <- read_conv l;;
          now <- new_Date env;;
          replace state cid
            {| id := id conversation;
               messages :=
                 messages conversation
                 ++ [{| message_id := mid;
                        role := new_role message;
                        content := new_content message;
                        timestamp := stamp;
                        providerId := new_providerId message;
                        options := new_options message |}];
               activeProviders := {[new_providerId message]} ∪ activeProviders conversation;
               metadata := touch (metadata conversation) now |}
      end

  | SET_METADATA cid given =>
      found <- map_get state cid;;
      match found with
      | None => not_found cid
      | Some l =>
          conversation <- read_conv l;;
          now <- new_Date env;;
          replace state cid
            {| id := id conversation;
               messages := messages conversation;
               metadata := touch (spread (metadata conversation) given) now;
               activeProviders := activeProviders conversation |}
      end

  | ADD_PROVIDER cid provider =>
      found <- map_get state cid;;
      match found with
      | None => not_found cid
      | Some l =>
          conversation <- read_conv l;;
          now <- new_Date env;;
          replace state cid
            {| id := id conversation;
               messages := messages conversation;
               activeProviders := {[provider]} ∪ activeProviders conversation;
               metadata := touch (metadata conversation) now |}
      end

  | REMOVE_PROVIDER cid provider =>
      found <- map_get state cid;;
      match found with
      | None => not_found cid
      | Some l =>
          conversation <- read_conv l;;
          if negb (bool_decide (provider ∈ activeProviders conversation))
          then throw (InvalidConversationOperationError
                        ("Provider " +:+ provider +:+ " is not active in conversation "
                         +:+ cid))
          else
            now <- new_Date env;;
            replace state cid
              {| id := id conversation;
                 messages := messages conversation;
                 activeProviders := activeProviders conversation ∖ {[provider]};
                 metadata := touch (metadata conversation) now |}
      end

  | CLEAR_HISTORY cid =>
      found <- map_get state cid;;
      match found with
      | None => not_found cid
      | Some l =>
          conversation <- read_conv l;;
          now <- new_Date env;;
          replace state cid
            {| id := id conversation;
               messages := [];
               metadata := touch (metadata conversation) now;
               activeProviders := activeProviders conversation |}
      end

  | IMPORT_CONVERSATION payload =>
      catch
        (parsed <- lift (JSON_parse payload);;
         let parsedData := of_json parsed in
         valid <- lift (isValidConversation parsedData);;
         if negb valid
         then throw (Error "Invalid conversation data structure")
         else
           match get parsedData "id" with
           | Returns (JString cid) =>
               imported <- alloc (OAny parsedData);;
               with_entry state cid imported
           | _ => wrong
           end)
        (fun error =>
           throw (ConversationError ("Failed to import conversation: " +:+ message error)))
  end.

End Reducer.

(** *** Reading a state *)

Definition conv_at (h : gmap loc Obj) (l : loc) : option Conversation :=
  match h !! l with
  | Some (OConv c) => Some c
  | _ => None
  end.

(** The mapping a state reference stands for, by value. *)
Definition snapshot (w : World) (state : loc) : option (gmap string Conversation) :=
  match heap w !! state with
  | Some (OMap m) => Some (omap (conv_at (heap w)) m)
  | _ => None
  end.

(** A state as typed code has it: a [Map] whose values are
    [Conversation]s. *)
Definition well_formed (w : World) (state : loc) : Prop :=
  exists m, heap w !! state = Some (OMap m)
            /\ forall k l, m !! k = Some l -> is_Some (conv_at (heap w) l).

(** The conversation an action works on, for the six actions that need an
    existing one. *)
Definition target (action : ConversationAction) : option string :=
  match action with
  | UPDATE_CONVERSATION cid _ | ADD_MESSAGE cid _ | SET_METADATA cid _
  | ADD_PROVIDER cid _ | REMOVE_PROVIDER cid _ | CLEAR_HISTORY cid => Some cid
  | CREATE_CONVERSATION _ | DELETE_CONVERSATION _ | IMPORT_CONVERSATION _ => None
  end.

End Reducer.

(** * Notions and sample inputs

    The notions the properties are stated with, and the concrete inputs
    they are tried on. *)

Import Js Types.
Import Reducer.

(** ** Notions *)

(** The shape [createSystemMessage] builds, with the text under [data]. *)
Definition data_message (role s : string) : JsValue :=
  JObject [("role", JString role);
           ("content", JObject [("type", JString "text");
                                ("data", JObject [("text", JString s)])])].

(** The response carries usage counters, none of them negative. *)
Definition usage_counters_nonneg (r : ChatCompletionResponse) : Prop :=
  exists u, usage r = Some u
            /\ 0 <= promptTokens u /\ 0 <= completionTokens u /\ 0 <= totalTokens u.

(** The spec's words, "last match per name wins": the value of the last
    match whose tag is [tag]. *)
Fixpoint last_value (tag : string) (matches : list (string * string)) : option string :=
  match matches with
  | [] => None
  | (k, v) :: rest =>
      match last_value tag rest with
      | Some v' => Some v'
      | None => if String.eqb k tag then Some v else None
      end
  end.

(** [<tag>value</tag>]. *)
Definition element (tag value : string) : string :=
  "<" +:+ tag +:+ ">" +:+ value +:+ "</" +:+ tag +:+ ">".

(** Every character of a string satisfies a test. *)
Fixpoint all_chars (test : ascii -> bool) (s : string) : bool :=
  match s with
  | "" => true
  | String c s' => test c && all_chars test s'
  end.

(** A text without the character [<]. *)
Definition plain (s : string) : bool :=
  all_chars (fun c => negb (Ascii.eqb c "<")) s.

(** No opening tag [<name>] starts in the text: after each [<], the run
    of letters, digits and underscores is empty or not followed by [>].
    [opens_after seen s] tells whether [s] continues an opening tag, [seen]
    telling whether a character of the name came before. *)
Fixpoint opens_after (seen : bool) (s : string) : bool :=
  match s with
  | "" => false
  | String c s' => if is_word c then opens_after true s' else seen && Ascii.eqb c ">"
  end.

Fixpoint tagless (s : string) : bool :=
  match s with
  | "" => true
  | String c s' => negb (Ascii.eqb c "<" && opens_after false s') && tagless s'
  end.

(** The text starts with [>]. *)
Definition starts_gt (s : string) : bool :=
  match s with
  | String c _ => Ascii.eqb c ">"
  | "" => false
  end.

(** A flat markup: a sequence of elements, each with the text that stands
    before it, and the text after the last one.  An item is [flat] when no
    opening tag starts in the text before it, its name is a non-empty run of
    letters, digits and underscores, and its value does not contain its own
    closing tag. *)
Definition flat (item : string * string * string) : bool :=
  let '(before, tag, value) := item in
  tagless before && truthy_string tag && all_chars is_word tag
  && negb (includes value ("</" +:+ tag +:+ ">")).

Fixpoint markup (items : list (string * string * string)) (rest : string) : string :=
  match items with
  | [] => rest
  | (before, tag, value) :: items' => before +:+ element tag value +:+ markup items' rest
  end.

Definition elements (items : list (string * string * string)) : list (string * string) :=
  map (fun item => (snd (fst item), snd item)) items.

(** The conversation a state holds under an id. *)
Definition lookup_conversation (w : World) (state : loc) (cid : string)
  : option Conversation :=
  snapshot w state ≫= (fun entries => entries !! cid).

(** The state an updating case returns: the new conversation object at a
    fresh reference, and a fresh [Map] with the entry [cid] set to it. *)
Definition installed (w : World) (m : gmap string loc) (cid : string)
    (c : Conversation) : loc * gmap loc Obj :=
  let l1 := fresh (dom (heap w)) in
  let h1 := <[l1 := OConv c]> (heap w) in
  let l2 := fresh (dom h1) in
  (l2, <[l2 := OMap (<[cid := l1]> m)]> h1).

(** The conversation an updating action puts in the place of [c], from the
    id and the clock readings it takes in the world [w]. *)
Definition updated (env : Env) (w : World) (action : ConversationAction) (c : Conversation)
  : Result Conversation :=
  let now := time_at env (clock_reads w) in
  match action with
  | UPDATE_CONVERSATION _ updates =>
      Done {| id := default (id c) (u_id updates);
              messages := default (messages c) (u_messages updates);
              metadata :=
                touch (spread (metadata c)
                              (default no_metadata (as_partial <$> u_metadata updates)))
                      now;
              activeProviders := default (activeProviders c) (u_activeProviders updates) |}
  | ADD_MESSAGE _ message =>
      Done {| id := id c;
              messages :=
                messages c
                ++ [{| message_id := uuid_at env (uuids_drawn w);
                       role := new_role message;
                       content := new_content message;
                       timestamp := now;
                       providerId := new_providerId message;
                       options := new_options message |}];
              activeProviders := {[new_providerId message]} ∪ activeProviders c;
              metadata := touch (metadata c) (time_at env (S (clock_reads w))) |}
  | SET_METADATA _ given =>
      Done {| id := id c;
              messages := messages c;
              metadata := touch (spread (metadata c) given) now;
              activeProviders := activeProviders c |}
  | ADD_PROVIDER _ provider =>
      Done {| id := id c;
              messages := messages c;
              activeProviders := {[provider]} ∪ activeProviders c;
              metadata := touch (metadata c) now |}
  | REMOVE_PROVIDER cid provider =>
      if bool_decide (provider ∈ activeProviders c)
      then Done {| id := id c;
                   messages := messages c;
                   activeProviders := activeProviders c ∖ {[provider]};
                   metadata := touch (metadata c) now |}
      else Raised (InvalidConversationOperationError
                     ("Provider " +:+ provider +:+ " is not active in conversation "
                      +:+ cid))
  | CLEAR_HISTORY _ =>
      Done {| id := id c;
              messages := [];
              metadata := touch (metadata c) now;
              activeProviders := activeProviders c |}
  | _ => Wrong
  end.

(** The ids and clock readings an updating action takes. *)
Definition advanced (w : World) (action : ConversationAction) : World :=
  match action with
  | ADD_MESSAGE _ _ =>
      {| heap := heap w; uuids_drawn := S (uuids_drawn w);
         clock_reads := S (S (clock_reads w)) |}
  | _ =>
      {| heap := heap w; uuids_drawn := uuids_drawn w;
         clock_reads := S (clock_reads w) |}
  end.

(** The conversation [CREATE_CONVERSATION] makes in the world [w]. *)
Definition created (env : Env) (w : World) (payload : CreateConversationOptions) : Conversation :=
  let cid := uuid_at env (uuids_drawn w) in
  let now := time_at env (clock_reads w) in
  let given := default no_metadata (c_metadata payload) in
  {| id := cid;
     messages :=
       if truthy_string (default "" (initialMessage payload))
       then [{| message_id := uuid_at env (S (uuids_drawn w));
                role := user;
                content := {| content_type := "text";
                              content_text := default "" (initialMessage payload) |};
                timestamp := now;
                providerId := default "" (head (default [] (providerIds payload)));
                options := [] |}]
       else [];
     metadata :=
       spread {| createdAt := now;
                 updatedAt := now;
                 title := Some (or_default (p_title given) ("Conversation " +:+ cid));
                 description := Some (or_default (p_description given) "");
                 extension := ∅ |}
              given;
     activeProviders := list_to_set (default [] (providerIds payload)) |}.

(** The ids and the clock reading [CREATE_CONVERSATION] takes. *)
Definition advanced_create (w : World) (payload : CreateConversationOptions) : World :=
  {| heap := heap w;
     uuids_drawn := if truthy_string (default "" (initialMessage payload))
                    then S (S (uuids_drawn w)) else S (uuids_drawn w);
     clock_reads := S (clock_reads w) |}.

(** The error [IMPORT_CONVERSATION] throws for a payload. *)
Definition import_error (JSON_parse : string -> Outcome Json) (payload : string) : Thrown :=
  ConversationError
    ("Failed to import conversation: "
     +:+ match JSON_parse payload with
         | Throws e => message e
         | Returns j =>
             match isValidConversation (of_json j) with
             | Throws e => message e
             | Returns _ => "Invalid conversation data structure"
             end
         end).

(** The key an action writes or removes, in the world [w]. *)
Definition key_of (env : Env) (w : World) (action : ConversationAction) : string :=
  match action with
  | CREATE_CONVERSATION _ => uuid_at env (uuids_drawn w)
  | UPDATE_CONVERSATION cid _ | ADD_MESSAGE cid _ | SET_METADATA cid _
  | ADD_PROVIDER cid _ | REMOVE_PROVIDER cid _ | CLEAR_HISTORY cid
  | DELETE_CONVERSATION cid => cid
  | IMPORT_CONVERSATION _ => ""
  end.

(** What an action makes of the entries of a state, read by value, in a
    world that has handed out the ids and clock readings [w] has. *)
Definition step_entries (env : Env) (JSON_parse : string -> Outcome Json)
    (w : World) (action : ConversationAction)
    (entries : gmap string Conversation) : Result (gmap string Conversation) :=
  match action with
  | CREATE_CONVERSATION payload =>
      Done (<[uuid_at env (uuids_drawn w) := created env w payload]> entries)
  | DELETE_CONVERSATION cid => Done (delete cid entries)
  | IMPORT_CONVERSATION payload => Raised (import_error JSON_parse payload)
  | _ =>
      match entries !! key_of env w action with
      | None => Raised (ConversationNotFoundError (key_of env w action))
      | Some c =>
          match updated env w action c with
          | Done c' => Done (<[key_of env w action := c']> entries)
          | Raised e => Raised e
          | Wrong => Wrong
          end
      end
  end.

(** Two runs end alike: both return well-formed states with the same
    entries by value, or both throw the same error. *)
Definition same_outcome (r1 r2 : Result loc * World) : Prop :=
  match fst r1, fst r2 with
  | Done s1, Done s2 =>
      well_formed (snd r1) s1 /\ well_formed (snd r2) s2
      /\ snapshot (snd r1) s1 = snapshot (snd r2) s2
  | Raised e1, Raised e2 => e1 = e2
  | _, _ => False
  end.

(** A run mutates nothing: every object of the heap before it, the input
    [Map] and its conversations among them, is in the heap after it,
    unchanged; and a returned state is another [Map] than the input, whose
    entries other than the action's key are the very references the input
    had. *)
Definition unmutated (env : Env) (action : ConversationAction)
    (w : World) (state : loc) (r : Result loc * World) : Prop :=
  heap w ⊆ heap (snd r)
  /\ forall state',
      fst r = Done state' ->
      state' <> state
      /\ exists m m',
          heap w !! state = Some (OMap m)
          /\ heap (snd r) !! state' = Some (OMap m')
          /\ forall k, k <> key_of env w action -> m' !! k = m !! k.

(** The payload of the action supplies no [createdAt] and no
    [updatedAt]. *)
Definition dateless (action : ConversationAction) : Prop :=
  match action with
  | CREATE_CONVERSATION payload =>
      match c_metadata payload with
      | Some given => p_createdAt given = None /\ p_updatedAt given = None
      | None => True
      end
  | UPDATE_CONVERSATION _ updates => u_metadata updates = None
  | SET_METADATA _ given => p_createdAt given = None /\ p_updatedAt given = None
  | _ => True
  end.

(** No restriction on the actions. *)
Definition any_action (action : ConversationAction) : Prop := True.

(** The clock never goes backwards. *)
Definition monotone (env : Env) : Prop :=
  forall i j : nat, (i <= j)%nat -> time_at env i <= time_at env j.

(** The states a store reaches from an empty [Map] by dispatching
    [allowed] actions: a returned state replaces the current one, a throw
    leaves it. *)
Inductive reachable (env : Env) (JSON_parse : string -> Outcome Json)
    (allowed : ConversationAction -> Prop) : World -> loc -> Prop :=
| reach_empty (w : World) (state : loc) :
    heap w !! state = Some (OMap ∅) ->
    reachable env JSON_parse allowed w state
| reach_done (w w' : World) (state state' : loc) (action : ConversationAction) :
    reachable env JSON_parse allowed w state ->
    allowed action ->
    conversationReducer env JSON_parse state action w = (Done state', w') ->
    reachable env JSON_parse allowed w' state'
| reach_raised (w w' : World) (state : loc) (action : ConversationAction) (e : Thrown) :
    reachable env JSON_parse allowed w state ->
    allowed action ->
    conversationReducer env JSON_parse state action w = (Raised e, w') ->
    reachable env JSON_parse allowed w' state.

(** Every conversation was created no later than it was last updated, and
    no later than any reading the clock has still to give. *)
Definition ordered (env : Env) (w : World) (entries : gmap string Conversation) : Prop :=
  forall cid c,
    entries !! cid = Some c ->
    createdAt (metadata c) <= updatedAt (metadata c)
    /\ forall j : nat, (clock_reads w <= j)%nat -> createdAt (metadata c) <= time_at env j.

(** ** Sample inputs *)

(** A model table with one model. *)
Definition sample_models : gmap string Google.GoogleModelConfig :=
  {[ "gemini-pro" := {| Google.config_name := "Gemini Pro";
                        Google.endpoint := "https://generativelanguage.example/gemini-pro" |} ]}.

(** A Google adapter with a key and that table. *)
Definition sample_google : Google.GoogleProvider :=
  {| Google.key := Some "secret"; Google.availableModels := sample_models |}.

(** A backend that answers every request with HTTP 401 and a body that is
    not JSON. *)
Definition fetch_401 (url : string) (body : Google.RequestBody)
  : Outcome Google.FetchResponse :=
  Returns {| Google.ok := false;
             Google.status := 401;
             Google.error_details := "null";
             Google.json := Throws (SyntaxError "Unexpected token") |}.

(** A backend that answers every request with the text [Hello  there]
    and no finish reason. *)
Definition fetch_hello (url : string) (body : Google.RequestBody)
  : Outcome Google.FetchResponse :=
  Returns {| Google.ok := true;
             Google.status := 200;
             Google.error_details := "null";
             Google.json := Returns {| Google.candidate_text := Some "Hello  there";
                                       Google.candidate_finishReason := None |} |}.

(** An SDK call that answers [Hello]. *)
Definition generate_hello (model prompt : string) : Outcome string := Returns "Hello".

(** An SDK call that fails on the network. *)
Definition generate_fails (model prompt : string) : Outcome string :=
  Throws (Error "fetch failed").


(** A backend whose completion reports no usage. *)
Definition create_no_usage (request : OpenAI.ChatRequest)
  : Outcome OpenAI.ChatCompletion :=
  Returns {| OpenAI.choices := [{| OpenAI.choice_content := Some "Paris";
                                   OpenAI.choice_finish_reason := Some "stop" |}];
             OpenAI.completion_usage := None |}.

(** A backend whose completion reports its usage. *)
Definition create_with_usage (request : OpenAI.ChatRequest)
  : Outcome OpenAI.ChatCompletion :=
  Returns {| OpenAI.choices := [{| OpenAI.choice_content := Some "Paris";
                                   OpenAI.choice_finish_reason := Some "stop" |}];
             OpenAI.completion_usage :=
               Some {| OpenAI.prompt_tokens := 12; OpenAI.completion_tokens := 3;
                       OpenAI.total_tokens := 15 |} |}.



(** Options that set nothing. *)
Definition no_options : LLMOptions :=
  {| opt_model := None; opt_maxTokens := None; opt_systemMessage := None |}.

(** A parser at a payload that is the JSON text of a conversation with id
    [c1], no messages, empty metadata and the provider [openai]. *)
Definition parse_exported (payload : string) : Outcome Json :=
  Returns (JsonObject [("id", JsonString "c1");
                       ("messages", JsonArray []);
                       ("metadata", JsonObject []);
                       ("activeProviders", JsonArray [JsonString "openai"])]).

(** Ids [uuid-0], [uuid-1], ... and a clock that advances by one
    millisecond at each reading. *)
Definition clock_env : Env :=
  {| uuid_at := fun n => "uuid-" +:+ pretty n;
     time_at := fun n => 1000 + Z.of_nat n |}.

(** A world whose only object is an empty [Map], at reference [0]. *)
Definition empty_world : World :=
  {| heap := {[ 0%nat := OMap ∅ ]}; uuids_drawn := 0; clock_reads := 0 |}.

(** Another world with an empty [Map], at another reference. *)
Definition other_world : World :=
  {| heap := {[ 7%nat := OMap ∅ ]}; uuids_drawn := 0; clock_reads := 0 |}.

(** The message of the spec's scenario: [Hi], from [openai]. *)
Definition hi_message : NewMessage :=
  {| new_role := user;
     new_content := {| content_type := "text"; content_text := "Hi" |};
     new_timestamp := 0;
     new_providerId := "openai";
     new_options := [] |}.

(** [CREATE_CONVERSATION] with an empty payload. *)
Definition create_nothing : ConversationAction :=
  CREATE_CONVERSATION {| initialMessage := None; c_metadata := None; providerIds := None |}.

(** The run of that action on a state. *)
Definition created_in (w : World) (state : loc) : Result loc * World :=
  conversationReducer clock_env parse_exported state create_nothing w.

(** [CREATE_CONVERSATION] with a payload whose metadata has a title and an
    [updatedAt] of 0. *)
Definition early_update : ConversationAction :=
  CREATE_CONVERSATION
    {| initialMessage := None;
       c_metadata := Some {| p_createdAt := None; p_updatedAt := Some 0;
                             p_title := Some "Demo"; p_description := None;
                             p_extension := ∅ |};
       providerIds := None |}.

(** [SET_METADATA] on the conversation [uuid-0] with a [createdAt] of
    5000. *)
Definition late_creation : ConversationAction :=
  SET_METADATA "uuid-0"
    {| p_createdAt := Some 5000; p_updatedAt := None; p_title := None;
       p_description := None; p_extension := ∅ |}.

(** ** Further notions *)

(** The ids a returning run of an action draws, and the clock readings it
    takes. *)
Definition uuid_cost (action : ConversationAction) : nat :=
  match action with
  | CREATE_CONVERSATION payload =>
      if truthy_string (default "" (initialMessage payload)) then 2 else 1
  | ADD_MESSAGE _ _ => 1
  | _ => 0
  end.

Definition clock_cost (action : ConversationAction) : nat :=
  match action with
  | ADD_MESSAGE _ _ => 2
  | DELETE_CONVERSATION _ | IMPORT_CONVERSATION _ => 0
  | _ => 1
  end.

(** The action does not replace the [id] field of a conversation. *)
Definition keeps_id (action : ConversationAction) : Prop :=
  match action with
  | UPDATE_CONVERSATION _ updates => u_id updates = None
  | _ => True
  end.

(** The action does not replace the message sequence of a conversation. *)
Definition keeps_messages (action : ConversationAction) : Prop :=
  match action with
  | UPDATE_CONVERSATION _ updates => u_messages updates = None
  | _ => True
  end.

(** Every entry is stored under its own id. *)
Definition keyed_by_id (entries : gmap string Conversation) : Prop :=
  forall cid c, entries !! cid = Some c -> id c = cid.

(** The message ids of a conversation. *)
Definition message_ids (c : Conversation) : list string :=
  map message_id (messages c).

(** Every message id was drawn from [uuidv4], and no conversation has the
    same message id twice. *)
Definition reducer_assigned (env : Env) (w : World)
    (entries : gmap string Conversation) : Prop :=
  forall cid c,
    entries !! cid = Some c ->
    NoDup (message_ids c)
    /\ forall mid, mid ∈ message_ids c ->
                   exists i : nat, (i < uuids_drawn w)%nat /\ mid = uuid_at env i.

(** [uuidv4] never gives the same id twice. *)
Definition distinct_ids (env : Env) : Prop :=
  forall i j : nat, uuid_at env i = uuid_at env j -> i = j.

(** The three errors of the conversation subsystem. *)
Definition is_conversation_error (e : Thrown) : bool :=
  match e with
  | ConversationError _ | ConversationNotFoundError _
  | InvalidConversationOperationError _ => true
  | _ => false
  end.

(** ** Further sample inputs *)

(** The payload of a conversation with a title, two providers and a first
    message. *)
Definition demo_payload : CreateConversationOptions :=
  {| initialMessage := Some "Hello";
     c_metadata := Some {| p_createdAt := None; p_updatedAt := None;
                           p_title := Some "Demo"; p_description := None;
                           p_extension := {[ "topic" := JString "tests" ]} |};
     providerIds := Some ["openai"; "google"] |}.

(** The run that creates it in the empty world, the world it leaves (the
    new state is at reference 2, the conversation has the id [uuid-0]), and
    the conversation. *)
Definition demo_run : Result loc * World :=
  conversationReducer clock_env parse_exported 0%nat
    (CREATE_CONVERSATION demo_payload) empty_world.

Definition demo_world : World := snd demo_run.

Definition demo_conversation : Conversation := created clock_env empty_world demo_payload.

(** The entries of that state. *)
Definition demo_entries : gmap string Conversation :=
  {[ "uuid-0" := demo_conversation ]}.

(** Metadata that sets a title, an [updatedAt] and an extension field. *)
Definition retitle : PartialMetadata :=
  {| p_createdAt := None; p_updatedAt := Some 7; p_title := Some "Renamed";
     p_description := None; p_extension := {[ "topic" := JString "proofs" ]} |}.

(** ** Notions for the adapters *)

(** A conversation as a list of turns, each a role and a text, and its
    messages in the shape the OpenAI adapter reads and in the documented
    shape. *)
Definition data_messages (turns : list (string * string)) : list JsValue :=
  map (fun turn => data_message (fst turn) (snd turn)) turns.

Definition text_messages (turns : list (string * string)) : list JsValue :=
  map (fun turn => text_message (fst turn) (snd turn)) turns.

(** The wire message of a turn. *)
Definition wire_of (turn : string * string) : OpenAI.WireMessage :=
  {| OpenAI.wire_role := JString (fst turn); OpenAI.wire_content := JString (snd turn) |}.

(** The request the OpenAI adapter sends for a list of turns: the system
    message of the options first when it is not empty, then the turns in
    order, the model and token limit of the options or the defaults. *)
Definition openai_request (options : LLMOptions) (turns : list (string * string))
  : OpenAI.ChatRequest :=
  {| OpenAI.req_model := or_default (opt_model options) OpenAI.DEFAULT_MODEL;
     OpenAI.req_messages :=
       match opt_systemMessage options with
       | Some s => if truthy_string s then wire_of ("system", s) :: map wire_of turns
                   else map wire_of turns
       | None => map wire_of turns
       end;
     OpenAI.req_max_tokens :=
       or_number (opt_maxTokens options) OpenAI.DEFAULT_MAX_TOKENS |}.

(** The entry of the Google request's [contents] for a turn, and the
    entries for a list of turns: the turns whose text is not blank. *)
Definition content_of (turn : string * string) : Google.Content :=
  {| Google.content_role := if String.eqb (fst turn) "user" then "user" else "model";
     Google.part_text := snd turn |}.

Definition contents_of (turns : list (string * string)) : list Google.Content :=
  map content_of (List.filter (fun turn => truthy_string (trim (snd turn))) turns).

(** The message the Google adapter gives to an unsupported model. *)
Definition not_supported (model : string) : string :=
  "Model " +:+ model +:+ " not supported by Google".

(** The address and the body of the request the Google adapter's stream
    sends for a list of turns. *)
Definition google_url (this : Google.GoogleProvider) (model : string) : string :=
  default "undefined" (Google.endpoint <$> Google.availableModels this !! model)
  +:+ "?key=" +:+ default "" (Google.key this).

Definition google_body (options : option LLMOptions) (turns : list (string * string))
  : Google.RequestBody :=
  {| Google.contents := contents_of turns;
     Google.maxOutputTokens :=
       or_number (options ≫= opt_maxTokens) Google.DEFAULT_MAX_TOKENS |}.

(** A piece of text that is white space only, or free of white space. *)
Definition unmixed (piece : string) : Prop :=
  all_chars is_space piece = true
  \/ all_chars (fun c => negb (is_space c)) piece = true.



(** ** Sample inputs for the adapters *)

(** A dialogue of three turns, one of them blank. *)
Definition sample_turns : list (string * string) :=
  [("user", "Hi"); ("assistant", "  "); ("system", "Be brief")].

(** Options with a system message. *)
Definition system_options : LLMOptions :=
  {| opt_model := None; opt_maxTokens := Some 0; opt_systemMessage := Some "Answer in French" |}.

(** A stream of the OpenAI backend that gives three chunks, the second
    with an empty content, and then fails with HTTP 429. *)
Definition throttled_stream (request : OpenAI.ChatRequest)
  : Outcome OpenAI.BackendStream :=
  Returns {| OpenAI.deltas :=
               [{| OpenAI.delta_content := Some "Bon";
                   OpenAI.delta_finish_reason := None |};
                {| OpenAI.delta_content := Some "";
                   OpenAI.delta_finish_reason := None |};
                {| OpenAI.delta_content := Some "jour";
                   OpenAI.delta_finish_reason := None |}];
             OpenAI.ended := Throws (APIError (Some 429) "Too Many Requests") |}.

(** An embedding backend that gives two vectors. *)
Definition two_vectors (model content : string) : Outcome (option (list (list Z))) :=
  Returns (Some [[1; 2]; [3; 4]]).

(** * Properties *)

(** ** String functions *)

Lemma append_cons (c : ascii) (s t : string) : String c s +:+ t = String c (s +:+ t).
Proof. reflexivity. Qed.

Lemma append_nil_l (s : string) : "" +:+ s = s.
Proof. reflexivity. Qed.

Lemma append_nil_r (s : string) : s +:+ "" = s.
Proof.
  induction s as [|c s IH]; [reflexivity|].
  now rewrite append_cons, IH.
Qed.

Lemma append_assoc (a b c : string) : (a +:+ b) +:+ c = a +:+ (b +:+ c).
Proof.
  induction a as [|x a IH]; [reflexivity|].
  now rewrite !append_cons, IH.
Qed.

Ltac normalize_append :=
  repeat first [rewrite append_cons | rewrite append_nil_l | rewrite append_assoc].

Lemma concat_app (l1 l2 : list string) :
  Js.concat (l1 ++ l2) = Js.concat l1 +:+ Js.concat l2.
Proof.
  induction l1 as [|s l1 IH]; simpl; [reflexivity|].
  now rewrite IH, append_assoc.
Qed.

(** The pieces of [split_go], joined again, are what was collected so far
    followed by what was still to be read. *)
Lemma concat_split_go (s : string) :
  forall inws cur, Js.concat (split_go inws cur s) = cur +:+ s.
Proof.
  induction s as [|c s IH]; intros inws cur; simpl.
  - destruct inws; simpl; now rewrite ?append_nil_r.
  - destruct (Bool.eqb (is_space c) inws).
    + rewrite IH, append_assoc. reflexivity.
    + simpl. rewrite IH. reflexivity.
Qed.

Lemma concat_split_whitespace (s : string) :
  Js.concat (split_whitespace s) = s.
Proof. unfold split_whitespace. now rewrite concat_split_go. Qed.

Example split_leading_space : split_whitespace " a" = [""; " "; "a"].
Proof. reflexivity. Qed.

Example split_trailing_space : split_whitespace "a  b " = ["a"; "  "; "b"; " "; ""].
Proof. reflexivity. Qed.

Example trim_both_ends : trim "  a b  " = "a b".
Proof. reflexivity. Qed.

(** ** Error normalization *)

Section ErrorNormalization.

(** The OpenAI adapter's handler turns whatever it catches into one of the
    three provider errors, tagged [OpenAI]. *)
Lemma openai_handleError_normalizes (A : Type) (error : Thrown) :
  exists e, @OpenAI.handleError A error = Throws e
            /\ is_provider_error "OpenAI" e = true.
Proof.
  destruct error; simpl; try (eexists; split; [reflexivity | reflexivity]).
  repeat case_bool_decide; eexists; split; reflexivity.
Qed.

Lemma openai_handleError_401 (A : Type) (msg : string) :
  @OpenAI.handleError A (APIError (Some 401) msg)
  = Throws (AuthenticationError "Authentication failed with OpenAI" "OpenAI").
Proof. reflexivity. Qed.


Lemma anthropic_handleError_nullish (A : Type) :
  @Anthropic.handleError A (NotAnError JNull)
  = Throws (TypeError "Cannot read properties of null (reading 'status')")
  /\ @Anthropic.handleError A (NotAnError JUndefined)
     = Throws (TypeError "Cannot read properties of undefined (reading 'status')").
Proof. split; reflexivity. Qed.

(** Every chat completion of the OpenAI adapter that fails, fails with a
    provider error. *)
Lemma openai_chat_failure_normalized create messages options e :
  OpenAI.generateChatCompletion create messages options = Throws e ->
  is_provider_error "OpenAI" e = true.
Proof.
  unfold OpenAI.generateChatCompletion, try_catch.
  match goal with |- context [match ?b with Returns _ => _ | Throws _ => _ end] =>
    destruct b as [r|err] end.
  - discriminate.
  - intros H. destruct (openai_handleError_normalizes ChatCompletionResponse err)
      as (e' & He' & Hp). congruence.
Qed.

(** The Google adapter's handler classifies by message text; an error
    whose message has none of the five marker texts leaves it as a plain
    [Error]. *)
Lemma google_handleError_fallthrough (A : Type) (msg : string) :
  includes msg "API key" = false ->
  includes msg "quota" = false ->
  includes msg "rate limit" = false ->
  includes msg "not supported" = false ->
  includes msg "invalid" = false ->
  @Google.handleError A (Error msg)
  = Throws (Error ("Google provider error: " +:+ toString (Error msg))).
Proof.
  intros H1 H2 H3 H4 H5. unfold Google.handleError. simpl.
  now rewrite H1, H2, H3, H4, H5.
Qed.

(** C1, at the failing input: when the backend answers the Google
    adapter's streaming request with HTTP 401 and a body that is not JSON,
    the stream yields no chunk and ends by throwing a plain [Error] whose
    message is [Google provider error: Error: HTTP error! status: 401,
    details: null]; this is none of the three provider errors. *)
Theorem google_stream_401_not_normalized :
  let s := Google.streamChatCompletion "gemini-pro" sample_google fetch_401
             [text_message "user" "Hi"] None in
  chunks s = []
  /\ finished s
     = Throws (Error "Google provider error: Error: HTTP error! status: 401, details: null")
  /\ forall e, finished s = Throws e -> is_provider_error "Google" e = false.
Proof.
  assert (H : finished (Google.streamChatCompletion "gemini-pro" sample_google fetch_401
                          [text_message "user" "Hi"] None)
              = Throws (Error ("Google provider error: "
                               +:+ "Error: HTTP error! status: 401, details: null")))
    by (vm_compute; reflexivity).
  cbv zeta. split; [vm_compute; reflexivity|]. split; [exact H|].
  intros e He. rewrite H in He. injection He as <-. reflexivity.
Qed.

(** The non-streaming call has the same fall-through: a network failure of
    the SDK call leaves the adapter as a plain [Error]. *)
Example google_chat_network_error_not_normalized :
  Google.generateChatCompletion "gemini-pro" sample_google generate_fails
    [text_message "user" "Hi"] None
  = Throws (Error "Google provider error: Error: fetch failed").
Proof. vm_compute. reflexivity. Qed.

(** An unsupported model and a missing key are classified, by the marker
    texts of their own messages. *)
Example google_chat_unsupported_model :
  Google.generateChatCompletion "gemini-pro" sample_google generate_hello
    [text_message "user" "Hi"]
    (Some {| opt_model := Some "gpt-4"; opt_maxTokens := None;
             opt_systemMessage := None |})
  = Throws (InvalidRequestError "Model gpt-4 not supported by Google" "Google").
Proof. vm_compute. reflexivity. Qed.

End ErrorNormalization.

(** ** Construction without a credential *)

Section Construction.

(** C8, at the failing input: with [OPENAI_API_KEY] absent from the
    environment the OpenAI adapter's constructor throws a plain [Error],
    not an [AuthenticationError]. *)
Theorem openai_constructor_missing_key (env : gmap string string) :
  env !! "OPENAI_API_KEY" = None ->
  OpenAI.constructor env
  = Throws (Error "OpenAI API key not found in environment variables").
Proof. intros H. unfold OpenAI.constructor. now rewrite H. Qed.

Lemma openai_constructor_missing_key_witness :
  (∅ : gmap string string) !! "OPENAI_API_KEY" = None
  /\ OpenAI.constructor ∅
     = Throws (Error "OpenAI API key not found in environment variables").
Proof.
  split; [reflexivity | apply openai_constructor_missing_key; reflexivity].
Defined.

(** The Google adapter's constructor, in the same situation, throws the
    [AuthenticationError]. *)
Lemma google_constructor_missing_key models (env : gmap string string) :
  env !! "GOOGLE_API_KEY" = None ->
  Google.constructor models None env
  = Throws (AuthenticationError "Google API key GOOGLE_API_KEY is required" "Google").
Proof. intros H. unfold Google.constructor. now rewrite H. Qed.

(** With a key, given or in the environment, it constructs the adapter. *)
Lemma google_constructor_with_key models k (env : gmap string string) :
  k <> "" ->
  Google.constructor models (Some k) env
  = Returns {| Google.key := Some k; Google.availableModels := models |}.
Proof. intros H. unfold Google.constructor. destruct k; [congruence | reflexivity]. Qed.

End Construction.

(** ** Message formatting of the OpenAI adapter *)

Section Formatting.

Lemma openai_format_data_message role s :
  OpenAI.formatMessage (data_message role s)
  = Returns {| OpenAI.wire_role := JString role;
               OpenAI.wire_content := JString s |}.
Proof. destruct s; reflexivity. Qed.

Lemma openai_format_text_message role s :
  OpenAI.formatMessage (text_message role s)
  = Throws (TypeError "Cannot read properties of undefined (reading 'text')").
Proof. reflexivity. Qed.

(** C10, at the failing input: for a message of the documented shape
    [{role, content: {type: "text", text: s}}] the OpenAI adapter's
    [formatMessages] reads [content.data.text], where [content.data] is
    [undefined], and throws a [TypeError]; [generateChatCompletion] turns
    it into an [InvalidRequestError] before any request is sent. *)
Theorem openai_format_documented_message_throws
    (role s : string) (rest : list JsValue)
    (create : OpenAI.ChatRequest -> Outcome OpenAI.ChatCompletion)
    (options : LLMOptions) :
  OpenAI.formatMessages (text_message role s :: rest)
  = Throws (TypeError "Cannot read properties of undefined (reading 'text')")
  /\ OpenAI.generateChatCompletion create (text_message role s :: rest) options
     = Throws (InvalidRequestError
                 "Unexpected error: Cannot read properties of undefined (reading 'text')"
                 "OpenAI").
Proof.
  split; [reflexivity|].
  unfold OpenAI.generateChatCompletion, OpenAI.withSystemMessage.
  destruct (opt_systemMessage options) as [sys|]; [|reflexivity].
  destruct (truthy_string sys && (0 <? String.length sys)%nat); [|reflexivity].
  change (OpenAI.formatMessages (OpenAI.createSystemMessage sys :: text_message role s :: rest))
    with (Js.bind (OpenAI.formatMessage (OpenAI.createSystemMessage sys))
            (fun m => Js.bind (OpenAI.formatMessages (text_message role s :: rest))
                        (fun ms => Returns (m :: ms)))).
  change (OpenAI.createSystemMessage sys) with (data_message "system" sys).
  rewrite openai_format_data_message. reflexivity.
Qed.

End Formatting.

(** ** The chat completion response *)

Section ChatCompletion.

Lemma or_default_nonempty (a : option string) (d : string) :
  d <> "" -> or_default a d <> "".
Proof.
  intros Hd. destruct a as [[|c s]|]; simpl; [exact Hd | discriminate | exact Hd].
Qed.

(** C5 as stated fails for the Google adapter: its response to a valid
    request has no usage counters at all ([usage] is [undefined]). *)
Lemma google_response_without_usage :
  exists r,
    Google.generateChatCompletion "gemini-pro" sample_google generate_hello
      [text_message "user" "Hi"] None = Returns r
    /\ model r <> ""
    /\ ~ usage_counters_nonneg r.
Proof.
  eexists. split; [vm_compute; reflexivity|]. split; [discriminate|].
  intros (u & Hu & _). discriminate Hu.
Qed.

(** C5, amended: when the backend call returns, the OpenAI adapter's
    response has a non-empty model and usage counters that are the
    backend's counts, or zero where the backend reports no usage, so they
    are non-negative when the backend's counts are; the Google adapter's
    response has a non-empty model, given a non-empty default model, and no
    usage record. *)
Theorem chat_completion_model_and_usage
    (create : OpenAI.ChatRequest -> Outcome OpenAI.ChatCompletion)
    (messages : list JsValue) (options : LLMOptions)
    (wire : list OpenAI.WireMessage) (completion : OpenAI.ChatCompletion)
    (default_model : string) (this : Google.GoogleProvider)
    (generateContent : string -> string -> Outcome string)
    (gmessages : list JsValue) (goptions : option LLMOptions)
    (prompt text : string) :
  OpenAI.formatMessages (OpenAI.withSystemMessage options messages) = Returns wire ->
  create {| OpenAI.req_model := or_default (opt_model options) OpenAI.DEFAULT_MODEL;
            OpenAI.req_messages := wire;
            OpenAI.req_max_tokens :=
              or_number (opt_maxTokens options) OpenAI.DEFAULT_MAX_TOKENS |}
  = Returns completion ->
  (forall u, OpenAI.completion_usage completion = Some u ->
             0 <= OpenAI.prompt_tokens u /\ 0 <= OpenAI.completion_tokens u
             /\ 0 <= OpenAI.total_tokens u) ->
  default_model <> "" ->
  Google.supported this (or_default (goptions ≫= opt_model) default_model) = true ->
  Google.convertMessagesToPrompt gmessages = Returns prompt ->
  generateContent (or_default (goptions ≫= opt_model) default_model) prompt
  = Returns text ->
  (exists r, OpenAI.generateChatCompletion create messages options = Returns r
             /\ model r <> ""
             /\ usage_counters_nonneg r
             /\ (forall u,
                   OpenAI.completion_usage completion = Some u ->
                   usage r = Some {| promptTokens := OpenAI.prompt_tokens u;
                                     completionTokens := OpenAI.completion_tokens u;
                                     totalTokens := OpenAI.total_tokens u |})
             /\ (OpenAI.completion_usage completion = None ->
                 usage r = Some {| promptTokens := 0; completionTokens := 0;
                                   totalTokens := 0 |}))
  /\ (exists r, Google.generateChatCompletion default_model this generateContent
                  gmessages goptions = Returns r
                /\ model r <> ""
                /\ usage r = None).
Proof.
  intros Hfmt Hcreate Hnonneg Hdef Hsup Hprompt Hgen. split.
  - unfold OpenAI.generateChatCompletion. rewrite Hfmt. cbn [Js.bind].
    rewrite Hcreate. cbn [Js.bind try_catch].
    eexists. split; [reflexivity|]. cbn [model usage]. split.
    { apply or_default_nonempty. discriminate. }
    split; [|split].
    + eexists. split; [reflexivity|]. cbn.
      destruct (OpenAI.completion_usage completion) as [u|]; cbn; [|lia].
      apply Hnonneg. reflexivity.
    + intros u ->. reflexivity.
    + intros ->. reflexivity.
  - unfold Google.generateChatCompletion. rewrite Hsup. cbn [negb].
    rewrite Hprompt. cbn [Js.bind]. rewrite Hgen. cbn [Js.bind try_catch].
    eexists. split; [reflexivity|]. cbn [model usage]. split; [|reflexivity].
    now apply or_default_nonempty.
Qed.

Lemma chat_completion_model_and_usage_witness :
  (exists r, OpenAI.generateChatCompletion create_with_usage
               [data_message "user" "Capital of France?"] no_options = Returns r
             /\ model r <> ""
             /\ usage r = Some {| promptTokens := 12; completionTokens := 3;
                                  totalTokens := 15 |})
  /\ (exists r, OpenAI.generateChatCompletion create_no_usage
                  [data_message "user" "Capital of France?"] no_options = Returns r
                /\ model r <> ""
                /\ usage r = Some {| promptTokens := 0; completionTokens := 0;
                                     totalTokens := 0 |})
  /\ (exists r, Google.generateChatCompletion "gemini-pro" sample_google generate_hello
                  [text_message "user" "Hi"] None = Returns r
                /\ model r <> ""
                /\ usage r = None).
Proof.
  destruct (chat_completion_model_and_usage create_with_usage
              [data_message "user" "Capital of France?"] no_options
              [{| OpenAI.wire_role := JString "user";
                  OpenAI.wire_content := JString "Capital of France?" |}]
              {| OpenAI.choices := [{| OpenAI.choice_content := Some "Paris";
                                       OpenAI.choice_finish_reason := Some "stop" |}];
                 OpenAI.completion_usage :=
                   Some {| OpenAI.prompt_tokens := 12; OpenAI.completion_tokens := 3;
                           OpenAI.total_tokens := 15 |} |}
              "gemini-pro" sample_google generate_hello
              [text_message "user" "Hi"] None "Hi" "Hello")
    as [(r & Hr & Hmodel & _ & Hcounts & _) Hgoogle].
  { reflexivity. }
  { reflexivity. }
  { intros u [= <-]. cbn. lia. }
  { discriminate. }
  { vm_compute. reflexivity. }
  { reflexivity. }
  { reflexivity. }
  destruct (chat_completion_model_and_usage create_no_usage
              [data_message "user" "Capital of France?"] no_options
              [{| OpenAI.wire_role := JString "user";
                  OpenAI.wire_content := JString "Capital of France?" |}]
              {| OpenAI.choices := [{| OpenAI.choice_content := Some "Paris";
                                       OpenAI.choice_finish_reason := Some "stop" |}];
                 OpenAI.completion_usage := None |}
              "gemini-pro" sample_google generate_hello
              [text_message "user" "Hi"] None "Hi" "Hello")
    as [(r0 & Hr0 & Hmodel0 & _ & _ & Hzero) _].
  { reflexivity. }
  { reflexivity. }
  { intros u Hu. discriminate Hu. }
  { discriminate. }
  { vm_compute. reflexivity. }
  { reflexivity. }
  { reflexivity. }
  split; [|split; [|exact Hgoogle]].
  - exists r. split; [exact Hr|]. split; [exact Hmodel|]. exact (Hcounts _ eq_refl).
  - exists r0. split; [exact Hr0|]. split; [exact Hmodel0|]. exact (Hzero eq_refl).
Defined.

End ChatCompletion.

(** ** Emulated streaming of the Google adapter *)

Section Streaming.

Lemma omap_chunk_text (m : string) (ws : list string) :
  omap chunk_text (map (Google.chunk m) ws) = ws.
Proof. induction ws as [|w ws IH]; csimpl; [reflexivity | now rewrite IH]. Qed.

(** The text fragments of the chunks made from [text] add up to [text]. *)
Lemma stream_text_of_chunks (m text reason : string) :
  Js.concat
    (omap chunk_text
       (map (Google.chunk m) (split_whitespace text)
        ++ [{| chunk_model := m; chunk_text := Some "";
               chunk_finishReason := Some reason |}])%list)
  = text.
Proof.
  rewrite omap_app, omap_chunk_text. simpl.
  rewrite concat_app, concat_split_whitespace. simpl. apply append_nil_r.
Qed.




Example google_stream_chunks :
  omap chunk_text
    (chunks (Google.streamChatCompletion "gemini-pro" sample_google fetch_hello
               [text_message "user" "Hi"] None))
  = ["Hello"; "  "; "there"; ""].
Proof. vm_compute. reflexivity. Qed.

End Streaming.

(** ** Output variables *)

Section OutputVariables.

Lemma prefix_split (p s : string) :
  String.prefix p s = true -> exists rest, s = p +:+ rest.
Proof.
  revert s. induction p as [|c p IH]; intros s H.
  - exists s. reflexivity.
  - destruct s as [|d s]; [discriminate|]. simpl in H.
    destruct (Ascii.ascii_dec c d) as [->|]; [|discriminate].
    destruct (IH s H) as [rest ->]. exists rest. reflexivity.
Qed.

Lemma take_word_split (s : string) :
  s = fst (Google.take_word s) +:+ snd (Google.take_word s).
Proof.
  induction s as [|c s IH]; [reflexivity|]. simpl.
  destruct (is_word c); [|reflexivity].
  destruct (Google.take_word s) as [w r]. simpl in *.
  now rewrite append_cons, <- IH.
Qed.

Lemma find_close_unfold (closing s : string) :
  Google.find_close closing s
  = if String.prefix closing s then Some ""
    else match s with
         | "" => None
         | String c s' => String c <$> Google.find_close closing s'
         end.
Proof. destruct s; reflexivity. Qed.

Lemma find_close_split (closing s value : string) :
  Google.find_close closing s = Some value ->
  exists rest, s = value +:+ closing +:+ rest.
Proof.
  revert value. induction s as [|c s IH]; intros value H;
    rewrite find_close_unfold in H;
    match type of H with (if ?b then _ else _) = _ => destruct b eqn:Hp end.
  - injection H as <-. apply prefix_split in Hp. exact Hp.
  - discriminate H.
  - injection H as <-. apply prefix_split in Hp. exact Hp.
  - destruct (Google.find_close closing s) as [v|]; [|discriminate H].
    injection H as <-. destruct (IH v eq_refl) as [rest ->].
    exists rest. reflexivity.
Qed.

(** A match of the tag pattern at the start of [s] is an element
    [<tag>value</tag>] that [s] starts with. *)
Lemma match_tag_sound (s tag value : string) (len : nat) :
  Google.match_tag s = Some (tag, value, len) ->
  exists rest, s = element tag value +:+ rest.
Proof.
  unfold Google.match_tag. destruct s as [|c s1]; [discriminate|].
  destruct (Ascii.ascii_dec c "<") as [->|Hc].
  2:{ intros H. exfalso.
      destruct c as [[] [] [] [] [] [] [] []]; try discriminate H. now apply Hc. }
  pose proof (take_word_split s1) as Hs1.
  destruct (Google.take_word s1) as [w s2]. simpl in Hs1.
  destruct (truthy_string w); [|discriminate].
  destruct s2 as [|d s3]; [discriminate|].
  destruct (Ascii.ascii_dec d ">") as [->|Hd].
  2:{ intros H. exfalso.
      destruct d as [[] [] [] [] [] [] [] []]; try discriminate H. now apply Hd. }
  destruct (Google.find_close ("</" +:+ w +:+ ">") s3) as [v|] eqn:Hclose; [|discriminate].
  intros H. injection H as <- <- _.
  apply find_close_split in Hclose. destruct Hclose as [rest ->].
  exists rest. rewrite Hs1. unfold element. now normalize_append.
Qed.

(** Every match of the scan is an element of the text. *)
Lemma exec_all_sound (tag value : string) (s : string) :
  forall skip, (tag, value) ∈ Google.exec_all skip s ->
               exists before after, s = before +:+ element tag value +:+ after.
Proof.
  induction s as [|c s IH]; intros skip Hin.
  - simpl in Hin. now apply elem_of_nil in Hin.
  - assert (Hlater : forall k, (tag, value) ∈ Google.exec_all k s ->
                     exists before after,
                       String c s = before +:+ element tag value +:+ after).
    { intros k Hk. destruct (IH k Hk) as (before & after & ->).
      exists (String c before), after. reflexivity. }
    cbn [Google.exec_all] in Hin. destruct skip as [|k]; [|now apply (Hlater k)].
    destruct (Google.match_tag (String c s)) as [[[tg v] len]|] eqn:Hm;
      [|now apply (Hlater 0%nat)].
    apply elem_of_cons in Hin. destruct Hin as [Heq|Hin]; [|now apply (Hlater (Nat.pred len))].
    injection Heq as <- <-. apply match_tag_sound in Hm. destruct Hm as [rest Hrest].
    exists "", rest. rewrite append_nil_l. exact Hrest.
Qed.

Lemma last_value_elem (tag value : string) (matches : list (string * string)) :
  last_value tag matches = Some value -> (tag, value) ∈ matches.
Proof.
  induction matches as [|[k v] rest IH]; [discriminate|]. simpl.
  destruct (last_value tag rest) as [v'|].
  - intros [= <-]. apply elem_of_cons. right. now apply IH.
  - destruct (String.eqb k tag) eqn:Hk; [|discriminate].
    intros [= <-]. apply String.eqb_eq in Hk as ->. apply elem_of_cons. now left.
Qed.

(** Assigning the matches in order leaves, under each tag, the trimmed
    value of its last match. *)
Lemma fold_assign_lookup (tag : string) (matches : list (string * string)) :
  tag <> "__proto__" ->
  forall acc : gmap string string,
    fold_left (fun vars m => Google.assign (fst m) (trim (snd m)) vars) matches acc !! tag
    = match last_value tag matches with
      | Some v => Some (trim v)
      | None => acc !! tag
      end.
Proof.
  intros Hproto. induction matches as [|[k v] rest IH]; intros acc; [reflexivity|].
  cbn [fold_left last_value fst snd]. rewrite IH.
  destruct (last_value tag rest) as [v'|]; [reflexivity|].
  unfold Google.assign. destruct (String.eqb k tag) eqn:Hk.
  - apply String.eqb_eq in Hk as ->. rewrite bool_decide_eq_false_2 by exact Hproto.
    apply lookup_insert_eq.
  - apply String.eqb_neq in Hk. case_bool_decide; [reflexivity|].
    now apply lookup_insert_ne.
Qed.

Lemma all_chars_app (test : ascii -> bool) (a b : string) :
  all_chars test (a +:+ b) = all_chars test a && all_chars test b.
Proof.
  induction a as [|c a IH]; [reflexivity|].
  rewrite append_cons. cbn [all_chars]. rewrite IH. apply andb_assoc.
Qed.

Lemma includes_unfold (hay needle : string) :
  includes hay needle
  = String.prefix needle hay
    || match hay with
       | "" => false
       | String _ hay' => includes hay' needle
       end.
Proof. destruct hay; reflexivity. Qed.

Lemma prefix_cons (a b : ascii) (s1 s2 : string) :
  String.prefix (String a s1) (String b s2)
  = if Ascii.ascii_dec a b then String.prefix s1 s2 else false.
Proof. reflexivity. Qed.

Lemma prefix_self (p s : string) : String.prefix p (p +:+ s) = true.
Proof.
  induction p as [|c p IH]; [rewrite append_nil_l; now destruct s|].
  rewrite append_cons, prefix_cons. destruct (Ascii.ascii_dec c c); [exact IH | congruence].
Qed.

Lemma match_tag_other (c : ascii) (s : string) :
  Ascii.eqb c "<" = false -> Google.match_tag (String c s) = None.
Proof.
  intros Hc. unfold Google.match_tag.
  destruct c as [[] [] [] [] [] [] [] []]; try reflexivity. discriminate Hc.
Qed.

Lemma exec_all_skip (a s : string) :
  Google.exec_all (String.length a) (a +:+ s) = Google.exec_all 0 s.
Proof.
  induction a as [|c a IH]; [now rewrite append_nil_l|].
  rewrite append_cons. cbn [String.length Google.exec_all]. exact IH.
Qed.

Lemma take_word_exact (w r : string) (c : ascii) :
  all_chars is_word w = true -> is_word c = false ->
  Google.take_word (w +:+ String c r) = (w, String c r).
Proof.
  intros Hw Hc. induction w as [|d w IH].
  - rewrite append_nil_l. cbn [Google.take_word]. now rewrite Hc.
  - cbn [all_chars] in Hw. apply andb_true_iff in Hw as [Hd Hw].
    rewrite append_cons. cbn [Google.take_word]. rewrite Hd, (IH Hw). reflexivity.
Qed.

Lemma prefix_no_straddle (tail w x : string) :
  plain tail = true ->
  String.prefix tail (w +:+ String "<" x) = true -> String.prefix tail w = true.
Proof.
  unfold plain. revert w. induction tail as [|d t IH]; intros w Hplain H.
  - now destruct w.
  - cbn [all_chars] in Hplain. apply andb_true_iff in Hplain as [Hd Hplain].
    apply negb_true_iff in Hd.
    destruct w as [|e w].
    + rewrite append_nil_l, prefix_cons in H.
      destruct (Ascii.ascii_dec d "<") as [->|]; [vm_compute in Hd; discriminate Hd | discriminate H].
    + rewrite append_cons, prefix_cons in H. rewrite prefix_cons.
      destruct (Ascii.ascii_dec d e); [|discriminate]. now apply IH.
Qed.

Lemma word_plain (w : string) : all_chars is_word w = true -> plain w = true.
Proof.
  unfold plain. induction w as [|c w IH]; [reflexivity|]. cbn [all_chars].
  intros H. apply andb_true_iff in H as [Hc Hw]. rewrite (IH Hw), andb_true_r.
  destruct (Ascii.eqb c "<") eqn:Heq; [|reflexivity].
  apply Ascii.eqb_eq in Heq as ->. vm_compute in Hc. discriminate Hc.
Qed.

Lemma find_close_tail (tail value s : string) :
  plain tail = true ->
  includes value (String "<" tail) = false ->
  Google.find_close (String "<" tail) (value +:+ String "<" (tail +:+ s)) = Some value.
Proof.
  intros Hplain. induction value as [|c v IH]; intros Hincl.
  - rewrite append_nil_l, find_close_unfold, prefix_cons.
    destruct (Ascii.ascii_dec "<" "<"); [|congruence]. now rewrite prefix_self.
  - rewrite includes_unfold in Hincl. apply orb_false_iff in Hincl as [Hpre Hrest].
    rewrite append_cons, find_close_unfold.
    destruct (String.prefix (String "<" tail) (String c (v +:+ String "<" (tail +:+ s))))
      eqn:Hp.
    + exfalso. rewrite prefix_cons in Hp, Hpre.
      destruct (Ascii.ascii_dec "<" c); [|discriminate Hp].
      apply prefix_no_straddle in Hp; [|exact Hplain]. congruence.
    + rewrite (IH Hrest). reflexivity.
Qed.

Lemma length_append (a b : string) :
  String.length (a +:+ b) = (String.length a + String.length b)%nat.
Proof.
  induction a as [|c a IH]; [reflexivity|].
  rewrite append_cons. cbn [String.length]. now rewrite IH.
Qed.

Lemma match_tag_unfold (s1 : string) :
  Google.match_tag (String "<" s1)
  = let '(tag, s2) := Google.take_word s1 in
    if truthy_string tag
    then match s2 with
         | String ">"%char s3 =>
             let closing := "</" +:+ tag +:+ ">" in
             match Google.find_close closing s3 with
             | Some value =>
                 Some (tag, value,
                       (2 + String.length tag + String.length value
                        + String.length closing)%nat)
             | None => None
             end
         | _ => None
         end
    else None.
Proof. reflexivity. Qed.

Lemma take_word_opens (s x : string) :
  x = "" \/ (exists x', x = String "<" x') ->
  forall seen,
    opens_after seen s = false ->
    (seen || truthy_string (fst (Google.take_word (s +:+ x))))
    && starts_gt (snd (Google.take_word (s +:+ x))) = false.
Proof.
  intros Hx. induction s as [|c s IH]; intros seen Hopens.
  - rewrite append_nil_l. destruct Hx as [->|[x' ->]]; cbn; apply andb_false_r.
  - rewrite append_cons. cbn [Google.take_word opens_after] in *.
    destruct (is_word c).
    + specialize (IH true Hopens). destruct (Google.take_word (s +:+ x)) as [w r].
      cbn [fst snd orb truthy_string] in *. now rewrite orb_true_r.
    + cbn [fst snd truthy_string starts_gt]. now rewrite orb_false_r.
Qed.

Lemma match_tag_no_opening (s x : string) :
  x = "" \/ (exists x', x = String "<" x') ->
  opens_after false s = false ->
  Google.match_tag (String "<" (s +:+ x)) = None.
Proof.
  intros Hx Hopens. pose proof (take_word_opens s x Hx false Hopens) as H.
  rewrite match_tag_unfold. destruct (Google.take_word (s +:+ x)) as [w r].
  cbn [fst snd orb] in H. destruct (truthy_string w); [|reflexivity].
  cbn [andb] in H. destruct r as [|c r]; [reflexivity|]. cbn [starts_gt] in H.
  destruct c as [[] [] [] [] [] [] [] []]; try reflexivity. discriminate H.
Qed.

Lemma exec_all_tagless (p x : string) :
  x = "" \/ (exists x', x = String "<" x') ->
  tagless p = true -> Google.exec_all 0 (p +:+ x) = Google.exec_all 0 x.
Proof.
  intros Hx. induction p as [|c p IH]; intros Hp; [now rewrite append_nil_l|].
  cbn [tagless] in Hp. apply andb_true_iff in Hp as [Hc Hp].
  apply negb_true_iff in Hc.
  rewrite append_cons. cbn [Google.exec_all].
  assert (Hnone : Google.match_tag (String c (p +:+ x)) = None).
  { destruct (Ascii.eqb c "<") eqn:Heq.
    - apply Ascii.eqb_eq in Heq as ->. cbn [andb] in Hc.
      now apply match_tag_no_opening.
    - now apply match_tag_other. }
  rewrite Hnone. now apply IH.
Qed.

Lemma element_starts (tag value rest : string) :
  exists x, element tag value +:+ rest = String "<" x.
Proof. unfold element. eexists. normalize_append. reflexivity. Qed.

Lemma exec_all_element (tag value rest : string) :
  truthy_string tag = true ->
  all_chars is_word tag = true ->
  includes value ("</" +:+ tag +:+ ">") = false ->
  Google.exec_all 0 (element tag value +:+ rest) = (tag, value) :: Google.exec_all 0 rest.
Proof.
  intros Htruthy Hword Hincl.
  pose (tail := "/" +:+ tag +:+ ">").
  assert (Hplain : plain tail = true).
  { unfold tail, plain. rewrite !all_chars_app. fold (plain tag).
    rewrite (word_plain tag Hword). reflexivity. }
  assert (Hform : element tag value +:+ rest
                  = String "<" ((tag +:+ String ">" (value +:+ String "<" tail)) +:+ rest)).
  { unfold element, tail. now normalize_append. }
  assert (Hinner : (tag +:+ String ">" (value +:+ String "<" tail)) +:+ rest
                   = tag +:+ String ">" (value +:+ String "<" (tail +:+ rest))).
  { now normalize_append. }
  assert (Hmatch : Google.match_tag
                     (String "<" ((tag +:+ String ">" (value +:+ String "<" tail)) +:+ rest))
                   = Some (tag, value,
                           S (String.length (tag +:+ String ">" (value +:+ String "<" tail))))).
  { rewrite Hinner, match_tag_unfold, (take_word_exact tag _ ">" Hword eq_refl), Htruthy.
    cbv beta iota zeta.
    change ("</" +:+ tag +:+ ">") with (String "<" tail) in Hincl |- *.
    rewrite (find_close_tail tail value rest Hplain Hincl).
    do 2 f_equal. rewrite !length_append. cbn [String.length]. rewrite length_append.
    cbn [String.length]. lia. }
  rewrite Hform. cbn [Google.exec_all]. rewrite Hmatch. cbn [Nat.pred].
  f_equal. apply exec_all_skip.
Qed.

Lemma exec_all_markup (items : list (string * string * string)) (rest : string) :
  forallb flat items = true ->
  tagless rest = true ->
  Google.exec_all 0 (markup items rest) = elements items.
Proof.
  intros Hflat Hrest. induction items as [|[[before tag] value] items IH].
  - cbn [markup elements map]. rewrite <- (append_nil_r rest).
    rewrite (exec_all_tagless rest "" (or_introl eq_refl) Hrest). reflexivity.
  - cbn [forallb] in Hflat. apply andb_true_iff in Hflat as [Hitem Hflat].
    unfold flat in Hitem.
    apply andb_true_iff in Hitem as [Hitem Hvalue]. apply negb_true_iff in Hvalue.
    apply andb_true_iff in Hitem as [Hitem Hword].
    apply andb_true_iff in Hitem as [Hbefore Htruthy].
    cbn [markup].
    rewrite (exec_all_tagless before _ (or_intror (element_starts tag value _)) Hbefore).
    rewrite (exec_all_element tag value _ Htruthy Hword Hvalue).
    rewrite (IH Hflat). reflexivity.
Qed.

Lemma fold_assign_proto (matches : list (string * string)) :
  forall acc : gmap string string,
    fold_left (fun vars m => Google.assign (fst m) (trim (snd m)) vars) matches acc
      !! "__proto__"
    = acc !! "__proto__".
Proof.
  induction matches as [|[k v] rest IH]; intros acc; [reflexivity|].
  cbn [fold_left fst snd]. rewrite IH. unfold Google.assign.
  case_bool_decide as Hk; [reflexivity|]. now apply lookup_insert_ne.
Qed.

Lemma trimStart_keeps (a b : string) (c : ascii) :
  is_space c = false -> trimStart (a +:+ String c b) <> "".
Proof.
  intros Hc. induction a as [|d a IH].
  - rewrite append_nil_l. cbn [trimStart]. rewrite Hc. discriminate.
  - rewrite append_cons. cbn [trimStart]. destruct (is_space d); [exact IH | discriminate].
Qed.

Lemma rev_empty (s : string) : Js.rev s = "" -> s = "".
Proof.
  destruct s as [|c s]; [reflexivity|]. cbn [Js.rev].
  destruct (Js.rev s); discriminate.
Qed.

Lemma trimStart_spaces (s : string) : trimStart s = "" -> all_chars is_space s = true.
Proof.
  induction s as [|c s IH]; [reflexivity|]. cbn [trimStart all_chars].
  destruct (is_space c); [exact IH | discriminate].
Qed.

(** A text whose [trim] is empty is white space only. *)
Lemma trim_empty_spaces (s : string) : trim s = "" -> all_chars is_space s = true.
Proof.
  unfold trim, trimEnd. intros H. apply rev_empty in H.
  apply trimStart_spaces.
  destruct (trimStart s) as [|c t] eqn:Ht; [reflexivity|]. exfalso.
  assert (Hc : is_space c = false).
  { destruct s as [|d s]; [discriminate|]. revert Ht.
    induction (String d s) as [|e u IHu]; [discriminate|]. cbn [trimStart].
    destruct (is_space e) eqn:He; [exact IHu|]. intros [= <- <-]. exact He. }
  cbn [Js.rev] in H. exact (trimStart_keeps _ "" c Hc H).
Qed.

Lemma exec_all_spaces (s : string) :
  all_chars is_space s = true -> forall skip, Google.exec_all skip s = [].
Proof.
  induction s as [|c s IH]; intros Hs skip; [reflexivity|].
  cbn [all_chars] in Hs. apply andb_true_iff in Hs as [Hc Hs].
  cbn [Google.exec_all]. destruct skip as [|k]; [|now apply IH].
  assert (Hm : Google.match_tag (String c s) = None).
  { unfold Google.match_tag.
    destruct c as [[] [] [] [] [] [] [] []]; try reflexivity. discriminate Hc. }
  rewrite Hm. now apply IH.
Qed.

Lemma extract_lookup_scan (text tag : string) :
  tag <> "qllm_response" ->
  tag <> "__proto__" ->
  Google.extractOutputVariables text !! tag
  = trim <$> last_value tag (Google.exec_all 0 text).
Proof.
  intros Hq Hproto. unfold Google.extractOutputVariables.
  destruct (truthy_string (trim text)).
  - rewrite lookup_insert_ne by congruence.
    rewrite fold_assign_lookup by exact Hproto.
    destruct (last_value tag (Google.exec_all 0 text)); [reflexivity | apply lookup_empty].
  - rewrite fold_assign_lookup by exact Hproto.
    destruct (last_value tag (Google.exec_all 0 text)); [reflexivity | apply lookup_empty].
Qed.

Lemma extract_proto (text : string) :
  Google.extractOutputVariables text !! "__proto__" = None.
Proof.
  unfold Google.extractOutputVariables. destruct (truthy_string (trim text)).
  - rewrite lookup_insert_ne by discriminate. rewrite fold_assign_proto. apply lookup_empty.
  - rewrite fold_assign_proto. apply lookup_empty.
Qed.

Lemma extract_response (text : string) :
  Google.extractOutputVariables text !! "qllm_response"
  = if decide (trim text = "") then None else Some (trim text).
Proof.
  unfold Google.extractOutputVariables.
  destruct (decide (trim text = "")) as [Hblank|Hne].
  - rewrite Hblank. cbn [truthy_string].
    rewrite (exec_all_spaces text (trim_empty_spaces text Hblank)). apply lookup_empty.
  - destruct (trim text) as [|c t]; [congruence|]. cbn [truthy_string].
    apply lookup_insert_eq.
Qed.

(** C9 as stated fails in five ways: a text of white space only extracts
    nothing, not even the [qllm_response] key; an element inside the value
    of another is not found; of two openings of a name before one closing
    tag the first wins, with the second in its value; an element named
    [qllm_response] loses its value to the whole text; and an element named
    [__proto__] leaves no key. *)
Lemma extract_misses_elements :
  Google.extractOutputVariables " " = ∅
  /\ Google.extractOutputVariables "<x><a>1</a></x>" !! "a" = None
  /\ Google.extractOutputVariables "<a>1<a>2</a>" !! "a" = Some "1<a>2"
  /\ Google.extractOutputVariables "<qllm_response>x</qllm_response>" !! "qllm_response"
     = Some "<qllm_response>x</qllm_response>"
  /\ Google.extractOutputVariables "<__proto__>x</__proto__>" !! "__proto__" = None.
Proof. repeat split; vm_compute; reflexivity. Qed.

(** A tag called [qllm_response] does not keep its own value. *)
Example extract_qllm_response_tag :
  Google.extractOutputVariables "<qllm_response>x</qllm_response>" !! "qllm_response"
  = Some "<qllm_response>x</qllm_response>".
Proof. vm_compute. reflexivity. Qed.

Example extract_last_match_example :
  Google.extractOutputVariables "<a> 1 </a><b>x</b><a>2</a>"
  = {[ "a" := "2"; "b" := "x"; "qllm_response" := "<a> 1 </a><b>x</b><a>2</a>" ]}.
Proof. vm_compute. reflexivity. Qed.

(** C9, amended: for a response text that is a flat markup, a sequence of
    elements [<name>value</name>] whose names are non-empty runs of
    letters, digits and underscores and whose values do not contain their
    own closing tag, with text in which no opening tag [<name>] starts
    before, between and after them, the extracted variables hold under every name other than
    [qllm_response] and [__proto__] the trimmed value of the last element of
    that name, and nothing under a name without element.  For every
    response text, the key [qllm_response] holds the full trimmed text when
    that is not empty and is absent otherwise, the key [__proto__] is never
    present, and every value under another key is the trimmed content of an
    element [<name>value</name>] of the text.  The text
    [<summary>ok</summary>] extracts exactly [summary] and
    [qllm_response]. *)
Theorem extract_last_match_wins
    (items : list (string * string * string)) (rest tag : string) :
  forallb flat items = true ->
  tagless rest = true ->
  tag <> "qllm_response" ->
  tag <> "__proto__" ->
  Google.extractOutputVariables (markup items rest) !! tag
  = trim <$> last_value tag (elements items)
  /\ (forall text,
        Google.extractOutputVariables text !! "qllm_response"
        = if decide (trim text = "") then None else Some (trim text))
  /\ (forall text, Google.extractOutputVariables text !! "__proto__" = None)
  /\ (forall text name value,
        name <> "qllm_response" ->
        Google.extractOutputVariables text !! name = Some value ->
        exists raw before after,
          value = trim raw /\ text = before +:+ element name raw +:+ after)
  /\ Google.extractOutputVariables "<summary>ok</summary>"
     = {[ "summary" := "ok"; "qllm_response" := "<summary>ok</summary>" ]}.
Proof.
  intros Hflat Hrest Hq Hproto.
  split.
  { rewrite (extract_lookup_scan _ tag Hq Hproto), (exec_all_markup items rest Hflat Hrest).
    reflexivity. }
  split; [exact extract_response|]. split; [exact extract_proto|]. split.
  - intros text name value Hname Hvalue.
    destruct (decide (name = "__proto__")) as [->|Hne].
    { rewrite extract_proto in Hvalue. discriminate Hvalue. }
    rewrite (extract_lookup_scan text name Hname Hne) in Hvalue.
    destruct (last_value name (Google.exec_all 0 text)) as [raw|] eqn:Hlast; [|discriminate].
    injection Hvalue as <-. apply last_value_elem in Hlast.
    apply exec_all_sound in Hlast. destruct Hlast as (before & after & ->).
    exists raw, before, after. split; reflexivity.
  - vm_compute. reflexivity.
Qed.

Lemma extract_last_match_wins_witness :
  Google.extractOutputVariables "<a> 1 </a>1 < 2 and <b>x</b><a>2</a>." !! "a" = Some "2"
  /\ Google.extractOutputVariables "<a> 1 </a>1 < 2 and <b>x</b><a>2</a>." !! "qllm_response"
     = Some "<a> 1 </a>1 < 2 and <b>x</b><a>2</a>.".
Proof.
  destruct (extract_last_match_wins
              [("", "a", " 1 "); ("1 < 2 and ", "b", "x"); ("", "a", "2")] "." "a"
              eq_refl eq_refl ltac:(discriminate) ltac:(discriminate))
    as (Hlast & Hresponse & _).
  split; [exact Hlast | exact (Hresponse "<a> 1 </a>1 < 2 and <b>x</b><a>2</a>.")].
Defined.

End OutputVariables.

(** ** The reducer: running it *)

Local Open Scope reducer_scope.

Section ReducerRuns.
Variable env : Env.
Variable JSON_parse : string -> Outcome Json.

Lemma fresh_lookup (h : gmap loc Obj) : h !! fresh (dom h) = None.
Proof. apply not_elem_of_dom. apply is_fresh. Qed.

Lemma fresh_ne (h : gmap loc Obj) (l : loc) (o : Obj) :
  h !! l = Some o -> fresh (dom h) <> l.
Proof. intros H Heq. rewrite <- Heq, fresh_lookup in H. discriminate. Qed.

Lemma with_entry_run (w : World) (state : loc) (m : gmap string loc)
    (cid : string) (l : loc) :
  heap w !! state = Some (OMap m) ->
  with_entry state cid l w
  = (Done (fresh (dom (heap w))),
     set_heap (<[fresh (dom (heap w)) := OMap (<[cid := l]> m)]> (heap w)) w).
Proof.
  intros Hstate.
  unfold with_entry, new_Map, map_set, and_then, read_map, alloc, store, ret, set_heap.
  rewrite Hstate. cbn [heap uuids_drawn clock_reads].
  rewrite lookup_insert_eq. cbn [heap uuids_drawn clock_reads].
  rewrite lookup_insert_eq, insert_insert_eq. reflexivity.
Qed.

Lemma replace_run (w : World) (state : loc) (m : gmap string loc)
    (cid : string) (c : Conversation) :
  heap w !! state = Some (OMap m) ->
  Reducer.replace state cid c w
  = (Done (fst (installed w m cid c)), set_heap (snd (installed w m cid c)) w).
Proof.
  intros Hstate. unfold Reducer.replace, and_then, alloc.
  rewrite (with_entry_run _ state m).
  - reflexivity.
  - cbn [set_heap heap]. rewrite lookup_insert_ne; [exact Hstate|].
    now apply (fresh_ne _ _ (OMap m)).
Qed.

(** What the reducer does for an action on an existing conversation. *)
Lemma reducer_on_existing (w : World) (state : loc) (m : gmap string loc)
    (action : ConversationAction) (cid : string) (l : loc) (c : Conversation) :
  target action = Some cid ->
  heap w !! state = Some (OMap m) ->
  m !! cid = Some l ->
  heap w !! l = Some (OConv c) ->
  conversationReducer env JSON_parse state action w
  = match updated env w action c with
    | Done c' =>
        (Done (fst (installed w m cid c')),
         set_heap (snd (installed w m cid c')) (advanced w action))
    | Raised e => (Raised e, w)
    | Wrong => (Wrong, w)
    end.
Proof.
  intros Htarget Hstate Hm Hl.
  destruct action; try discriminate Htarget; injection Htarget as ->;
    unfold conversationReducer, map_get, and_then, read_map, uuidv4, new_Date, read_conv, ret;
    cbn [heap uuids_drawn clock_reads]; rewrite Hstate, Hm;
    cbn [heap uuids_drawn clock_reads]; rewrite Hl; cbn [updated].
  - now rewrite (replace_run _ state m).
  - now rewrite (replace_run _ state m).
  - now rewrite (replace_run _ state m).
  - now rewrite (replace_run _ state m).
  - case_bool_decide; cbn [negb]; [|reflexivity].
    now rewrite (replace_run _ state m).
  - now rewrite (replace_run _ state m).
Qed.

(** What it does when the conversation is missing. *)
Lemma reducer_on_missing (w : World) (state : loc) (m : gmap string loc)
    (action : ConversationAction) (cid : string) :
  target action = Some cid ->
  heap w !! state = Some (OMap m) ->
  m !! cid = None ->
  conversationReducer env JSON_parse state action w
  = (Raised (ConversationNotFoundError cid), w).
Proof.
  intros Htarget Hstate Hm.
  destruct action; try discriminate Htarget; injection Htarget as ->;
    unfold conversationReducer, map_get, and_then, read_map, ret;
    rewrite Hstate, Hm; reflexivity.
Qed.

Lemma reducer_create (w : World) (state : loc) (m : gmap string loc)
    (payload : CreateConversationOptions) :
  heap w !! state = Some (OMap m) ->
  conversationReducer env JSON_parse state (CREATE_CONVERSATION payload) w
  = (Done (fst (installed w m (uuid_at env (uuids_drawn w)) (created env w payload))),
     set_heap (snd (installed w m (uuid_at env (uuids_drawn w)) (created env w payload)))
              (advanced_create w payload)).
Proof.
  intros Hstate.
  assert (Hne : fresh (dom (heap w)) <> state) by now apply (fresh_ne _ _ (OMap m)).
  unfold conversationReducer, created, advanced_create, installed.
  unfold and_then at 1. unfold uuidv4 at 1. unfold and_then at 1. unfold new_Date at 1.
  unfold and_then at 1. unfold alloc at 1. cbn [heap uuids_drawn clock_reads set_heap].
  destruct (truthy_string (default "" (initialMessage payload))).
  - unfold and_then, uuidv4, push_message, and_then, read_conv, store.
    cbn [heap uuids_drawn clock_reads set_heap].
    repeat (rewrite lookup_insert_eq;
            cbn [heap uuids_drawn clock_reads set_heap id messages metadata
                 activeProviders app]).
    rewrite insert_insert_eq.
    rewrite (with_entry_run _ state m)
      by (cbn [heap set_heap]; now rewrite lookup_insert_ne).
    reflexivity.
  - unfold and_then, ret.
    rewrite (with_entry_run _ state m)
      by (cbn [heap set_heap]; now rewrite lookup_insert_ne).
    reflexivity.
Qed.

Lemma reducer_delete (w : World) (state : loc) (m : gmap string loc) (cid : string) :
  heap w !! state = Some (OMap m) ->
  conversationReducer env JSON_parse state (DELETE_CONVERSATION cid) w
  = (Done (fresh (dom (heap w))),
     set_heap (<[fresh (dom (heap w)) := OMap (delete cid m)]> (heap w)) w).
Proof.
  intros Hstate.
  unfold conversationReducer, new_Map, map_delete, and_then, read_map, alloc, store, ret,
    set_heap.
  rewrite Hstate. cbn [heap uuids_drawn clock_reads].
  rewrite lookup_insert_eq. cbn [heap uuids_drawn clock_reads].
  rewrite lookup_insert_eq, insert_insert_eq. reflexivity.
Qed.

(** Nothing that comes out of [JSON.parse] is a [Set]. *)
Lemma of_json_not_set (j : Json) : instanceof_Set (of_json j) = false.
Proof. destruct j; reflexivity. Qed.

Lemma assoc_of_json_not_set (k : string) (fields : list (string * Json)) :
  instanceof_Set
    (default JUndefined
       (assoc k (map (fun kv => (fst kv, of_json (snd kv))) fields)))
  = false.
Proof.
  induction fields as [|[k' j] fields IH]; [reflexivity|]. cbn [map assoc fst snd].
  destruct (String.eqb k k'); [apply of_json_not_set | exact IH].
Qed.

(** So [isValidConversation] accepts no parsed payload: it answers [false]
    or, for [null], throws. *)
Lemma isValidConversation_of_json (j : Json) :
  isValidConversation (of_json j) <> Returns true.
Proof.
  destruct j as [| | | |items|fields]; try discriminate.
  unfold isValidConversation. cbn [of_json typeof String.eqb negb get Js.bind].
  repeat match goal with
         | |- context [if ?b then _ else _] => destruct b; try discriminate
         end.
  rewrite assoc_of_json_not_set. discriminate.
Qed.

(** What [IMPORT_CONVERSATION] does: whatever the payload, it throws a
    [ConversationError] and leaves the world as it was. *)
Lemma reducer_import (payload : string) (w : World) (state : loc) :
  conversationReducer env JSON_parse state (IMPORT_CONVERSATION payload) w
  = (Raised (import_error JSON_parse payload), w).
Proof.
  unfold conversationReducer, import_error, catch, and_then, lift.
  destruct (JSON_parse payload) as [j|e]; [|reflexivity]. cbn [ret throw].
  pose proof (isValidConversation_of_json j) as Hvalid.
  destruct (isValidConversation (of_json j)) as [[|]|e]; [congruence| |]; reflexivity.
Qed.

End ReducerRuns.

(** ** The reducer: states before and after *)

Section ReducerStates.

Lemma conv_at_weaken (h h' : gmap loc Obj) (l : loc) (c : Conversation) :
  h ⊆ h' -> conv_at h l = Some c -> conv_at h' l = Some c.
Proof.
  intros Hsub. unfold conv_at.
  destruct (h !! l) as [[| c0 |]|] eqn:Hl; try discriminate.
  intros [= <-]. now rewrite (lookup_weaken _ _ _ _ Hl Hsub).
Qed.

(** Entries that refer to conversations read the same in a larger heap. *)
Lemma omap_conv_at_weaken (h h' : gmap loc Obj) (m : gmap string loc) :
  h ⊆ h' ->
  (forall k l, m !! k = Some l -> is_Some (conv_at h l)) ->
  omap (conv_at h') m = omap (conv_at h) m.
Proof.
  intros Hsub Hwf. apply omap_ext. intros k l Hk.
  destruct (Hwf k l Hk) as [c Hc]. rewrite Hc. now apply (conv_at_weaken h).
Qed.

Lemma installed_subseteq (w : World) (m : gmap string loc) (cid : string)
    (c : Conversation) :
  heap w ⊆ snd (installed w m cid c).
Proof.
  unfold installed. cbn [snd].
  etransitivity; [apply insert_subseteq, fresh_lookup|].
  apply insert_subseteq, fresh_lookup.
Qed.

(** The state an updating case returns, read by value: the old entries
    with the one under [cid] set to the new conversation. *)
Lemma installed_state (w w' : World) (state : loc) (m : gmap string loc)
    (cid : string) (c : Conversation) :
  heap w !! state = Some (OMap m) ->
  (forall k l, m !! k = Some l -> is_Some (conv_at (heap w) l)) ->
  heap w' = snd (installed w m cid c) ->
  heap w' !! fst (installed w m cid c)
  = Some (OMap (<[cid := fresh (dom (heap w))]> m))
  /\ fst (installed w m cid c) <> state
  /\ well_formed w' (fst (installed w m cid c))
  /\ snapshot w' (fst (installed w m cid c))
     = Some (<[cid := c]> (omap (conv_at (heap w)) m)).
Proof.
  intros Hstate Hwf Hheap.
  pose proof (installed_subseteq w m cid c) as Hsub. rewrite <- Hheap in Hsub.
  assert (Hl2 : heap w' !! fst (installed w m cid c)
                = Some (OMap (<[cid := fresh (dom (heap w))]> m))).
  { rewrite Hheap. unfold installed. cbn [fst snd]. apply lookup_insert_eq. }
  assert (Hl1 : conv_at (heap w') (fresh (dom (heap w))) = Some c).
  { unfold conv_at. rewrite Hheap. unfold installed. cbn [snd].
    rewrite lookup_insert_ne, lookup_insert_eq; [reflexivity|].
    apply (fresh_ne _ _ (OConv c)). apply lookup_insert_eq. }
  assert (Hold : forall k l, m !! k = Some l -> is_Some (conv_at (heap w') l)).
  { intros k l Hk. destruct (Hwf k l Hk) as [c0 Hc0]. exists c0.
    now apply (conv_at_weaken (heap w)). }
  split; [exact Hl2|]. split; [|split].
  - intros Heq. rewrite Heq in Hl2.
    rewrite (lookup_weaken _ _ _ _ Hstate Hsub) in Hl2.
    injection Hl2 as Hm. pose proof (f_equal (fun x => x !! cid) Hm) as Hcid.
    cbn beta in Hcid. rewrite lookup_insert_eq in Hcid.
    destruct (Hwf cid (fresh (dom (heap w))) Hcid) as [c0 Hc0].
    unfold conv_at in Hc0. now rewrite fresh_lookup in Hc0.
  - exists (<[cid := fresh (dom (heap w))]> m). split; [exact Hl2|].
    intros k l Hk. destruct (decide (cid = k)) as [->|Hne].
    + rewrite lookup_insert_eq in Hk. injection Hk as <-. now exists c.
    + rewrite lookup_insert_ne in Hk by exact Hne. now apply (Hold k).
  - unfold snapshot. rewrite Hl2. f_equal.
    rewrite (omap_insert_Some _ _ _ _ c) by exact Hl1. f_equal.
    now apply omap_conv_at_weaken.
Qed.

Lemma deleted_state (w w' : World) (state : loc) (m : gmap string loc) (cid : string) :
  heap w !! state = Some (OMap m) ->
  (forall k l, m !! k = Some l -> is_Some (conv_at (heap w) l)) ->
  heap w' = <[fresh (dom (heap w)) := OMap (delete cid m)]> (heap w) ->
  heap w ⊆ heap w'
  /\ heap w' !! fresh (dom (heap w)) = Some (OMap (delete cid m))
  /\ fresh (dom (heap w)) <> state
  /\ well_formed w' (fresh (dom (heap w)))
  /\ snapshot w' (fresh (dom (heap w)))
     = Some (delete cid (omap (conv_at (heap w)) m)).
Proof.
  intros Hstate Hwf Hheap.
  assert (Hsub : heap w ⊆ heap w')
    by (rewrite Hheap; apply insert_subseteq, fresh_lookup).
  assert (Hl : heap w' !! fresh (dom (heap w)) = Some (OMap (delete cid m)))
    by (rewrite Hheap; apply lookup_insert_eq).
  split; [exact Hsub|]. split; [exact Hl|]. split; [|split].
  - now apply (fresh_ne _ _ (OMap m)).
  - exists (delete cid m). split; [exact Hl|]. intros k l Hk.
    apply lookup_delete_Some in Hk as [_ Hk].
    destruct (Hwf k l Hk) as [c0 Hc0]. exists c0. now apply (conv_at_weaken (heap w)).
  - unfold snapshot. rewrite Hl. f_equal. rewrite omap_delete. f_equal.
    now apply omap_conv_at_weaken.
Qed.

(** Two well-formed states with the same entries by value agree on
    whether an id is present and on the conversation it names. *)
Lemma snapshot_entry (w : World) (state : loc) (m : gmap string loc) (cid : string) :
  heap w !! state = Some (OMap m) ->
  (forall k l, m !! k = Some l -> is_Some (conv_at (heap w) l)) ->
  match m !! cid with
  | Some l => exists c, heap w !! l = Some (OConv c)
                        /\ lookup_conversation w state cid = Some c
  | None => lookup_conversation w state cid = None
  end.
Proof.
  intros Hstate Hwf. unfold lookup_conversation, snapshot. rewrite Hstate.
  cbn [base.mbind option_bind]. rewrite lookup_omap.
  destruct (m !! cid) as [l|] eqn:Hcid; [|reflexivity].
  destruct (Hwf cid l Hcid) as [c Hc]. exists c. cbn [base.mbind option_bind].
  split; [|exact Hc]. unfold conv_at in Hc.
  destruct (heap w !! l) as [[| c0 |]|]; try discriminate. now injection Hc as ->.
Qed.

End ReducerStates.

(** ** Importing a conversation *)

Section ImportConversation.

Lemma includes_prefix (p s : string) : includes (p +:+ s) p = true.
Proof.
  assert (H : String.prefix p (p +:+ s) = true).
  { induction p as [|c p IH]; [rewrite append_nil_l; now destruct s|].
    rewrite append_cons. simpl.
    destruct (Ascii.ascii_dec c c); [exact IH | congruence]. }
  assert (Hunfold : forall hay needle,
             includes hay needle
             = String.prefix needle hay
               || match hay with
                  | "" => false
                  | String _ hay' => includes hay' needle
                  end) by (intros [|] ?; reflexivity).
  rewrite Hunfold, H. reflexivity.
Qed.

(** C2: whatever the payload and whatever [JSON.parse] makes of it,
    [IMPORT_CONVERSATION] throws a [ConversationError] whose message starts
    with [Failed to import conversation] and leaves the world, and so the
    mapping, as it was; no payload is ever imported, because nothing
    [JSON.parse] returns is an instance of [Set].  For the JSON text of a
    conversation the message is [Failed to import conversation: Invalid
    conversation data structure]. *)
Theorem import_conversation_always_throws
    (env : Env) (JSON_parse : string -> Outcome Json) (payload : string)
    (w : World) (state : loc) :
  (exists cause,
     conversationReducer env JSON_parse state (IMPORT_CONVERSATION payload) w
     = (Raised (ConversationError ("Failed to import conversation: " +:+ cause)), w)
     /\ includes (message (ConversationError ("Failed to import conversation: " +:+ cause)))
                 "Failed to import conversation" = true)
  /\ conversationReducer env parse_exported state (IMPORT_CONVERSATION payload) w
     = (Raised (ConversationError
                  "Failed to import conversation: Invalid conversation data structure"),
        w).
Proof.
  split; [|reflexivity].
  rewrite reducer_import. unfold import_error. eexists. split; [reflexivity|].
  exact (includes_prefix "Failed to import conversation" (": " +:+ _)).
Qed.

End ImportConversation.

(** ** Actions on a conversation that is not there *)

Section Missing.

(** C4: for an [UPDATE_CONVERSATION], [ADD_MESSAGE], [SET_METADATA],
    [ADD_PROVIDER], [REMOVE_PROVIDER] or [CLEAR_HISTORY] action whose
    conversation id is not in the mapping, the reducer throws
    [ConversationNotFoundError] for that id, and the world after the throw
    is the world before it: the heap with the mapping and every
    conversation, and the numbers of ids drawn and of clock readings, so
    nothing was computed before the check. *)
Theorem missing_conversation_throws_first
    (env : Env) (JSON_parse : string -> Outcome Json)
    (w : World) (state : loc) (m : gmap string loc)
    (action : ConversationAction) (cid : string) :
  target action = Some cid ->
  heap w !! state = Some (OMap m) ->
  m !! cid = None ->
  conversationReducer env JSON_parse state action w
  = (Raised (ConversationNotFoundError cid), w)
  /\ snapshot (snd (conversationReducer env JSON_parse state action w)) state
     = snapshot w state
  /\ heap (snd (conversationReducer env JSON_parse state action w)) !! state
     = Some (OMap m).
Proof.
  intros Htarget Hstate Hm.
  rewrite (reducer_on_missing env JSON_parse w state m action cid Htarget Hstate Hm).
  cbn [snd]. auto.
Qed.

Lemma missing_conversation_throws_first_witness :
  conversationReducer clock_env parse_exported 0%nat (ADD_MESSAGE "nobody" hi_message)
    empty_world
  = (Raised (ConversationNotFoundError "nobody"), empty_world)
  /\ snapshot (snd (conversationReducer clock_env parse_exported 0%nat
                      (ADD_MESSAGE "nobody" hi_message) empty_world)) 0%nat
     = snapshot empty_world 0%nat
  /\ heap (snd (conversationReducer clock_env parse_exported 0%nat
                  (ADD_MESSAGE "nobody" hi_message) empty_world)) !! 0%nat
     = Some (OMap ∅).
Proof.
  apply (missing_conversation_throws_first clock_env parse_exported empty_world 0%nat ∅
           (ADD_MESSAGE "nobody" hi_message) "nobody"); reflexivity.
Defined.

End Missing.

(** ** The reducer, by value *)

Section ReducerSteps.
Variable env : Env.
Variable JSON_parse : string -> Outcome Json.

(** Only the numbers of ids drawn and clock readings taken matter. *)
Lemma step_entries_counters (w1 w2 : World) (action : ConversationAction)
    (entries : gmap string Conversation) :
  uuids_drawn w1 = uuids_drawn w2 ->
  clock_reads w1 = clock_reads w2 ->
  step_entries env JSON_parse w1 action entries = step_entries env JSON_parse w2 action entries.
Proof.
  intros Hu Hc.
  destruct action; unfold step_entries, key_of, created, updated;
    rewrite ?Hu, ?Hc; reflexivity.
Qed.

Lemma target_key_of (w : World) (action : ConversationAction) (cid : string) :
  target action = Some cid -> key_of env w action = cid.
Proof. destruct action; intros [= <-]; reflexivity. Qed.

Lemma step_entries_target (w : World) (action : ConversationAction) (cid : string)
    (entries : gmap string Conversation) :
  target action = Some cid ->
  step_entries env JSON_parse w action entries
  = match entries !! cid with
    | None => Raised (ConversationNotFoundError cid)
    | Some c =>
        match updated env w action c with
        | Done c' => Done (<[cid := c']> entries)
        | Raised e => Raised e
        | Wrong => Wrong
        end
    end.
Proof. destruct action; intros [= <-]; reflexivity. Qed.

Lemma advanced_clock (w : World) (action : ConversationAction) :
  (clock_reads w <= clock_reads (advanced w action))%nat.
Proof. destruct action; cbn; lia. Qed.

(** One run of the reducer on a well-formed state: no object of the heap
    is changed, and the outcome is the one [step_entries] gives for the
    state's entries; the returned state is a new [Map] whose entries other
    than the action's key are the references the old [Map] had. *)
Lemma reducer_step (w : World) (state : loc) (m : gmap string loc)
    (action : ConversationAction) :
  heap w !! state = Some (OMap m) ->
  (forall k l, m !! k = Some l -> is_Some (conv_at (heap w) l)) ->
  heap w ⊆ heap (snd (conversationReducer env JSON_parse state action w))
  /\ (clock_reads w
      <= clock_reads (snd (conversationReducer env JSON_parse state action w)))%nat
  /\ match step_entries env JSON_parse w action (omap (conv_at (heap w)) m) with
     | Done entries' =>
         exists state' m',
           fst (conversationReducer env JSON_parse state action w) = Done state'
           /\ state' <> state
           /\ well_formed (snd (conversationReducer env JSON_parse state action w)) state'
           /\ snapshot (snd (conversationReducer env JSON_parse state action w)) state'
              = Some entries'
           /\ heap (snd (conversationReducer env JSON_parse state action w)) !! state'
              = Some (OMap m')
           /\ forall k, k <> key_of env w action -> m' !! k = m !! k
     | Raised e =>
         conversationReducer env JSON_parse state action w = (Raised e, w)
     | Wrong => False
     end.
Proof.
  intros Hstate Hwf.
  destruct (target action) as [cid|] eqn:Htarget.
  - (* the six actions on an existing conversation *)
    rewrite (step_entries_target w action cid _ Htarget), lookup_omap.
    rewrite (target_key_of w action cid Htarget).
    destruct (m !! cid) as [l|] eqn:Hcid.
    + destruct (Hwf cid l Hcid) as [c Hc]. cbn. rewrite Hc.
      assert (Hl : heap w !! l = Some (OConv c)).
      { unfold conv_at in Hc. destruct (heap w !! l) as [[| c0 |]|]; try discriminate.
        now injection Hc as ->. }
      rewrite (reducer_on_existing env JSON_parse w state m action cid l c
                 Htarget Hstate Hcid Hl).
      destruct (updated env w action c) as [c'| e |] eqn:Hupd.
      * cbn [fst snd].
        destruct (installed_state w (set_heap (snd (installed w m cid c')) (advanced w action))
                    state m cid c' Hstate Hwf eq_refl) as (Hl2 & Hne & Hwf' & Hsnap).
        split; [apply installed_subseteq|]. split; [apply advanced_clock|].
        eexists _, _. split; [reflexivity|]. split; [exact Hne|].
        split; [exact Hwf'|]. split; [exact Hsnap|]. split; [exact Hl2|].
        intros k Hk. now apply lookup_insert_ne.
      * cbn [snd]. split; [reflexivity|]. split; [lia | reflexivity].
      * exfalso. destruct action; try discriminate Htarget; cbn in Hupd;
          try discriminate Hupd.
        case_bool_decide; discriminate Hupd.
    + cbn. rewrite (reducer_on_missing env JSON_parse w state m action cid
                      Htarget Hstate Hcid).
      cbn [snd]. split; [reflexivity|]. split; [lia | reflexivity].
  - destruct action as [payload| | cid | | | | | | payload]; try discriminate Htarget.
    + (* CREATE_CONVERSATION *)
      rewrite (reducer_create env JSON_parse w state m payload Hstate). cbn [fst snd].
      destruct (installed_state w
                  (set_heap (snd (installed w m (uuid_at env (uuids_drawn w))
                                    (created env w payload)))
                            (advanced_create w payload))
                  state m (uuid_at env (uuids_drawn w)) (created env w payload)
                  Hstate Hwf eq_refl) as (Hl2 & Hne & Hwf' & Hsnap).
      split; [apply installed_subseteq|]. split; [cbn; lia|].
      cbn [step_entries]. eexists _, _. split; [reflexivity|]. split; [exact Hne|].
      split; [exact Hwf'|]. split; [exact Hsnap|]. split; [exact Hl2|].
      intros k Hk. now apply lookup_insert_ne.
    + (* DELETE_CONVERSATION *)
      rewrite (reducer_delete env JSON_parse w state m cid Hstate). cbn [fst snd].
      destruct (deleted_state w
                  (set_heap (<[fresh (dom (heap w)) := OMap (delete cid m)]> (heap w)) w)
                  state m cid Hstate Hwf eq_refl)
        as (Hsub & Hl & Hne & Hwf' & Hsnap).
      split; [exact Hsub|]. split; [cbn; lia|].
      cbn [step_entries]. eexists _, _. split; [reflexivity|]. split; [exact Hne|].
      split; [exact Hwf'|]. split; [exact Hsnap|]. split; [exact Hl|].
      intros k Hk. now apply lookup_delete_ne.
    + (* IMPORT_CONVERSATION *)
      rewrite reducer_import. cbn [snd step_entries].
      split; [reflexivity|]. split; [lia | reflexivity].
Qed.

End ReducerSteps.

(** ** Purity of the reducer *)

Section Purity.

Lemma reducer_unmutated (env : Env) (JSON_parse : string -> Outcome Json)
    (action : ConversationAction) (w : World) (state : loc) :
  well_formed w state ->
  unmutated env action w state (conversationReducer env JSON_parse state action w).
Proof.
  intros (m & Hstate & Hwf).
  destruct (reducer_step env JSON_parse w state m action Hstate Hwf) as (Hsub & _ & Hstep).
  split; [exact Hsub|]. intros state' Hdone.
  destruct (step_entries env JSON_parse w action (omap (conv_at (heap w)) m)).
  - destruct Hstep as (s' & m' & Hfst & Hne & _ & _ & Hm' & Hkeys).
    rewrite Hfst in Hdone. injection Hdone as <-.
    split; [exact Hne|]. now exists m, m'.
  - rewrite Hstep in Hdone. discriminate Hdone.
  - contradiction.
Qed.

(** C3 as stated fails: two applications of [CREATE_CONVERSATION] to the
    same, unchanged input state return states that differ, because the
    reducer draws a new id (and reads the clock) in each. *)
Lemma create_twice_differs :
  well_formed empty_world 0%nat
  /\ well_formed
       (snd (conversationReducer clock_env parse_exported 0%nat create_nothing empty_world))
       0%nat
  /\ snapshot empty_world 0%nat
     = snapshot
         (snd (conversationReducer clock_env parse_exported 0%nat create_nothing
                 empty_world))
         0%nat
  /\ ~ same_outcome
         (conversationReducer clock_env parse_exported 0%nat create_nothing empty_world)
         (conversationReducer clock_env parse_exported 0%nat create_nothing
            (snd (conversationReducer clock_env parse_exported 0%nat create_nothing
                    empty_world))).
Proof.
  assert (Hwf : well_formed empty_world 0%nat).
  { exists ∅. split; [reflexivity|]. intros k l Hk. now rewrite lookup_empty in Hk. }
  split; [exact Hwf|]. split; [|split].
  - exists ∅. split; [vm_compute; reflexivity|].
    intros k l Hk. now rewrite lookup_empty in Hk.
  - vm_compute. reflexivity.
  - unfold same_outcome.
    set (r1 := conversationReducer clock_env parse_exported 0%nat create_nothing empty_world).
    set (r2 := conversationReducer clock_env parse_exported 0%nat create_nothing (snd r1)).
    assert (H1 : fst r1 = Done 2%nat) by (vm_compute; reflexivity).
    assert (H2 : fst r2 = Done 4%nat) by (vm_compute; reflexivity).
    rewrite H1, H2. intros (_ & _ & Heq).
    apply (f_equal (fun o => o ≫= (fun entries => id <$> entries !! "uuid-0"))) in Heq.
    vm_compute in Heq. discriminate Heq.
Qed.

(** C3, amended: for every action and every pair of well-formed input
    states with the same entries by value, in worlds that have handed out
    the same number of ids and clock readings (so that both runs get the
    same ids and times), the two runs of the reducer end alike: both return
    well-formed states with the same entries by value, or both throw the
    same error; and neither run mutates its input mapping or any
    conversation in it, and entries other than the one the action is about
    keep their identity in the output mapping. *)
Theorem reducer_purity
    (env : Env) (JSON_parse : string -> Outcome Json) (action : ConversationAction)
    (w1 w2 : World) (s1 s2 : loc) :
  well_formed w1 s1 ->
  well_formed w2 s2 ->
  snapshot w1 s1 = snapshot w2 s2 ->
  uuids_drawn w1 = uuids_drawn w2 ->
  clock_reads w1 = clock_reads w2 ->
  same_outcome (conversationReducer env JSON_parse s1 action w1)
               (conversationReducer env JSON_parse s2 action w2)
  /\ unmutated env action w1 s1 (conversationReducer env JSON_parse s1 action w1)
  /\ unmutated env action w2 s2 (conversationReducer env JSON_parse s2 action w2).
Proof.
  intros Hwf1 Hwf2 Hsnap Hu Hc.
  split; [|split; now apply reducer_unmutated].
  destruct Hwf1 as (m1 & Hs1 & Hm1). destruct Hwf2 as (m2 & Hs2 & Hm2).
  unfold snapshot in Hsnap. rewrite Hs1, Hs2 in Hsnap. injection Hsnap as Hentries.
  destruct (reducer_step env JSON_parse w1 s1 m1 action Hs1 Hm1) as (_ & _ & Hstep1).
  destruct (reducer_step env JSON_parse w2 s2 m2 action Hs2 Hm2) as (_ & _ & Hstep2).
  rewrite Hentries, (step_entries_counters env JSON_parse w1 w2 action _ Hu Hc) in Hstep1.
  unfold same_outcome.
  destruct (step_entries env JSON_parse w2 action (omap (conv_at (heap w2)) m2)).
  - destruct Hstep1 as (s1' & m1' & Hfst1 & _ & Hwf1' & Hsnap1 & _).
    destruct Hstep2 as (s2' & m2' & Hfst2 & _ & Hwf2' & Hsnap2 & _).
    rewrite Hfst1, Hfst2. split; [exact Hwf1'|]. split; [exact Hwf2'|]. congruence.
  - rewrite Hstep1, Hstep2. reflexivity.
  - contradiction.
Qed.

End Purity.

Section PurityWitness.

Lemma well_formed_empty (w : World) (state : loc) :
  heap w !! state = Some (OMap ∅) -> well_formed w state.
Proof.
  intros H. exists ∅. split; [exact H|]. intros k l Hk. now rewrite lookup_empty in Hk.
Qed.

(** A returned state is well formed. *)
Lemma reducer_well_formed (env : Env) (JSON_parse : string -> Outcome Json)
    (action : ConversationAction) (w w' : World) (state state' : loc) :
  well_formed w state ->
  conversationReducer env JSON_parse state action w = (Done state', w') ->
  well_formed w' state'.
Proof.
  intros (m & Hstate & Hwf) Hrun.
  destruct (reducer_step env JSON_parse w state m action Hstate Hwf) as (_ & _ & Hstep).
  rewrite Hrun in Hstep. cbn [fst snd] in Hstep.
  destruct (step_entries env JSON_parse w action (omap (conv_at (heap w)) m)).
  - destruct Hstep as (s' & m' & [= <-] & _ & Hwf' & _). exact Hwf'.
  - discriminate Hstep.
  - contradiction.
Qed.

Lemma reducer_purity_witness :
  same_outcome
    (conversationReducer clock_env parse_exported 2%nat (ADD_MESSAGE "uuid-0" hi_message)
       (snd (created_in empty_world 0%nat)))
    (conversationReducer clock_env parse_exported 9%nat (ADD_MESSAGE "uuid-0" hi_message)
       (snd (created_in other_world 7%nat)))
  /\ unmutated clock_env (ADD_MESSAGE "uuid-0" hi_message)
       (snd (created_in empty_world 0%nat)) 2%nat
       (conversationReducer clock_env parse_exported 2%nat
          (ADD_MESSAGE "uuid-0" hi_message) (snd (created_in empty_world 0%nat)))
  /\ unmutated clock_env (ADD_MESSAGE "uuid-0" hi_message)
       (snd (created_in other_world 7%nat)) 9%nat
       (conversationReducer clock_env parse_exported 9%nat
          (ADD_MESSAGE "uuid-0" hi_message) (snd (created_in other_world 7%nat))).
Proof.
  apply (reducer_purity clock_env parse_exported (ADD_MESSAGE "uuid-0" hi_message)
           (snd (created_in empty_world 0%nat)) (snd (created_in other_world 7%nat))
           2%nat 9%nat).
  - apply (reducer_well_formed clock_env parse_exported create_nothing empty_world _ 0%nat).
    + apply well_formed_empty. reflexivity.
    + vm_compute. reflexivity.
  - apply (reducer_well_formed clock_env parse_exported create_nothing other_world _ 7%nat).
    + apply well_formed_empty. reflexivity.
    + vm_compute. reflexivity.
  - vm_compute. reflexivity.
  - reflexivity.
  - reflexivity.
Defined.

End PurityWitness.

(** ** The timestamps of a conversation *)

Section Timestamps.

Lemma clock_env_monotone : monotone clock_env.
Proof. intros i j Hij. cbn. lia. Qed.

(** C6 as stated fails: [SET_METADATA] spreads the payload's metadata over
    the conversation's, [createdAt] included, and then sets [updatedAt] to
    the time of the action, so a payload with a later [createdAt] leaves a
    conversation that was updated before it was created, under a clock that
    never goes backwards. *)
Lemma created_before_updated_fails :
  monotone clock_env
  /\ exists w state c,
      reachable clock_env parse_exported any_action w state
      /\ lookup_conversation w state "uuid-0" = Some c
      /\ updatedAt (metadata c) < createdAt (metadata c).
Proof.
  split; [exact clock_env_monotone|].
  eexists _, _, _. split; [|split].
  - eapply (reach_done _ _ _ _ _ 2%nat _ late_creation).
    + eapply (reach_done _ _ _ empty_world _ 0%nat _ create_nothing).
      * apply reach_empty. reflexivity.
      * exact I.
      * vm_compute. reflexivity.
    + exact I.
    + vm_compute. reflexivity.
  - vm_compute. reflexivity.
  - vm_compute. reflexivity.
Qed.

(** [CREATE_CONVERSATION] does the same with an [updatedAt] of the
    payload, which it spreads over the timestamps it has just set. *)
Example created_with_early_update :
  exists c,
    lookup_conversation
      (snd (conversationReducer clock_env parse_exported 0%nat early_update empty_world))
      2%nat "uuid-0" = Some c
    /\ title (metadata c) = Some "Demo"
    /\ messages c = []
    /\ createdAt (metadata c) = 1000
    /\ updatedAt (metadata c) = 0.
Proof. eexists. split; [vm_compute; reflexivity|]. repeat split; reflexivity. Qed.

Section Invariant.
Variable env : Env.
Variable JSON_parse : string -> Outcome Json.
Hypothesis clock_monotone : monotone env.

Lemma updated_ordered (w : World) (action : ConversationAction) (c c' : Conversation) :
  dateless action ->
  updated env w action c = Done c' ->
  createdAt (metadata c) <= updatedAt (metadata c) ->
  (forall j : nat, (clock_reads w <= j)%nat -> createdAt (metadata c) <= time_at env j) ->
  createdAt (metadata c') = createdAt (metadata c)
  /\ createdAt (metadata c') <= updatedAt (metadata c').
Proof.
  intros Hdateless Hupd Hle Hlater.
  pose proof (Hlater (clock_reads w) (Nat.le_refl _)) as Hnow.
  pose proof (Hlater (S (clock_reads w)) (Nat.le_succ_diag_r _)) as Hnext.
  destruct action; cbn in Hupd, Hdateless; try discriminate Hupd.
  - injection Hupd as <-. rewrite Hdateless. cbn. auto.
  - injection Hupd as <-. cbn. auto.
  - injection Hupd as <-. destruct Hdateless as [Hc _]. cbn. rewrite Hc. cbn. auto.
  - injection Hupd as <-. cbn. auto.
  - case_bool_decide; [|discriminate Hupd]. injection Hupd as <-. cbn. auto.
  - injection Hupd as <-. cbn. auto.
Qed.

Lemma created_ordered (w : World) (payload : CreateConversationOptions) :
  dateless (CREATE_CONVERSATION payload) ->
  createdAt (metadata (created env w payload)) = time_at env (clock_reads w)
  /\ updatedAt (metadata (created env w payload)) = time_at env (clock_reads w).
Proof.
  cbn [dateless]. unfold created. cbn [metadata].
  destruct (c_metadata payload) as [given|]; cbn.
  - intros [-> ->]. cbn. auto.
  - auto.
Qed.

(** One step keeps the order of the timestamps. *)
Lemma step_entries_ordered (w w' : World) (action : ConversationAction)
    (entries entries' : gmap string Conversation) :
  dateless action ->
  (clock_reads w <= clock_reads w')%nat ->
  ordered env w entries ->
  step_entries env JSON_parse w action entries = Done entries' ->
  ordered env w' entries'.
Proof.
  intros Hdateless Hclock Hord Hstep.
  assert (Hkeep : forall cid c, entries !! cid = Some c ->
            createdAt (metadata c) <= updatedAt (metadata c)
            /\ forall j : nat, (clock_reads w' <= j)%nat ->
                               createdAt (metadata c) <= time_at env j).
  { intros cid c Hc. destruct (Hord cid c Hc) as [Hle Hlater].
    split; [exact Hle|]. intros j Hj. apply Hlater. lia. }
  destruct (target action) as [tid|] eqn:Htarget.
  - rewrite (step_entries_target env JSON_parse w action tid entries Htarget) in Hstep.
    destruct (entries !! tid) as [c|] eqn:Hc; [|discriminate Hstep].
    destruct (updated env w action c) as [c'| |] eqn:Hupd; try discriminate Hstep.
    injection Hstep as <-. destruct (Hord tid c Hc) as [Hle Hlater].
    destruct (updated_ordered w action c c' Hdateless Hupd Hle Hlater) as [Hsame Hle'].
    intros cid c0 Hc0. destruct (decide (tid = cid)) as [->|Hne].
    + rewrite lookup_insert_eq in Hc0. injection Hc0 as <-.
      split; [exact Hle'|]. rewrite Hsame. intros j Hj. apply Hlater. lia.
    + rewrite lookup_insert_ne in Hc0 by exact Hne. now apply (Hkeep cid).
  - destruct action as [payload| | tid | | | | | | payload]; try discriminate Htarget.
    + cbn [step_entries] in Hstep. injection Hstep as <-.
      destruct (created_ordered w payload Hdateless) as [Hcreated Hupdated].
      intros cid c0 Hc0.
      destruct (decide (uuid_at env (uuids_drawn w) = cid)) as [<-|Hne].
      * rewrite lookup_insert_eq in Hc0. injection Hc0 as <-.
        rewrite Hcreated, Hupdated. split; [lia|].
        intros j Hj. apply clock_monotone. lia.
      * rewrite lookup_insert_ne in Hc0 by exact Hne. now apply (Hkeep cid).
    + cbn [step_entries] in Hstep. injection Hstep as <-.
      intros cid c0 Hc0. apply lookup_delete_Some in Hc0 as [_ Hc0].
      now apply (Hkeep cid).
    + discriminate Hstep.
Qed.

(** A reachable state is well formed, and its timestamps are in order. *)
Lemma reachable_ordered (w : World) (state : loc) :
  reachable env JSON_parse dateless w state ->
  exists m, heap w !! state = Some (OMap m)
            /\ (forall k l, m !! k = Some l -> is_Some (conv_at (heap w) l))
            /\ ordered env w (omap (conv_at (heap w)) m).
Proof.
  induction 1 as [w state Hempty
                 | w w' state state' action _ IH Hallowed Hrun
                 | w w' state action e _ IH Hallowed Hrun].
  - exists ∅. split; [exact Hempty|]. split.
    + intros k l Hk. now rewrite lookup_empty in Hk.
    + intros cid c Hc. rewrite omap_empty in Hc. now rewrite lookup_empty in Hc.
  - destruct IH as (m & Hstate & Hwf & Hord).
    destruct (reducer_step env JSON_parse w state m action Hstate Hwf)
      as (_ & Hclock & Hstep).
    rewrite Hrun in Hstep, Hclock. cbn [fst snd] in Hstep, Hclock.
    destruct (step_entries env JSON_parse w action (omap (conv_at (heap w)) m))
      as [entries'| |] eqn:Hentries.
    + destruct Hstep as (s' & m' & [= <-] & _ & (m'' & Hm'' & Hwf'') & Hsnap & Hm' & _).
      rewrite Hm'' in Hm'. injection Hm' as <-.
      exists m''. split; [exact Hm''|]. split; [exact Hwf''|].
      unfold snapshot in Hsnap. rewrite Hm'' in Hsnap. injection Hsnap as ->.
      now apply (step_entries_ordered w w' action _ _ Hallowed Hclock Hord Hentries).
    + discriminate Hstep.
    + contradiction.
  - destruct IH as (m & Hstate & Hwf & Hord).
    destruct (reducer_step env JSON_parse w state m action Hstate Hwf) as (_ & _ & Hstep).
    rewrite Hrun in Hstep. cbn [fst snd] in Hstep.
    destruct (step_entries env JSON_parse w action (omap (conv_at (heap w)) m)).
    + destruct Hstep as (s' & m' & Hfst & _). discriminate Hfst.
    + injection Hstep as _ ->. now exists m.
    + contradiction.
Qed.

End Invariant.

End Timestamps.

Section Refresh.

Lemma updated_refreshes (env : Env) (w : World) (action : ConversationAction)
    (c c' : Conversation) :
  updated env w action c = Done c' ->
  updatedAt (metadata c') = time_at env (Nat.pred (clock_reads (advanced w action)))
  /\ (clock_reads w < clock_reads (advanced w action))%nat.
Proof.
  intros Hupd. destruct action; cbn in Hupd; try discriminate Hupd;
    try (injection Hupd as <-; cbn; split; [reflexivity | lia]).
  case_bool_decide; [|discriminate Hupd]. injection Hupd as <-. cbn.
  split; [reflexivity | lia].
Qed.

Lemma updated_returns (env : Env) (w : World) (action : ConversationAction)
    (cid : string) (c : Conversation) :
  target action = Some cid ->
  (forall provider, action = REMOVE_PROVIDER cid provider ->
                    provider ∈ activeProviders c) ->
  exists c', updated env w action c = Done c'.
Proof.
  intros Htarget Hactive.
  destruct action; try discriminate Htarget; injection Htarget as ->; cbn;
    try (eexists; reflexivity).
  rewrite bool_decide_eq_true_2 by now apply Hactive. eexists. reflexivity.
Qed.

(** C6, amended: in every state reached from the empty mapping by actions
    whose payloads supply no [createdAt] and no [updatedAt], under a clock
    that never goes backwards, every conversation has [updatedAt >=
    createdAt]; and each of [UPDATE_CONVERSATION], [ADD_MESSAGE],
    [SET_METADATA], [ADD_PROVIDER], [REMOVE_PROVIDER] and [CLEAR_HISTORY]
    that returns a state has set its conversation's [updatedAt] to the last
    clock reading it took, and it does return one when the conversation
    exists (and, for [REMOVE_PROVIDER], the provider is active). *)
Theorem updatedAt_refreshed_and_ordered
    (env : Env) (JSON_parse : string -> Outcome Json)
    (w : World) (state : loc) (action : ConversationAction) :
  monotone env ->
  reachable env JSON_parse dateless w state ->
  (forall cid c,
     lookup_conversation w state cid = Some c ->
     createdAt (metadata c) <= updatedAt (metadata c))
  /\ (forall cid state' w',
        target action = Some cid ->
        conversationReducer env JSON_parse state action w = (Done state', w') ->
        exists c',
          lookup_conversation w' state' cid = Some c'
          /\ updatedAt (metadata c') = time_at env (Nat.pred (clock_reads w'))
          /\ (clock_reads w < clock_reads w')%nat)
  /\ (forall cid c,
        target action = Some cid ->
        lookup_conversation w state cid = Some c ->
        (forall provider, action = REMOVE_PROVIDER cid provider ->
                          provider ∈ activeProviders c) ->
        exists state' w',
          conversationReducer env JSON_parse state action w = (Done state', w')).
Proof.
  intros Hmono Hreach.
  destruct (reachable_ordered env JSON_parse Hmono w state Hreach)
    as (m & Hstate & Hwf & Hord).
  assert (Hlookup : forall cid,
            lookup_conversation w state cid = omap (conv_at (heap w)) m !! cid).
  { intros cid. unfold lookup_conversation, snapshot. now rewrite Hstate. }
  split; [|split].
  - intros cid c Hc. rewrite Hlookup in Hc. now destruct (Hord cid c Hc).
  - intros cid state' w' Htarget Hrun.
    destruct (m !! cid) as [l|] eqn:Hcid.
    2:{ rewrite (reducer_on_missing env JSON_parse w state m action cid
                   Htarget Hstate Hcid) in Hrun. discriminate Hrun. }
    pose proof (snapshot_entry w state m cid Hstate Hwf) as Hentry.
    rewrite Hcid in Hentry. destruct Hentry as (c & Hl & _).
    rewrite (reducer_on_existing env JSON_parse w state m action cid l c
               Htarget Hstate Hcid Hl) in Hrun.
    destruct (updated env w action c) as [c'| |] eqn:Hupd; try discriminate Hrun.
    injection Hrun as <- <-.
    destruct (installed_state w (set_heap (snd (installed w m cid c')) (advanced w action))
                state m cid c' Hstate Hwf eq_refl) as (_ & _ & _ & Hsnap).
    destruct (updated_refreshes env w action c c' Hupd) as [Hat Hclock].
    exists c'. split; [|split].
    + unfold lookup_conversation. unfold installed in Hsnap. cbn [fst snd] in Hsnap.
      rewrite Hsnap. cbn. apply lookup_insert_eq.
    + destruct action; exact Hat.
    + destruct action; exact Hclock.
  - intros cid c Htarget Hc Hactive.
    pose proof (snapshot_entry w state m cid Hstate Hwf) as Hentry.
    destruct (m !! cid) as [l|] eqn:Hcid; [|congruence].
    destruct Hentry as (c0 & Hl & Hc0). rewrite Hc in Hc0. injection Hc0 as <-.
    rewrite (reducer_on_existing env JSON_parse w state m action cid l c
               Htarget Hstate Hcid Hl).
    destruct (updated_returns env w action cid c Htarget Hactive) as [c' ->].
    eexists _, _. reflexivity.
Qed.

Lemma updatedAt_refreshed_and_ordered_witness :
  (forall cid c,
     lookup_conversation (snd (created_in empty_world 0%nat)) 2%nat cid = Some c ->
     createdAt (metadata c) <= updatedAt (metadata c))
  /\ (forall cid state' w',
        target (ADD_MESSAGE "uuid-0" hi_message) = Some cid ->
        conversationReducer clock_env parse_exported 2%nat
          (ADD_MESSAGE "uuid-0" hi_message) (snd (created_in empty_world 0%nat))
        = (Done state', w') ->
        exists c',
          lookup_conversation w' state' cid = Some c'
          /\ updatedAt (metadata c') = time_at clock_env (Nat.pred (clock_reads w'))
          /\ (clock_reads (snd (created_in empty_world 0%nat)) < clock_reads w')%nat)
  /\ (forall cid c,
        target (ADD_MESSAGE "uuid-0" hi_message) = Some cid ->
        lookup_conversation (snd (created_in empty_world 0%nat)) 2%nat cid = Some c ->
        (forall provider,
           ADD_MESSAGE "uuid-0" hi_message = REMOVE_PROVIDER cid provider ->
           provider ∈ activeProviders c) ->
        exists state' w',
          conversationReducer clock_env parse_exported 2%nat
            (ADD_MESSAGE "uuid-0" hi_message) (snd (created_in empty_world 0%nat))
          = (Done state', w')).
Proof.
  apply (updatedAt_refreshed_and_ordered clock_env parse_exported
           (snd (created_in empty_world 0%nat)) 2%nat (ADD_MESSAGE "uuid-0" hi_message)).
  - exact clock_env_monotone.
  - apply (reach_done _ _ _ empty_world _ 0%nat _ create_nothing).
    + apply reach_empty. reflexivity.
    + exact I.
    + vm_compute. reflexivity.
Defined.

(** The scenario of the spec: a conversation is created with a title, and
    a message is added to it. *)
Example create_then_add_message :
  exists c,
    lookup_conversation
      (snd (conversationReducer clock_env parse_exported 2%nat
              (ADD_MESSAGE "uuid-0" hi_message) (snd (created_in empty_world 0%nat))))
      4%nat "uuid-0" = Some c
    /\ length (messages c) = 1%nat
    /\ "openai" ∈ activeProviders c
    /\ createdAt (metadata c) = 1000
    /\ updatedAt (metadata c) = 1002.
Proof.
  eexists. split; [vm_compute; reflexivity|].
  split; [reflexivity|]. split; [|split; reflexivity].
  apply (bool_decide_unpack _). vm_compute. exact I.
Qed.

End Refresh.

(** * Further properties of the reducer *)

Section ReducerByValue.
Variable env : Env.
Variable JSON_parse : string -> Outcome Json.

Lemma snapshot_entries (w : World) (state : loc)
    (entries : gmap string Conversation) :
  well_formed w state ->
  snapshot w state = Some entries ->
  exists m, heap w !! state = Some (OMap m)
            /\ (forall k l, m !! k = Some l -> is_Some (conv_at (heap w) l))
            /\ entries = omap (conv_at (heap w)) m.
Proof.
  intros (m & Hstate & Hwf) Hsnap. exists m. split; [exact Hstate|].
  split; [exact Hwf|]. unfold snapshot in Hsnap. rewrite Hstate in Hsnap.
  now injection Hsnap as <-.
Qed.

(** The ids and clock readings a returning run takes. *)
Lemma reducer_counters (w w' : World) (state state' : loc)
    (action : ConversationAction) :
  well_formed w state ->
  conversationReducer env JSON_parse state action w = (Done state', w') ->
  uuids_drawn w' = (uuids_drawn w + uuid_cost action)%nat
  /\ clock_reads w' = (clock_reads w + clock_cost action)%nat.
Proof.
  intros (m & Hstate & Hwf) Hrun.
  destruct (target action) as [cid|] eqn:Htarget.
  - destruct (m !! cid) as [l|] eqn:Hcid.
    + pose proof (snapshot_entry w state m cid Hstate Hwf) as Hentry.
      rewrite Hcid in Hentry. destruct Hentry as (c & Hl & _).
      rewrite (reducer_on_existing env JSON_parse w state m action cid l c
                 Htarget Hstate Hcid Hl) in Hrun.
      destruct (updated env w action c); try discriminate Hrun.
      injection Hrun as _ <-.
      destruct action; try discriminate Htarget; cbn; lia.
    + rewrite (reducer_on_missing env JSON_parse w state m action cid
                 Htarget Hstate Hcid) in Hrun. discriminate Hrun.
  - destruct action as [payload| | cid | | | | | | payload]; try discriminate Htarget.
    + rewrite (reducer_create env JSON_parse w state m payload Hstate) in Hrun.
      injection Hrun as _ <-. cbn.
      destruct (truthy_string (default "" (initialMessage payload))); lia.
    + rewrite (reducer_delete env JSON_parse w state m cid Hstate) in Hrun.
      injection Hrun as _ <-. cbn. lia.
    + rewrite reducer_import in Hrun. discriminate Hrun.
Qed.

(** A run on a well-formed state, read by value. *)
Lemma reducer_by_value (w : World) (state : loc) (action : ConversationAction)
    (entries : gmap string Conversation) :
  well_formed w state ->
  snapshot w state = Some entries ->
  match step_entries env JSON_parse w action entries with
  | Done entries' =>
      exists state' w',
        conversationReducer env JSON_parse state action w = (Done state', w')
        /\ well_formed w' state'
        /\ snapshot w' state' = Some entries'
        /\ uuids_drawn w' = (uuids_drawn w + uuid_cost action)%nat
        /\ clock_reads w' = (clock_reads w + clock_cost action)%nat
  | Raised e => conversationReducer env JSON_parse state action w = (Raised e, w)
  | Wrong => False
  end.
Proof.
  intros Hwf Hsnap.
  destruct (snapshot_entries w state entries Hwf Hsnap) as (m & Hstate & Hm & ->).
  destruct (reducer_step env JSON_parse w state m action Hstate Hm) as (_ & _ & Hstep).
  destruct (step_entries env JSON_parse w action (omap (conv_at (heap w)) m));
    [|exact Hstep|exact Hstep].
  destruct Hstep as (state' & m' & Hfst & _ & Hwf' & Hsnap' & _).
  destruct (conversationReducer env JSON_parse state action w) as [r w'] eqn:Hrun.
  cbn [fst snd] in *. subst r. exists state', w'. split; [reflexivity|].
  split; [exact Hwf'|]. split; [exact Hsnap'|].
  exact (reducer_counters w w' state state' action Hwf Hrun).
Qed.

(** The same for an action on a conversation the state holds. *)
Lemma reducer_on_entry (w : World) (state : loc) (action : ConversationAction)
    (entries : gmap string Conversation) (cid : string) (c c' : Conversation) :
  well_formed w state ->
  snapshot w state = Some entries ->
  target action = Some cid ->
  entries !! cid = Some c ->
  updated env w action c = Done c' ->
  exists state' w',
    conversationReducer env JSON_parse state action w = (Done state', w')
    /\ well_formed w' state'
    /\ snapshot w' state' = Some (<[cid := c']> entries)
    /\ lookup_conversation w' state' cid = Some c'
    /\ uuids_drawn w' = (uuids_drawn w + uuid_cost action)%nat
    /\ clock_reads w' = (clock_reads w + clock_cost action)%nat.
Proof.
  intros Hwf Hsnap Htarget Hc Hupd.
  pose proof (reducer_by_value w state action entries Hwf Hsnap) as Hrun.
  rewrite (step_entries_target env JSON_parse w action cid entries Htarget), Hc, Hupd
    in Hrun.
  destruct Hrun as (state' & w' & Hrun & Hwf' & Hsnap' & Hu & Hclock).
  exists state', w'. repeat (split; [assumption|]). split; [|split; assumption].
  unfold lookup_conversation. rewrite Hsnap'. cbn. apply lookup_insert_eq.
Qed.

End ReducerByValue.

Section ReducerActions.

Lemma lookup_conversation_Some (w : World) (state : loc) (cid : string)
    (c : Conversation) :
  lookup_conversation w state cid = Some c ->
  exists entries, snapshot w state = Some entries /\ entries !! cid = Some c.
Proof.
  unfold lookup_conversation. destruct (snapshot w state) as [entries|]; [|discriminate].
  cbn. intros H. now exists entries.
Qed.

Lemma demo_well_formed : well_formed demo_world 2%nat.
Proof.
  apply (reducer_well_formed clock_env parse_exported (CREATE_CONVERSATION demo_payload)
           empty_world _ 0%nat).
  - apply well_formed_empty. reflexivity.
  - vm_compute. reflexivity.
Qed.

Lemma demo_snapshot : snapshot demo_world 2%nat = Some demo_entries.
Proof. vm_compute. reflexivity. Qed.

Lemma demo_lookup : lookup_conversation demo_world 2%nat "uuid-0" = Some demo_conversation.
Proof. vm_compute. reflexivity. Qed.

(** X1: [REMOVE_PROVIDER] of a provider that is not active in an existing
    conversation throws [InvalidConversationOperationError] naming the
    provider and the conversation, and the world after the throw is the world
    before it: the clock was not read and [updatedAt] is as it was. *)
Theorem remove_inactive_provider_throws
    (env : Env) (JSON_parse : string -> Outcome Json)
    (w : World) (state : loc) (cid provider : string) (c : Conversation) :
  well_formed w state ->
  lookup_conversation w state cid = Some c ->
  provider ∉ activeProviders c ->
  conversationReducer env JSON_parse state (REMOVE_PROVIDER cid provider) w
  = (Raised (InvalidConversationOperationError
               ("Provider " +:+ provider +:+ " is not active in conversation " +:+ cid)),
     w).
Proof.
  intros Hwf Hlookup Hinactive.
  destruct (lookup_conversation_Some w state cid c Hlookup) as (entries & Hsnap & Hc).
  pose proof (reducer_by_value env JSON_parse w state (REMOVE_PROVIDER cid provider)
                entries Hwf Hsnap) as Hrun.
  cbn [step_entries key_of] in Hrun. rewrite Hc in Hrun. cbn [updated] in Hrun.
  now rewrite bool_decide_eq_false_2 in Hrun by exact Hinactive.
Qed.

Lemma remove_inactive_provider_throws_witness :
  conversationReducer clock_env parse_exported 2%nat (REMOVE_PROVIDER "uuid-0" "mistral")
    demo_world
  = (Raised (InvalidConversationOperationError
               ("Provider " +:+ "mistral" +:+ " is not active in conversation "
                +:+ "uuid-0")),
     demo_world).
Proof.
  apply (remove_inactive_provider_throws clock_env parse_exported demo_world 2%nat
           "uuid-0" "mistral" demo_conversation).
  - exact demo_well_formed.
  - exact demo_lookup.
  - apply (bool_decide_unpack _). vm_compute. exact I.
Defined.

(** X2: [DELETE_CONVERSATION] never throws: it returns the mapping without
    the entry under the id; when the id is not in the mapping the returned
    mapping has the same entries as the input; it draws no id and does not
    read the clock. *)
Theorem delete_conversation_removes
    (env : Env) (JSON_parse : string -> Outcome Json)
    (w : World) (state : loc) (cid : string) (entries : gmap string Conversation) :
  well_formed w state ->
  snapshot w state = Some entries ->
  exists state' w',
    conversationReducer env JSON_parse state (DELETE_CONVERSATION cid) w
    = (Done state', w')
    /\ snapshot w' state' = Some (delete cid entries)
    /\ lookup_conversation w' state' cid = None
    /\ (forall other, other <> cid ->
          lookup_conversation w' state' other = lookup_conversation w state other)
    /\ (entries !! cid = None -> snapshot w' state' = snapshot w state)
    /\ uuids_drawn w' = uuids_drawn w
    /\ clock_reads w' = clock_reads w.
Proof.
  intros Hwf Hsnap.
  destruct (reducer_by_value env JSON_parse w state (DELETE_CONVERSATION cid)
              entries Hwf Hsnap) as (state' & w' & Hrun & _ & Hsnap' & Hu & Hclock).
  exists state', w'. split; [exact Hrun|]. split; [exact Hsnap'|].
  unfold lookup_conversation. rewrite Hsnap', Hsnap. cbn.
  split; [apply lookup_delete_eq|]. split; [intros other Hne; now apply lookup_delete_ne|].
  split; [intros Hnone; now rewrite delete_id|].
  cbn in Hu, Hclock. lia.
Qed.

Lemma delete_conversation_removes_witness :
  exists state' w',
    conversationReducer clock_env parse_exported 2%nat (DELETE_CONVERSATION "uuid-0")
      demo_world
    = (Done state', w')
    /\ snapshot w' state' = Some (delete "uuid-0" demo_entries)
    /\ lookup_conversation w' state' "uuid-0" = None
    /\ (forall other, other <> "uuid-0" ->
          lookup_conversation w' state' other = lookup_conversation demo_world 2%nat other)
    /\ (demo_entries !! "uuid-0" = None -> snapshot w' state' = snapshot demo_world 2%nat)
    /\ uuids_drawn w' = uuids_drawn demo_world
    /\ clock_reads w' = clock_reads demo_world.
Proof.
  apply (delete_conversation_removes clock_env parse_exported demo_world 2%nat "uuid-0"
           demo_entries).
  - exact demo_well_formed.
  - exact demo_snapshot.
Defined.

(** X3: [CREATE_CONVERSATION] never throws: it returns the mapping with one
    entry added (or replaced) under the id [uuidv4] gave, every other entry
    as it was.  The new conversation carries that id, the payload's
    providers as its active set and both timestamps from one clock reading
    unless the payload's metadata sets them; its title is the payload's when
    the payload has one, even an empty one, and [Conversation <id>]
    otherwise; it has no message when the payload gives no initial message
    or an empty one, and otherwise exactly one [user] message with that
    text, a second generated id, the creation time and the first listed
    provider (the empty string when none is listed). *)
Theorem create_conversation_adds_entry
    (env : Env) (JSON_parse : string -> Outcome Json)
    (w : World) (state : loc) (payload : CreateConversationOptions)
    (entries : gmap string Conversation) :
  well_formed w state ->
  snapshot w state = Some entries ->
  exists state' w' c,
    conversationReducer env JSON_parse state (CREATE_CONVERSATION payload) w
    = (Done state', w')
    /\ snapshot w' state' = Some (<[uuid_at env (uuids_drawn w) := c]> entries)
    /\ (forall other, other <> uuid_at env (uuids_drawn w) ->
          lookup_conversation w' state' other = lookup_conversation w state other)
    /\ id c = uuid_at env (uuids_drawn w)
    /\ activeProviders c = list_to_set (default [] (providerIds payload))
    /\ createdAt (metadata c)
       = default (time_at env (clock_reads w)) (c_metadata payload ≫= p_createdAt)
    /\ updatedAt (metadata c)
       = default (time_at env (clock_reads w)) (c_metadata payload ≫= p_updatedAt)
    /\ title (metadata c)
       = Some (default ("Conversation " +:+ uuid_at env (uuids_drawn w))
                       (c_metadata payload ≫= p_title))
    /\ (default "" (initialMessage payload) = "" -> messages c = [])
    /\ (default "" (initialMessage payload) <> "" ->
        messages c
        = [{| message_id := uuid_at env (S (uuids_drawn w));
              role := user;
              content := {| content_type := "text";
                            content_text := default "" (initialMessage payload) |};
              timestamp := time_at env (clock_reads w);
              providerId := default "" (head (default [] (providerIds payload)));
              options := [] |}]).
Proof.
  intros Hwf Hsnap.
  destruct (reducer_by_value env JSON_parse w state (CREATE_CONVERSATION payload)
              entries Hwf Hsnap) as (state' & w' & Hrun & _ & Hsnap' & _).
  exists state', w', (created env w payload).
  split; [exact Hrun|]. split; [exact Hsnap'|]. split.
  { intros other Hne. unfold lookup_conversation. rewrite Hsnap', Hsnap. cbn.
    now apply lookup_insert_ne. }
  unfold created. cbn [id activeProviders metadata messages].
  split; [reflexivity|]. split; [reflexivity|].
  destruct (c_metadata payload) as [given|]; cbn.
  - split; [reflexivity|]. split; [reflexivity|]. split.
    + destruct (p_title given) as [t|]; reflexivity.
    + destruct (default "" (initialMessage payload)); cbn; split; congruence.
  - split; [reflexivity|]. split; [reflexivity|]. split; [reflexivity|].
    destruct (default "" (initialMessage payload)); cbn; split; congruence.
Qed.

Lemma create_conversation_adds_entry_witness :
  exists state' w' c,
    conversationReducer clock_env parse_exported 2%nat (CREATE_CONVERSATION demo_payload)
      demo_world
    = (Done state', w')
    /\ snapshot w' state' = Some (<[uuid_at clock_env (uuids_drawn demo_world) := c]>
                                    demo_entries)
    /\ (forall other, other <> uuid_at clock_env (uuids_drawn demo_world) ->
          lookup_conversation w' state' other = lookup_conversation demo_world 2%nat other)
    /\ id c = uuid_at clock_env (uuids_drawn demo_world)
    /\ activeProviders c = list_to_set (default [] (providerIds demo_payload))
    /\ createdAt (metadata c)
       = default (time_at clock_env (clock_reads demo_world))
                 (c_metadata demo_payload ≫= p_createdAt)
    /\ updatedAt (metadata c)
       = default (time_at clock_env (clock_reads demo_world))
                 (c_metadata demo_payload ≫= p_updatedAt)
    /\ title (metadata c)
       = Some (default ("Conversation " +:+ uuid_at clock_env (uuids_drawn demo_world))
                       (c_metadata demo_payload ≫= p_title))
    /\ (default "" (initialMessage demo_payload) = "" -> messages c = [])
    /\ (default "" (initialMessage demo_payload) <> "" ->
        messages c
        = [{| message_id := uuid_at clock_env (S (uuids_drawn demo_world));
              role := user;
              content := {| content_type := "text";
                            content_text := default "" (initialMessage demo_payload) |};
              timestamp := time_at clock_env (clock_reads demo_world);
              providerId := default "" (head (default [] (providerIds demo_payload)));
              options := [] |}]).
Proof.
  apply (create_conversation_adds_entry clock_env parse_exported demo_world 2%nat
           demo_payload demo_entries).
  - exact demo_well_formed.
  - exact demo_snapshot.
Defined.

End ReducerActions.

Section ReducerUpdates.

(** X4: [ADD_MESSAGE] on an existing conversation appends exactly one
    message after the ones it had; the message has the payload's role,
    content, provider and options, an id drawn from [uuidv4] and the clock's
    reading as timestamp, whatever timestamp the payload carries; the
    message's provider joins the active set; [updatedAt] is the second clock
    reading; the conversation's id, [createdAt] and title stay, and so does
    every other entry. *)
Theorem add_message_appends
    (env : Env) (JSON_parse : string -> Outcome Json)
    (w : World) (state : loc) (cid : string) (message : NewMessage) (c : Conversation) :
  well_formed w state ->
  lookup_conversation w state cid = Some c ->
  exists state' w' c',
    conversationReducer env JSON_parse state (ADD_MESSAGE cid message) w = (Done state', w')
    /\ lookup_conversation w' state' cid = Some c'
    /\ (forall other, other <> cid ->
          lookup_conversation w' state' other = lookup_conversation w state other)
    /\ messages c'
       = (messages c ++ [{| message_id := uuid_at env (uuids_drawn w);
                            role := new_role message;
                            content := new_content message;
                            timestamp := time_at env (clock_reads w);
                            providerId := new_providerId message;
                            options := new_options message |}])%list
    /\ activeProviders c' = {[new_providerId message]} ∪ activeProviders c
    /\ updatedAt (metadata c') = time_at env (S (clock_reads w))
    /\ id c' = id c
    /\ createdAt (metadata c') = createdAt (metadata c)
    /\ title (metadata c') = title (metadata c).
Proof.
  intros Hwf Hlookup.
  destruct (lookup_conversation_Some w state cid c Hlookup) as (entries & Hsnap & Hc).
  destruct (reducer_on_entry env JSON_parse w state (ADD_MESSAGE cid message) entries cid c
              _ Hwf Hsnap eq_refl Hc eq_refl)
    as (state' & w' & Hrun & _ & Hsnap' & Hlookup' & _).
  eexists state', w', _. split; [exact Hrun|]. split; [exact Hlookup'|]. split.
  { intros other Hne. unfold lookup_conversation. rewrite Hsnap', Hsnap. cbn.
    now apply lookup_insert_ne. }
  cbn. repeat split; reflexivity.
Qed.

Lemma add_message_appends_witness :
  exists state' w' c',
    conversationReducer clock_env parse_exported 2%nat (ADD_MESSAGE "uuid-0" hi_message)
      demo_world = (Done state', w')
    /\ lookup_conversation w' state' "uuid-0" = Some c'
    /\ (forall other, other <> "uuid-0" ->
          lookup_conversation w' state' other = lookup_conversation demo_world 2%nat other)
    /\ messages c'
       = (messages demo_conversation
          ++ [{| message_id := uuid_at clock_env (uuids_drawn demo_world);
                 role := new_role hi_message;
                 content := new_content hi_message;
                 timestamp := time_at clock_env (clock_reads demo_world);
                 providerId := new_providerId hi_message;
                 options := new_options hi_message |}])%list
    /\ activeProviders c' = {[new_providerId hi_message]} ∪ activeProviders demo_conversation
    /\ updatedAt (metadata c') = time_at clock_env (S (clock_reads demo_world))
    /\ id c' = id demo_conversation
    /\ createdAt (metadata c') = createdAt (metadata demo_conversation)
    /\ title (metadata c') = title (metadata demo_conversation).
Proof.
  apply (add_message_appends clock_env parse_exported demo_world 2%nat "uuid-0" hi_message
           demo_conversation).
  - exact demo_well_formed.
  - exact demo_lookup.
Defined.

(** X5: adding a provider that is already active leaves the active set as
    it is; and adding a provider that is not active and then removing it
    gives back the active set and the messages the conversation had, two
    clock readings later. *)
Theorem add_then_remove_provider
    (env : Env) (JSON_parse : string -> Outcome Json)
    (w : World) (state : loc) (cid provider : string) (c : Conversation) :
  well_formed w state ->
  lookup_conversation w state cid = Some c ->
  exists state1 w1 c1 state2 w2 c2,
    conversationReducer env JSON_parse state (ADD_PROVIDER cid provider) w
    = (Done state1, w1)
    /\ lookup_conversation w1 state1 cid = Some c1
    /\ provider ∈ activeProviders c1
    /\ (provider ∈ activeProviders c -> activeProviders c1 = activeProviders c)
    /\ conversationReducer env JSON_parse state1 (REMOVE_PROVIDER cid provider) w1
       = (Done state2, w2)
    /\ lookup_conversation w2 state2 cid = Some c2
    /\ (provider ∉ activeProviders c2)
    /\ (provider ∉ activeProviders c -> activeProviders c2 = activeProviders c)
    /\ messages c2 = messages c
    /\ id c2 = id c
    /\ updatedAt (metadata c2) = time_at env (S (clock_reads w)).
Proof.
  intros Hwf Hlookup.
  destruct (lookup_conversation_Some w state cid c Hlookup) as (entries & Hsnap & Hc).
  pose (c1 := {| id := id c;
                 messages := messages c;
                 activeProviders := {[provider]} ∪ activeProviders c;
                 metadata := touch (metadata c) (time_at env (clock_reads w)) |}).
  destruct (reducer_on_entry env JSON_parse w state (ADD_PROVIDER cid provider) entries cid c
              c1 Hwf Hsnap eq_refl Hc eq_refl)
    as (state1 & w1 & Hrun1 & Hwf1 & Hsnap1 & Hlookup1 & _ & Hclock1).
  assert (Hin : provider ∈ activeProviders c1)
    by (apply elem_of_union_l, elem_of_singleton; reflexivity).
  pose (c2 := {| id := id c1;
                 messages := messages c1;
                 activeProviders := activeProviders c1 ∖ {[provider]};
                 metadata := touch (metadata c1) (time_at env (clock_reads w1)) |}).
  assert (Hupd2 : updated env w1 (REMOVE_PROVIDER cid provider) c1 = Done c2)
    by (cbn [updated]; now rewrite bool_decide_eq_true_2 by exact Hin).
  destruct (reducer_on_entry env JSON_parse w1 state1 (REMOVE_PROVIDER cid provider)
              (<[cid := c1]> entries) cid c1 c2 Hwf1 Hsnap1 eq_refl
              (lookup_insert_eq _ _ _) Hupd2)
    as (state2 & w2 & Hrun2 & _ & _ & Hlookup2 & _).
  exists state1, w1, c1, state2, w2, c2.
  split; [exact Hrun1|]. split; [exact Hlookup1|]. split; [exact Hin|].
  split.
  { intros Hactive. cbn [c1 activeProviders]. apply subseteq_union_1_L.
    now apply singleton_subseteq_l. }
  split; [exact Hrun2|]. split; [exact Hlookup2|]. split.
  { cbn [c2 activeProviders]. apply not_elem_of_difference. right.
    now apply elem_of_singleton. }
  split.
  { intros Hinactive. cbn [c2 c1 activeProviders]. apply set_eq. intros x.
    rewrite elem_of_difference, elem_of_union, !elem_of_singleton.
    split; [intros [[->|Hx] Hne]; [congruence | exact Hx]|].
    intros Hx. split; [now right|]. intros ->. contradiction. }
  split; [reflexivity|]. split; [reflexivity|].
  cbn [c2 metadata touch updatedAt]. cbn in Hclock1. rewrite Hclock1. f_equal. lia.
Qed.

Lemma add_then_remove_provider_witness :
  exists state1 w1 c1 state2 w2 c2,
    conversationReducer clock_env parse_exported 2%nat (ADD_PROVIDER "uuid-0" "mistral")
      demo_world = (Done state1, w1)
    /\ lookup_conversation w1 state1 "uuid-0" = Some c1
    /\ "mistral" ∈ activeProviders c1
    /\ ("mistral" ∈ activeProviders demo_conversation ->
        activeProviders c1 = activeProviders demo_conversation)
    /\ conversationReducer clock_env parse_exported state1
         (REMOVE_PROVIDER "uuid-0" "mistral") w1 = (Done state2, w2)
    /\ lookup_conversation w2 state2 "uuid-0" = Some c2
    /\ ("mistral" ∉ activeProviders c2)
    /\ ("mistral" ∉ activeProviders demo_conversation ->
        activeProviders c2 = activeProviders demo_conversation)
    /\ messages c2 = messages demo_conversation
    /\ id c2 = id demo_conversation
    /\ updatedAt (metadata c2) = time_at clock_env (S (clock_reads demo_world)).
Proof.
  apply (add_then_remove_provider clock_env parse_exported demo_world 2%nat "uuid-0"
           "mistral" demo_conversation).
  - exact demo_well_formed.
  - exact demo_lookup.
Defined.

(** X6: [CLEAR_HISTORY] on an existing conversation empties its message
    sequence and keeps its id, its active providers, its [createdAt], title,
    description and extension fields; [updatedAt] is the clock's reading;
    every other entry stays; the clock is read once and no id is drawn. *)
Theorem clear_history_keeps_providers
    (env : Env) (JSON_parse : string -> Outcome Json)
    (w : World) (state : loc) (cid : string) (c : Conversation) :
  well_formed w state ->
  lookup_conversation w state cid = Some c ->
  exists state' w' c',
    conversationReducer env JSON_parse state (CLEAR_HISTORY cid) w = (Done state', w')
    /\ lookup_conversation w' state' cid = Some c'
    /\ (forall other, other <> cid ->
          lookup_conversation w' state' other = lookup_conversation w state other)
    /\ messages c' = []
    /\ activeProviders c' = activeProviders c
    /\ id c' = id c
    /\ createdAt (metadata c') = createdAt (metadata c)
    /\ updatedAt (metadata c') = time_at env (clock_reads w)
    /\ title (metadata c') = title (metadata c)
    /\ description (metadata c') = description (metadata c)
    /\ extension (metadata c') = extension (metadata c)
    /\ clock_reads w' = S (clock_reads w)
    /\ uuids_drawn w' = uuids_drawn w.
Proof.
  intros Hwf Hlookup.
  destruct (lookup_conversation_Some w state cid c Hlookup) as (entries & Hsnap & Hc).
  destruct (reducer_on_entry env JSON_parse w state (CLEAR_HISTORY cid) entries cid c
              _ Hwf Hsnap eq_refl Hc eq_refl)
    as (state' & w' & Hrun & _ & Hsnap' & Hlookup' & Hdrawn & Hclock).
  eexists state', w', _. split; [exact Hrun|]. split; [exact Hlookup'|]. split.
  { intros other Hne. unfold lookup_conversation. rewrite Hsnap', Hsnap. cbn.
    now apply lookup_insert_ne. }
  cbn in Hdrawn, Hclock. cbn.
  repeat (split; [reflexivity|]). split; lia.
Qed.

Lemma clear_history_keeps_providers_witness :
  exists state' w' c',
    conversationReducer clock_env parse_exported 2%nat (CLEAR_HISTORY "uuid-0") demo_world
    = (Done state', w')
    /\ lookup_conversation w' state' "uuid-0" = Some c'
    /\ (forall other, other <> "uuid-0" ->
          lookup_conversation w' state' other = lookup_conversation demo_world 2%nat other)
    /\ messages c' = []
    /\ activeProviders c' = activeProviders demo_conversation
    /\ id c' = id demo_conversation
    /\ createdAt (metadata c') = createdAt (metadata demo_conversation)
    /\ updatedAt (metadata c') = time_at clock_env (clock_reads demo_world)
    /\ title (metadata c') = title (metadata demo_conversation)
    /\ description (metadata c') = description (metadata demo_conversation)
    /\ extension (metadata c') = extension (metadata demo_conversation)
    /\ clock_reads w' = S (clock_reads demo_world)
    /\ uuids_drawn w' = uuids_drawn demo_world.
Proof.
  apply (clear_history_keeps_providers clock_env parse_exported demo_world 2%nat "uuid-0"
           demo_conversation).
  - exact demo_well_formed.
  - exact demo_lookup.
Defined.

(** X7: [SET_METADATA] on an existing conversation merges the payload into
    the metadata field by field: a title or description the payload has
    replaces the old one and an absent one keeps it; an extension field of
    the payload replaces the old field of that name and the other old fields
    stay; [updatedAt] is the clock's reading even when the payload carries
    one, whereas a [createdAt] of the payload is taken; messages, providers
    and id are untouched. *)
Theorem set_metadata_merges
    (env : Env) (JSON_parse : string -> Outcome Json)
    (w : World) (state : loc) (cid : string) (given : PartialMetadata) (c : Conversation) :
  well_formed w state ->
  lookup_conversation w state cid = Some c ->
  exists state' w' c',
    conversationReducer env JSON_parse state (SET_METADATA cid given) w = (Done state', w')
    /\ lookup_conversation w' state' cid = Some c'
    /\ updatedAt (metadata c') = time_at env (clock_reads w)
    /\ createdAt (metadata c') = default (createdAt (metadata c)) (p_createdAt given)
    /\ title (metadata c')
       = match p_title given with Some t => Some t | None => title (metadata c) end
    /\ description (metadata c')
       = match p_description given with
         | Some d => Some d
         | None => description (metadata c)
         end
    /\ (forall k,
          extension (metadata c') !! k
          = match p_extension given !! k with
            | Some v => Some v
            | None => extension (metadata c) !! k
            end)
    /\ messages c' = messages c
    /\ activeProviders c' = activeProviders c
    /\ id c' = id c.
Proof.
  intros Hwf Hlookup.
  destruct (lookup_conversation_Some w state cid c Hlookup) as (entries & Hsnap & Hc).
  destruct (reducer_on_entry env JSON_parse w state (SET_METADATA cid given) entries cid c
              _ Hwf Hsnap eq_refl Hc eq_refl)
    as (state' & w' & Hrun & _ & _ & Hlookup' & _).
  eexists state', w', _. split; [exact Hrun|]. split; [exact Hlookup'|].
  cbn. split; [reflexivity|]. split; [reflexivity|].
  split; [reflexivity|]. split; [reflexivity|].
  split; [|repeat split; reflexivity].
  intros k. rewrite lookup_union.
  destruct (p_extension given !! k), (extension (metadata c) !! k); reflexivity.
Qed.

Lemma set_metadata_merges_witness :
  exists state' w' c',
    conversationReducer clock_env parse_exported 2%nat (SET_METADATA "uuid-0" retitle)
      demo_world = (Done state', w')
    /\ lookup_conversation w' state' "uuid-0" = Some c'
    /\ updatedAt (metadata c') = time_at clock_env (clock_reads demo_world)
    /\ createdAt (metadata c')
       = default (createdAt (metadata demo_conversation)) (p_createdAt retitle)
    /\ title (metadata c')
       = match p_title retitle with
         | Some t => Some t
         | None => title (metadata demo_conversation)
         end
    /\ description (metadata c')
       = match p_description retitle with
         | Some d => Some d
         | None => description (metadata demo_conversation)
         end
    /\ (forall k,
          extension (metadata c') !! k
          = match p_extension retitle !! k with
            | Some v => Some v
            | None => extension (metadata demo_conversation) !! k
            end)
    /\ messages c' = messages demo_conversation
    /\ activeProviders c' = activeProviders demo_conversation
    /\ id c' = id demo_conversation.
Proof.
  apply (set_metadata_merges clock_env parse_exported demo_world 2%nat "uuid-0" retitle
           demo_conversation).
  - exact demo_well_formed.
  - exact demo_lookup.
Defined.

End ReducerUpdates.

Section ReducerInvariants.

(** What holds of the empty mapping and is kept by every allowed action
    holds in every state a store reaches. *)
Lemma reachable_invariant (env : Env) (JSON_parse : string -> Outcome Json)
    (allowed : ConversationAction -> Prop)
    (P : World -> gmap string Conversation -> Prop) :
  (forall w, P w ∅) ->
  (forall w w' action entries entries',
     allowed action ->
     P w entries ->
     step_entries env JSON_parse w action entries = Done entries' ->
     uuids_drawn w' = (uuids_drawn w + uuid_cost action)%nat ->
     clock_reads w' = (clock_reads w + clock_cost action)%nat ->
     P w' entries') ->
  forall w state,
    reachable env JSON_parse allowed w state ->
    well_formed w state
    /\ exists entries, snapshot w state = Some entries /\ P w entries.
Proof.
  intros Hempty Hstep w state Hreach.
  induction Hreach as [w state Hstate
                      | w w' state state' action _ IH Hallowed Hrun
                      | w w' state action e _ IH Hallowed Hrun].
  - split; [now apply well_formed_empty|]. exists ∅. split; [|apply Hempty].
    unfold snapshot. rewrite Hstate. now rewrite omap_empty.
  - destruct IH as (Hwf & entries & Hsnap & HP).
    pose proof (reducer_by_value env JSON_parse w state action entries Hwf Hsnap) as Hval.
    destruct (step_entries env JSON_parse w action entries) as [entries'| |] eqn:Hentries.
    + destruct Hval as (s & w0 & Hrun0 & Hwf' & Hsnap' & Hu & Hclock).
      rewrite Hrun in Hrun0. injection Hrun0 as <- <-.
      split; [exact Hwf'|]. exists entries'. split; [exact Hsnap'|].
      exact (Hstep w w' action entries entries' Hallowed HP Hentries Hu Hclock).
    + rewrite Hrun in Hval. discriminate Hval.
    + contradiction.
  - destruct IH as (Hwf & entries & Hsnap & HP).
    pose proof (reducer_by_value env JSON_parse w state action entries Hwf Hsnap) as Hval.
    destruct (step_entries env JSON_parse w action entries).
    + destruct Hval as (s & w0 & Hrun0 & _). rewrite Hrun in Hrun0. discriminate Hrun0.
    + rewrite Hrun in Hval. injection Hval as _ ->. split; [exact Hwf|]. now exists entries.
    + contradiction.
Qed.

Lemma updated_keeps_id (env : Env) (w : World) (action : ConversationAction)
    (c c' : Conversation) :
  keeps_id action -> updated env w action c = Done c' -> id c' = id c.
Proof.
  intros Hkeeps Hupd. destruct action; cbn in Hupd, Hkeeps; try discriminate Hupd;
    try (injection Hupd as <-; cbn; now rewrite ?Hkeeps).
  case_bool_decide; [|discriminate Hupd]. now injection Hupd as <-.
Qed.

Lemma step_keyed_by_id (env : Env) (JSON_parse : string -> Outcome Json) (w : World)
    (action : ConversationAction) (entries entries' : gmap string Conversation) :
  keeps_id action ->
  keyed_by_id entries ->
  step_entries env JSON_parse w action entries = Done entries' ->
  keyed_by_id entries'.
Proof.
  intros Hkeeps Hkeyed Hstep.
  destruct (target action) as [tid|] eqn:Htarget.
  - rewrite (step_entries_target env JSON_parse w action tid entries Htarget) in Hstep.
    destruct (entries !! tid) as [c|] eqn:Hc; [|discriminate Hstep].
    destruct (updated env w action c) as [c'| |] eqn:Hupd; try discriminate Hstep.
    injection Hstep as <-. intros cid c0 Hc0.
    destruct (decide (tid = cid)) as [->|Hne].
    + rewrite lookup_insert_eq in Hc0. injection Hc0 as <-.
      rewrite (updated_keeps_id env w action c c' Hkeeps Hupd). now apply Hkeyed.
    + rewrite lookup_insert_ne in Hc0 by exact Hne. now apply Hkeyed.
  - destruct action as [payload| | tid | | | | | | payload]; try discriminate Htarget;
      cbn [step_entries] in Hstep; try discriminate Hstep; injection Hstep as <-;
      intros cid c0 Hc0.
    + destruct (decide (uuid_at env (uuids_drawn w) = cid)) as [<-|Hne].
      * rewrite lookup_insert_eq in Hc0. now injection Hc0 as <-.
      * rewrite lookup_insert_ne in Hc0 by exact Hne. now apply Hkeyed.
    + apply lookup_delete_Some in Hc0 as [_ Hc0]. now apply Hkeyed.
Qed.

(** X8: in every state a store reaches from the empty mapping by actions
    none of which is an [UPDATE_CONVERSATION] that sets [id], every
    conversation is stored under its own id. *)
Theorem entries_keyed_by_id
    (env : Env) (JSON_parse : string -> Outcome Json)
    (w : World) (state : loc) (cid : string) (c : Conversation) :
  reachable env JSON_parse keeps_id w state ->
  lookup_conversation w state cid = Some c ->
  id c = cid.
Proof.
  intros Hreach Hlookup.
  destruct (reachable_invariant env JSON_parse keeps_id (fun _ => keyed_by_id)) with
    (w := w) (state := state) as (_ & entries & Hsnap & Hkeyed).
  - intros _ k c0 Hc0. now rewrite lookup_empty in Hc0.
  - intros w0 _ action entries entries' Hallowed Hkeyed Hstep _ _.
    exact (step_keyed_by_id env JSON_parse w0 action entries entries' Hallowed Hkeyed Hstep).
  - exact Hreach.
  - unfold lookup_conversation in Hlookup. rewrite Hsnap in Hlookup. now apply Hkeyed.
Qed.

Lemma demo_reachable (allowed : ConversationAction -> Prop) :
  allowed (CREATE_CONVERSATION demo_payload) ->
  reachable clock_env parse_exported allowed demo_world 2%nat.
Proof.
  intros Hallowed.
  apply (reach_done _ _ _ empty_world _ 0%nat _ (CREATE_CONVERSATION demo_payload)).
  - apply reach_empty. reflexivity.
  - exact Hallowed.
  - vm_compute. reflexivity.
Qed.

Lemma entries_keyed_by_id_witness : id demo_conversation = "uuid-0".
Proof.
  apply (entries_keyed_by_id clock_env parse_exported demo_world 2%nat "uuid-0"
           demo_conversation).
  - apply demo_reachable. exact I.
  - exact demo_lookup.
Defined.

(** An [UPDATE_CONVERSATION] that sets [id] leaves the entry under its old
    key, with the new id inside. *)
Example update_id_leaves_key :
  exists state' w' c',
    conversationReducer clock_env parse_exported 2%nat
      (UPDATE_CONVERSATION "uuid-0"
         {| u_id := Some "renamed"; u_messages := None; u_metadata := None;
            u_activeProviders := None |})
      demo_world = (Done state', w')
    /\ lookup_conversation w' state' "uuid-0" = Some c'
    /\ id c' = "renamed"
    /\ lookup_conversation w' state' "renamed" = None.
Proof.
  eexists _, _, _. split; [vm_compute; reflexivity|].
  split; [vm_compute; reflexivity|]. split; reflexivity.
Qed.

End ReducerInvariants.

Section MessageIds.
Variable env : Env.
Variable JSON_parse : string -> Outcome Json.
Hypothesis ids_distinct : distinct_ids env.

Lemma reducer_assigned_weaken (w w' : World) (c : Conversation) :
  (uuids_drawn w <= uuids_drawn w')%nat ->
  (NoDup (message_ids c)
   /\ forall mid, mid ∈ message_ids c ->
                  exists i : nat, (i < uuids_drawn w)%nat /\ mid = uuid_at env i) ->
  NoDup (message_ids c)
  /\ forall mid, mid ∈ message_ids c ->
                 exists i : nat, (i < uuids_drawn w')%nat /\ mid = uuid_at env i.
Proof.
  intros Hle [Hnodup Hdrawn]. split; [exact Hnodup|].
  intros mid Hmid. destruct (Hdrawn mid Hmid) as (i & Hi & ->). exists i. split; [lia | reflexivity].
Qed.

Lemma updated_message_ids (w : World) (action : ConversationAction) (c c' : Conversation) :
  keeps_messages action ->
  updated env w action c = Done c' ->
  message_ids c' = message_ids c
  \/ message_ids c' = []
  \/ message_ids c' = (message_ids c ++ [uuid_at env (uuids_drawn w)])%list
     /\ uuid_cost action = 1%nat.
Proof.
  intros Hkeeps Hupd. unfold message_ids.
  destruct action; cbn in Hupd, Hkeeps; try discriminate Hupd.
  - injection Hupd as <-. cbn. rewrite Hkeeps. now left.
  - injection Hupd as <-. cbn. right. right. split; [|reflexivity].
    now rewrite map_app.
  - injection Hupd as <-. now left.
  - injection Hupd as <-. now left.
  - case_bool_decide; [|discriminate Hupd]. injection Hupd as <-. now left.
  - injection Hupd as <-. right. now left.
Qed.

Lemma step_reducer_assigned (w w' : World) (action : ConversationAction)
    (entries entries' : gmap string Conversation) :
  keeps_messages action ->
  reducer_assigned env w entries ->
  step_entries env JSON_parse w action entries = Done entries' ->
  uuids_drawn w' = (uuids_drawn w + uuid_cost action)%nat ->
  reducer_assigned env w' entries'.
Proof.
  intros Hkeeps Hassigned Hstep Hu.
  assert (Hle : (uuids_drawn w <= uuids_drawn w')%nat) by lia.
  assert (Hold : forall cid c, entries !! cid = Some c ->
            NoDup (message_ids c)
            /\ forall mid, mid ∈ message_ids c ->
                 exists i : nat, (i < uuids_drawn w')%nat /\ mid = uuid_at env i).
  { intros cid c Hc. apply (reducer_assigned_weaken w w' c Hle). now apply (Hassigned cid). }
  destruct (target action) as [tid|] eqn:Htarget.
  - rewrite (step_entries_target env JSON_parse w action tid entries Htarget) in Hstep.
    destruct (entries !! tid) as [c|] eqn:Hc; [|discriminate Hstep].
    destruct (updated env w action c) as [c'| |] eqn:Hupd; try discriminate Hstep.
    injection Hstep as <-. intros cid c0 Hc0.
    destruct (decide (tid = cid)) as [->|Hne];
      [|rewrite lookup_insert_ne in Hc0 by exact Hne; now apply (Hold cid)].
    rewrite lookup_insert_eq in Hc0. injection Hc0 as <-.
    destruct (Hassigned cid c Hc) as [Hnodup Hdrawn].
    destruct (updated_message_ids w action c c' Hkeeps Hupd) as [-> | [-> | [-> Hcost]]].
    + now apply (Hold cid).
    + split; [constructor|]. intros mid Hmid. now apply elem_of_nil in Hmid.
    + split.
      * apply NoDup_app. split; [exact Hnodup|]. split; [|apply NoDup_singleton].
        intros mid Hmid Hnew. apply list_elem_of_singleton in Hnew.
        destruct (Hdrawn mid Hmid) as (i & Hi & Hmid_i). rewrite Hmid_i in Hnew.
        apply ids_distinct in Hnew. lia.
      * intros mid Hmid. apply elem_of_app in Hmid as [Hmid|Hmid].
        -- destruct (Hdrawn mid Hmid) as (i & Hi & ->). exists i. split; [lia | reflexivity].
        -- apply list_elem_of_singleton in Hmid as ->. exists (uuids_drawn w).
           split; [lia | reflexivity].
  - destruct action as [payload| | tid | | | | | | payload]; try discriminate Htarget;
      cbn [step_entries] in Hstep; try discriminate Hstep; injection Hstep as <-;
      intros cid c0 Hc0.
    + destruct (decide (uuid_at env (uuids_drawn w) = cid)) as [<-|Hne];
        [|rewrite lookup_insert_ne in Hc0 by exact Hne; now apply (Hold cid)].
      rewrite lookup_insert_eq in Hc0. injection Hc0 as <-.
      unfold message_ids, created. cbn [messages]. cbn [uuid_cost] in Hu.
      destruct (truthy_string (default "" (initialMessage payload))); cbn [map message_id].
      * split; [apply NoDup_singleton|]. intros mid Hmid.
        apply list_elem_of_singleton in Hmid as ->. exists (S (uuids_drawn w)).
        split; [lia | reflexivity].
      * split; [constructor|]. intros mid Hmid. now apply elem_of_nil in Hmid.
    + apply lookup_delete_Some in Hc0 as [_ Hc0]. now apply (Hold cid).
Qed.

Lemma reachable_reducer_assigned (w : World) (state : loc) :
  reachable env JSON_parse keeps_messages w state ->
  exists entries, snapshot w state = Some entries /\ reducer_assigned env w entries.
Proof.
  intros Hreach.
  destruct (reachable_invariant env JSON_parse keeps_messages (reducer_assigned env)) with
    (w := w) (state := state) as (_ & entries & Hsnap & Hassigned).
  - intros w0 cid c Hc. now rewrite lookup_empty in Hc.
  - intros w0 w1 action entries entries' Hallowed Hassigned Hstep Hu _.
    exact (step_reducer_assigned w0 w1 action entries entries' Hallowed Hassigned Hstep Hu).
  - exact Hreach.
  - now exists entries.
Qed.

End MessageIds.

Section MessageIdsUnique.

(** X9: when [uuidv4] never repeats an id, in every state a store reaches
    from the empty mapping by actions none of which is an
    [UPDATE_CONVERSATION] that sets [messages], the message ids within a
    conversation are pairwise distinct and each of them is an id the reducer
    drew from [uuidv4]. *)
Theorem message_ids_unique
    (env : Env) (JSON_parse : string -> Outcome Json)
    (w : World) (state : loc) (cid : string) (c : Conversation) :
  distinct_ids env ->
  reachable env JSON_parse keeps_messages w state ->
  lookup_conversation w state cid = Some c ->
  NoDup (message_ids c)
  /\ forall mid, mid ∈ message_ids c ->
                 exists i : nat, (i < uuids_drawn w)%nat /\ mid = uuid_at env i.
Proof.
  intros Hdistinct Hreach Hlookup.
  destruct (reachable_reducer_assigned env JSON_parse Hdistinct w state Hreach)
    as (entries & Hsnap & Hassigned).
  unfold lookup_conversation in Hlookup. rewrite Hsnap in Hlookup.
  now apply (Hassigned cid).
Qed.

Lemma append_inj_l (p a b : string) : p +:+ a = p +:+ b -> a = b.
Proof.
  induction p as [|x p IH]; [now rewrite !append_nil_l|].
  rewrite !append_cons. intros [= H]. now apply IH.
Qed.

Lemma clock_env_distinct : distinct_ids clock_env.
Proof.
  intros i j H. cbn in H. apply append_inj_l in H. now apply pretty_nat_inj in H.
Qed.

Lemma message_ids_unique_witness :
  NoDup (message_ids demo_conversation)
  /\ forall mid, mid ∈ message_ids demo_conversation ->
                 exists i : nat, (i < uuids_drawn demo_world)%nat
                                 /\ mid = uuid_at clock_env i.
Proof.
  apply (message_ids_unique clock_env parse_exported demo_world 2%nat "uuid-0"
           demo_conversation).
  - exact clock_env_distinct.
  - apply demo_reachable. exact I.
  - exact demo_lookup.
Defined.

End MessageIdsUnique.

Section ReducerThrows.

Lemma well_formed_snapshot (w : World) (state : loc) :
  well_formed w state -> exists entries, snapshot w state = Some entries.
Proof. intros (m & Hstate & _). unfold snapshot. rewrite Hstate. eauto. Qed.

Lemma step_entries_raised (env : Env) (JSON_parse : string -> Outcome Json) (w : World)
    (action : ConversationAction) (entries : gmap string Conversation) (e : Thrown) :
  step_entries env JSON_parse w action entries = Raised e ->
  is_conversation_error e = true.
Proof.
  intros Hstep.
  destruct (target action) as [tid|] eqn:Htarget.
  - rewrite (step_entries_target env JSON_parse w action tid entries Htarget) in Hstep.
    destruct (entries !! tid) as [c|]; [|now injection Hstep as <-].
    destruct action; try discriminate Htarget; cbn in Hstep; try discriminate Hstep.
    case_bool_decide; [discriminate Hstep|]. now injection Hstep as <-.
  - destruct action; try discriminate Htarget; cbn in Hstep; try discriminate Hstep.
    now injection Hstep as <-.
Qed.

(** X10: on a state as typed code has it, the reducer returns a state or
    throws one of [ConversationNotFoundError],
    [InvalidConversationOperationError] and [ConversationError]; and when it
    throws, the world is the one before the call: no object was made or
    changed, no id drawn and the clock not read. *)
Theorem reducer_throws_without_effect
    (env : Env) (JSON_parse : string -> Outcome Json)
    (w : World) (state : loc) (action : ConversationAction) :
  well_formed w state ->
  (exists state' w',
     conversationReducer env JSON_parse state action w = (Done state', w')
     /\ well_formed w' state')
  \/ (exists e,
        conversationReducer env JSON_parse state action w = (Raised e, w)
        /\ is_conversation_error e = true).
Proof.
  intros Hwf. destruct (well_formed_snapshot w state Hwf) as [entries Hsnap].
  pose proof (reducer_by_value env JSON_parse w state action entries Hwf Hsnap) as Hval.
  destruct (step_entries env JSON_parse w action entries) as [entries'|e|] eqn:Hstep.
  - destruct Hval as (state' & w' & Hrun & Hwf' & _). left. now exists state', w'.
  - right. exists e. split; [exact Hval|].
    exact (step_entries_raised env JSON_parse w action entries e Hstep).
  - contradiction.
Qed.

Lemma reducer_throws_without_effect_witness :
  (exists state' w',
     conversationReducer clock_env parse_exported 2%nat
       (REMOVE_PROVIDER "uuid-0" "mistral") demo_world = (Done state', w')
     /\ well_formed w' state')
  \/ (exists e,
        conversationReducer clock_env parse_exported 2%nat
          (REMOVE_PROVIDER "uuid-0" "mistral") demo_world = (Raised e, demo_world)
        /\ is_conversation_error e = true).
Proof.
  apply (reducer_throws_without_effect clock_env parse_exported demo_world 2%nat
           (REMOVE_PROVIDER "uuid-0" "mistral")).
  exact demo_well_formed.
Defined.

End ReducerThrows.

(** * Further properties of the import check *)

Section Validation.

Lemma isValidConversation_object (fields : list (string * JsValue)) :
  isValidConversation (JObject fields)
  = Returns
      (String.eqb (typeof (default JUndefined (assoc "id" fields))) "string"
       && isArray (default JUndefined (assoc "messages" fields))
       && String.eqb (typeof (default JUndefined (assoc "metadata" fields))) "object"
       && instanceof_Set (default JUndefined (assoc "activeProviders" fields))).
Proof.
  unfold isValidConversation. cbn [typeof String.eqb negb get Js.bind].
  change (String.eqb "object" "object") with true. cbn [negb Js.bind].
  destruct (String.eqb (typeof (default JUndefined (assoc "id" fields))) "string");
    [|reflexivity].
  destruct (isArray (default JUndefined (assoc "messages" fields))); [|reflexivity].
  destruct (String.eqb (typeof (default JUndefined (assoc "metadata" fields))) "object");
    reflexivity.
Qed.

(** X11: [isValidConversation] answers [true] exactly for an object whose
    [id] is a string, whose [messages] is an array, whose [metadata] has
    type [object] (which [null] and arrays have as well) and whose
    [activeProviders] is a [Set]; for [null] it throws a [TypeError], since
    [typeof null] is [object] and the next read is [null.id]; for every
    other value it answers, without throwing. *)
Theorem isValidConversation_characterized (data : JsValue) :
  (isValidConversation data = Returns true <->
   exists fields s items v members,
     data = JObject fields
     /\ assoc "id" fields = Some (JString s)
     /\ assoc "messages" fields = Some (JArray items)
     /\ assoc "metadata" fields = Some v /\ typeof v = "object"
     /\ assoc "activeProviders" fields = Some (JSet members))
  /\ isValidConversation JNull
     = Throws (TypeError "Cannot read properties of null (reading 'id')")
  /\ (data <> JNull -> exists answer, isValidConversation data = Returns answer).
Proof.
  split; [|split; [reflexivity|]].
  - split.
    + destruct data as [| | | | | |fields|]; try discriminate.
      rewrite isValidConversation_object. intros [= H].
      apply andb_prop in H as [H Hproviders]. apply andb_prop in H as [H Hmetadata].
      apply andb_prop in H as [Hid Hmessages].
      destruct (assoc "id" fields) as [[| | | |s| | |]|] eqn:Eid; try discriminate Hid.
      destruct (assoc "messages" fields) as [[| | | | |items| |]|] eqn:Emessages;
        try discriminate Hmessages.
      destruct (assoc "metadata" fields) as [v|] eqn:Emetadata; [|discriminate Hmetadata].
      destruct (assoc "activeProviders" fields) as [[| | | | | | |members]|] eqn:Eproviders;
        try discriminate Hproviders.
      exists fields, s, items, v, members. repeat (split; [reflexivity|]).
      now apply String.eqb_eq in Hmetadata.
    + intros (fields & s & items & v & members & -> & Hid & Hmessages & Hmetadata
              & Htype & Hproviders).
      rewrite isValidConversation_object, Hid, Hmessages, Hmetadata, Hproviders.
      change (typeof (default JUndefined (Some v))) with (typeof v).
      rewrite Htype. reflexivity.
  - intros Hnot_null. destruct data as [| | | | | |fields|]; try (eexists; reflexivity).
    + congruence.
    + rewrite isValidConversation_object. eexists. reflexivity.
Qed.

(** A conversation object held in memory, with its [Set], passes; the same
    with [metadata: null] passes too. *)
Example isValidConversation_null_metadata :
  isValidConversation
    (JObject [("id", JString "c1"); ("messages", JArray []); ("metadata", JNull);
              ("activeProviders", JSet [JString "openai"])])
  = Returns true.
Proof. reflexivity. Qed.

End Validation.

(** * Further properties of the OpenAI adapter *)

Section OpenAIRequests.

Lemma openai_formatMessages_cons (message : JsValue) (rest : list JsValue) :
  OpenAI.formatMessages (message :: rest)
  = Js.bind (OpenAI.formatMessage message)
      (fun m => Js.bind (OpenAI.formatMessages rest) (fun ms => Returns (m :: ms))).
Proof. reflexivity. Qed.

Lemma openai_formatMessages_data (turns : list (string * string)) :
  OpenAI.formatMessages (data_messages turns) = Returns (map wire_of turns).
Proof.
  induction turns as [|[role s] turns IH]; [reflexivity|].
  change (data_messages ((role, s) :: turns))
    with (data_message role s :: data_messages turns).
  rewrite openai_formatMessages_cons, openai_format_data_message, IH. reflexivity.
Qed.

Lemma openai_formatted_request (options : LLMOptions) (turns : list (string * string)) :
  OpenAI.formatMessages (OpenAI.withSystemMessage options (data_messages turns))
  = Returns (OpenAI.req_messages (openai_request options turns)).
Proof.
  unfold OpenAI.withSystemMessage, openai_request. cbn [OpenAI.req_messages].
  destruct (opt_systemMessage options) as [[|c s]|]; cbn [truthy_string andb];
    try apply openai_formatMessages_data.
  change (0 <? String.length (String c s))%nat with true. cbn iota.
  change (OpenAI.createSystemMessage (String c s))
    with (data_message "system" (String c s)).
  rewrite openai_formatMessages_cons, openai_format_data_message,
    openai_formatMessages_data.
  reflexivity.
Qed.

(** X12: for messages of the shape the OpenAI adapter reads,
    [generateChatCompletion] calls the backend with exactly this request:
    the system message of the options first when it is not empty, then one
    wire message per message, in order, with its role and text; the model
    [gpt-4o-mini] and the limit of 4096 tokens when the options give none
    (or a limit of 0).  A failure of the call goes through [handleError];
    its result gives the response, whose model is the request's, whose text
    is the first choice's content (empty when there is none) and whose
    finish reason is the first choice's. *)
Theorem openai_chat_request
    (create : OpenAI.ChatRequest -> Outcome OpenAI.ChatCompletion)
    (turns : list (string * string)) (options : LLMOptions) :
  (forall e,
     create (openai_request options turns) = Throws e ->
     OpenAI.generateChatCompletion create (data_messages turns) options
     = OpenAI.handleError e)
  /\ (forall completion,
        create (openai_request options turns) = Returns completion ->
        exists r,
          OpenAI.generateChatCompletion create (data_messages turns) options = Returns r
          /\ model r = OpenAI.req_model (openai_request options turns)
          /\ text r = or_default (head (OpenAI.choices completion)
                                  ≫= OpenAI.choice_content) ""
          /\ finishReason r = head (OpenAI.choices completion)
                              ≫= OpenAI.choice_finish_reason)
  /\ OpenAI.req_messages (openai_request system_options sample_turns)
     = [wire_of ("system", "Answer in French"); wire_of ("user", "Hi");
        wire_of ("assistant", "  "); wire_of ("system", "Be brief")]
  /\ OpenAI.req_model (openai_request system_options sample_turns) = "gpt-4o-mini"
  /\ OpenAI.req_max_tokens (openai_request system_options sample_turns) = 4096.
Proof.
  split; [|split; [|repeat split]].
  - intros e He. unfold OpenAI.generateChatCompletion.
    rewrite openai_formatted_request. cbn [Js.bind].
    change {| OpenAI.req_model := or_default (opt_model options) OpenAI.DEFAULT_MODEL;
              OpenAI.req_messages := OpenAI.req_messages (openai_request options turns);
              OpenAI.req_max_tokens :=
                or_number (opt_maxTokens options) OpenAI.DEFAULT_MAX_TOKENS |}
      with (openai_request options turns).
    rewrite He. reflexivity.
  - intros completion Hcompletion. unfold OpenAI.generateChatCompletion.
    rewrite openai_formatted_request. cbn [Js.bind].
    change {| OpenAI.req_model := or_default (opt_model options) OpenAI.DEFAULT_MODEL;
              OpenAI.req_messages := OpenAI.req_messages (openai_request options turns);
              OpenAI.req_max_tokens :=
                or_number (opt_maxTokens options) OpenAI.DEFAULT_MAX_TOKENS |}
      with (openai_request options turns).
    rewrite Hcompletion. cbn [Js.bind try_catch].
    eexists. split; [reflexivity|]. repeat split.
Qed.

End OpenAIRequests.

Section OpenAIStreaming.






Example openai_stream_throttled :
  omap chunk_text
    (chunks (OpenAI.streamChatCompletion throttled_stream (data_messages sample_turns)
               system_options))
  = ["Bon"; "jour"]
  /\ finished (OpenAI.streamChatCompletion throttled_stream (data_messages sample_turns)
                 system_options)
     = Throws (RateLimitError "Rate limit exceeded for OpenAI" "OpenAI").
Proof. split; reflexivity. Qed.


(** X15: [generateEmbedding] asks the backend for the requested model, or
    [text-embedding-3-small] when none is given; when the backend gives
    vectors it returns them all, the first one also as [embedding]; when
    the backend gives no data or an empty list it fails with
    [InvalidRequestError] (the [No embedding generated] error, reclassified
    by the handler). *)
Theorem openai_embedding_result
    (Number : Type)
    (create : string -> string -> Outcome (option (list (list Number))))
    (input : OpenAI.EmbeddingRequestParams) (data : option (list (list Number))) :
  create (or_default (OpenAI.embedding_model input) "text-embedding-3-small")
         (OpenAI.embedding_content input) = Returns data ->
  match data with
  | Some (first :: rest) =>
      OpenAI.generateEmbedding Number create input
      = Returns {| OpenAI.embedding := first; OpenAI.embeddings := first :: rest |}
  | _ =>
      OpenAI.generateEmbedding Number create input
      = Throws (InvalidRequestError "Unexpected error: No embedding generated" "OpenAI")
  end.
Proof.
  intros Hcreate. unfold OpenAI.generateEmbedding.
  change OpenAI.DEFAULT_EMBEDDING_MODEL with "text-embedding-3-small".
  rewrite Hcreate. destruct data as [[|first rest]|]; reflexivity.
Qed.

Lemma openai_embedding_result_witness :
  OpenAI.generateEmbedding Z two_vectors
    {| OpenAI.embedding_content := "Hello, world!"; OpenAI.embedding_model := None |}
  = Returns {| OpenAI.embedding := [1; 2]; OpenAI.embeddings := [[1; 2]; [3; 4]] |}.
Proof.
  apply (openai_embedding_result Z two_vectors
           {| OpenAI.embedding_content := "Hello, world!"; OpenAI.embedding_model := None |}
           (Some [[1; 2]; [3; 4]])).
  reflexivity.
Defined.

End OpenAIStreaming.

(** * Further properties of the Bedrock adapter *)

Section AnthropicMessages.




End AnthropicMessages.

(** * Further properties of the Google adapter *)

Section GoogleConstruction.

(** X17: the Google adapter is constructed with the key it is given, or,
    when it is given none, with the [GOOGLE_API_KEY] of the environment, and
    [getKey] then returns that key; an empty key that is given is not
    replaced by the environment's and fails the construction with
    [AuthenticationError], as does an environment without the variable or
    with an empty one. *)
Theorem google_constructor_key
    (models : gmap string Google.GoogleModelConfig)
    (key : option string) (env : gmap string string) :
  (forall k,
     key = Some k -> k <> "" ->
     exists this,
       Google.constructor models key env = Returns this
       /\ Google.getKey this = Returns k
       /\ Google.availableModels this = models)
  /\ (key = Some "" ->
      Google.constructor models key env
      = Throws (AuthenticationError "Google API key GOOGLE_API_KEY is required" "Google"))
  /\ (forall k,
        key = None -> env !! "GOOGLE_API_KEY" = Some k -> k <> "" ->
        exists this,
          Google.constructor models key env = Returns this
          /\ Google.getKey this = Returns k
          /\ Google.availableModels this = models)
  /\ (key = None ->
      env !! "GOOGLE_API_KEY" = None \/ env !! "GOOGLE_API_KEY" = Some "" ->
      Google.constructor models key env
      = Throws (AuthenticationError "Google API key GOOGLE_API_KEY is required" "Google")).
Proof.
  split; [|split; [|split]].
  - intros k -> Hk. destruct k as [|c k]; [congruence|].
    eexists. split; [reflexivity|]. split; reflexivity.
  - intros ->. reflexivity.
  - intros k -> Henv Hk. destruct k as [|c k]; [congruence|].
    unfold Google.constructor. rewrite Henv.
    eexists. split; [reflexivity|]. split; reflexivity.
  - intros -> [Henv|Henv]; unfold Google.constructor; rewrite Henv; reflexivity.
Qed.

End GoogleConstruction.

Section GoogleRequests.
Variable DEFAULT_GOOGLE_MODEL : string.

Lemma includes_append_r (a b needle : string) :
  includes b needle = true -> includes (a +:+ b) needle = true.
Proof.
  intros Hb. induction a as [|c a IH]; [exact Hb|].
  rewrite append_cons, includes_unfold, IH. apply orb_true_r.
Qed.

Lemma prefix_append (needle a b : string) :
  String.prefix needle a = true -> String.prefix needle (a +:+ b) = true.
Proof.
  revert a. induction needle as [|c needle IH]; intros a H.
  - now destruct (a +:+ b).
  - destruct a as [|d a]; [discriminate|]. rewrite append_cons. simpl in *.
    destruct (Ascii.ascii_dec c d); [now apply IH | discriminate].
Qed.

Lemma includes_append_l (a b needle : string) :
  includes a needle = true -> includes (a +:+ b) needle = true.
Proof.
  induction a as [|c a IH]; intros Ha.
  - rewrite includes_unfold in Ha. rewrite orb_false_r in Ha.
    rewrite includes_unfold. now rewrite (prefix_append needle "" b Ha).
  - rewrite includes_unfold in Ha. apply orb_true_iff in Ha as [Ha|Ha].
    + rewrite includes_unfold. now rewrite (prefix_append _ _ b Ha).
    + rewrite append_cons, includes_unfold, (IH Ha). apply orb_true_r.
Qed.

Lemma not_supported_includes (model : string) :
  includes (not_supported model) "not supported" = true.
Proof.
  unfold not_supported. apply includes_append_r, includes_append_r. reflexivity.
Qed.

Lemma google_handleError_throws (A : Type) (error : Thrown) :
  exists e, @Google.handleError A error = Throws e.
Proof.
  unfold Google.handleError.
  repeat match goal with |- context [if ?b then _ else _] => destruct b end; eauto.
Qed.

Lemma unsupported_model (this : Google.GoogleProvider) (model : string) :
  Google.availableModels this !! model = None ->
  inherited model = false ->
  Google.supported this model = false.
Proof.
  intros Hlookup Hinherited. unfold Google.supported. rewrite Hinherited, orb_false_r.
  apply bool_decide_eq_false_2. rewrite Hlookup. intros [x Hx]. discriminate.
Qed.

(** No name that every object inherits contains [quota]. *)
Lemma inherited_without_quota (model : string) :
  includes model "quota" = true -> inherited model = false.
Proof.
  intros Hquota. destruct (inherited model) eqn:Hinherited; [|reflexivity].
  unfold inherited in Hinherited. apply existsb_exists in Hinherited as (k & Hk & Heq).
  apply String.eqb_eq in Heq as <-.
  cbn [Object_prototype_names In] in Hk.
  repeat (destruct Hk as [<-|Hk]; [vm_compute in Hquota; discriminate Hquota|]).
  destruct Hk.
Qed.

(** The [in] test lets a name pass that every object inherits: asked for
    the model [toString], the adapter calls the backend. *)
Example google_inherited_model_passes :
  exists r,
    Google.generateChatCompletion "gemini-pro" sample_google generate_hello
      [text_message "user" "Hi"]
      (Some {| opt_model := Some "toString"; opt_maxTokens := None;
               opt_systemMessage := None |})
    = Returns r
    /\ model r = "toString" /\ text r = "Hello".
Proof. eexists. split; [vm_compute; reflexivity|]. split; reflexivity. Qed.

(** X18: asked for a model that is neither a key of its table nor a name
    every object inherits from [Object.prototype] (the check is the [in]
    operator, which finds [toString] or [constructor] in any table), the
    Google adapter calls no backend: [generateChatCompletion] throws, and
    [streamChatCompletion] yields nothing and throws, an
    [InvalidRequestError] that names the model, provided the message does
    not contain [API key], [quota] or [rate limit]. *)
Theorem google_unsupported_model
    (this : Google.GoogleProvider)
    (generateContent : string -> string -> Outcome string)
    (fetch : string -> Google.RequestBody -> Outcome Google.FetchResponse)
    (messages : list JsValue) (options : option LLMOptions) (model : string) :
  or_default (options ≫= opt_model) DEFAULT_GOOGLE_MODEL = model ->
  Google.availableModels this !! model = None ->
  inherited model = false ->
  includes (not_supported model) "API key" = false ->
  includes (not_supported model) "quota" = false ->
  includes (not_supported model) "rate limit" = false ->
  Google.generateChatCompletion DEFAULT_GOOGLE_MODEL this generateContent messages options
  = Throws (InvalidRequestError (not_supported model) "Google")
  /\ chunks (Google.streamChatCompletion DEFAULT_GOOGLE_MODEL this fetch messages options)
     = []
  /\ finished (Google.streamChatCompletion DEFAULT_GOOGLE_MODEL this fetch messages options)
     = Throws (InvalidRequestError (not_supported model) "Google").
Proof.
  intros Hmodel Hlookup Hinherited Hkey Hquota Hrate.
  pose proof (unsupported_model this model Hlookup Hinherited) as Hsupported.
  assert (Hhandle : forall A,
             @Google.handleError A (InvalidRequestError (not_supported model) "Google")
             = Throws (InvalidRequestError (not_supported model) "Google")).
  { intros A. unfold Google.handleError. cbn [instanceof_Error message andb].
    rewrite Hkey, Hquota, Hrate, not_supported_includes. reflexivity. }
  unfold Google.generateChatCompletion, Google.streamChatCompletion, Google.stream_prelude.
  rewrite Hmodel, Hsupported. cbn [negb try_catch chunks finished].
  fold (not_supported model). rewrite !Hhandle. auto.
Qed.

(** X19: the Google adapter classifies its own errors by their text: for
    a model that is not in its table and whose name contains [quota],
    [generateChatCompletion] throws a [RateLimitError], not the
    [InvalidRequestError] it raised. *)
Theorem google_unsupported_model_misclassified
    (this : Google.GoogleProvider)
    (generateContent : string -> string -> Outcome string)
    (messages : list JsValue) (options : option LLMOptions) (model : string) :
  or_default (options ≫= opt_model) DEFAULT_GOOGLE_MODEL = model ->
  Google.availableModels this !! model = None ->
  includes (not_supported model) "API key" = false ->
  includes model "quota" = true ->
  Google.generateChatCompletion DEFAULT_GOOGLE_MODEL this generateContent messages options
  = Throws (RateLimitError (not_supported model) "Google").
Proof.
  intros Hmodel Hlookup Hkey Hquota.
  pose proof (unsupported_model this model Hlookup (inherited_without_quota model Hquota))
    as Hsupported.
  assert (Hincl : includes (not_supported model) "quota" = true).
  { unfold not_supported. apply includes_append_r, includes_append_l, Hquota. }
  unfold Google.generateChatCompletion.
  rewrite Hmodel, Hsupported. cbn [negb try_catch].
  fold (not_supported model). unfold Google.handleError.
  cbn [instanceof_Error message andb]. rewrite Hkey, Hincl. reflexivity.
Qed.

Lemma message_texts_text_messages (turns : list (string * string)) :
  Google.message_texts (text_messages turns)
  = Returns (map (fun turn => JString (snd turn)) turns).
Proof.
  induction turns as [|[role text] turns IH]; [reflexivity|].
  change (text_messages ((role, text) :: turns))
    with (text_message role text :: text_messages turns).
  cbn [Google.message_texts]. rewrite IH. reflexivity.
Qed.

(** X20: the prompt the Google adapter makes of documented text messages
    is their texts joined by blank lines; the roles are not in it, so two
    dialogues with the same texts in the same order get the same
    completion, whoever said what. *)
Theorem google_prompt_drops_roles
    (this : Google.GoogleProvider)
    (generateContent : string -> string -> Outcome string)
    (options : option LLMOptions) (turns : list (string * string)) :
  Google.convertMessagesToPrompt (text_messages turns)
  = Returns (join (newline +:+ newline) (map snd turns))
  /\ (forall turns',
        map snd turns' = map snd turns ->
        Google.generateChatCompletion DEFAULT_GOOGLE_MODEL this generateContent
          (text_messages turns') options
        = Google.generateChatCompletion DEFAULT_GOOGLE_MODEL this generateContent
            (text_messages turns) options).
Proof.
  assert (Hprompt : forall ts,
             Google.convertMessagesToPrompt (text_messages ts)
             = Returns (join (newline +:+ newline) (map snd ts))).
  { intros ts. unfold Google.convertMessagesToPrompt.
    rewrite message_texts_text_messages. cbn [Js.bind].
    rewrite map_map. reflexivity. }
  split; [apply Hprompt|].
  intros turns' Hsame. unfold Google.generateChatCompletion.
  rewrite !Hprompt, Hsame. reflexivity.
Qed.

Lemma map_contents_text_messages (turns : list (string * string)) :
  Google.map_contents (text_messages turns)
  = Returns (map (fun turn => (Google.content_role (content_of turn), JString (snd turn)))
                 turns).
Proof.
  induction turns as [|[role text] turns IH]; [reflexivity|].
  change (text_messages ((role, text) :: turns))
    with (text_message role text :: text_messages turns).
  cbn [Google.map_contents]. rewrite IH. reflexivity.
Qed.

Lemma filter_contents_text_messages (turns : list (string * string)) :
  Google.filter_contents
    (map (fun turn => (Google.content_role (content_of turn), JString (snd turn))) turns)
  = Returns (contents_of turns).
Proof.
  induction turns as [|[role text] turns IH]; [reflexivity|].
  cbn [map Google.filter_contents]. rewrite IH.
  cbn [Google.trim_value Js.bind]. unfold contents_of.
  cbn [List.filter snd]. destruct (truthy_string (trim text)); reflexivity.
Qed.

(** X21: for documented text messages the Google adapter's stream calls
    the backend with nothing but the endpoint of the model followed by the
    key, and a body whose contents are the turns that are not blank, in
    order, with the role [user] kept and every other role sent as
    [model]. *)
Theorem google_stream_request
    (this : Google.GoogleProvider)
    (fetch : string -> Google.RequestBody -> Outcome Google.FetchResponse)
    (options : option LLMOptions) (turns : list (string * string)) :
  Google.streamChatCompletion DEFAULT_GOOGLE_MODEL this fetch (text_messages turns) options
  = Google.streamChatCompletion DEFAULT_GOOGLE_MODEL this
      (fun _ _ =>
         fetch (google_url this (or_default (options ≫= opt_model) DEFAULT_GOOGLE_MODEL))
               (google_body options turns))
      (text_messages turns) options.
Proof.
  unfold Google.streamChatCompletion, Google.stream_prelude.
  destruct (negb (Google.supported this _)); [reflexivity|].
  unfold Google.getKey, google_url.
  destruct (Google.key this) as [k|]; [|reflexivity].
  destruct (truthy_string k); [|reflexivity].
  cbn [Js.bind default].
  rewrite map_contents_text_messages. cbn [Js.bind].
  rewrite filter_contents_text_messages. cbn [Js.bind].
  reflexivity.
Qed.

End GoogleRequests.

Lemma google_unsupported_model_witness :
  Google.generateChatCompletion "gemini-pro" sample_google generate_hello
    [text_message "user" "Hi"]
    (Some {| opt_model := Some "gpt-4"; opt_maxTokens := None; opt_systemMessage := None |})
  = Throws (InvalidRequestError "Model gpt-4 not supported by Google" "Google").
Proof.
  apply (google_unsupported_model "gemini-pro" sample_google generate_hello fetch_401
           [text_message "user" "Hi"]
           (Some {| opt_model := Some "gpt-4"; opt_maxTokens := None;
                    opt_systemMessage := None |})
           "gpt-4"); reflexivity.
Defined.

Lemma google_unsupported_model_misclassified_witness :
  Google.generateChatCompletion "gemini-pro" sample_google generate_hello
    [text_message "user" "Hi"]
    (Some {| opt_model := Some "low-quota-model"; opt_maxTokens := None;
             opt_systemMessage := None |})
  = Throws (RateLimitError "Model low-quota-model not supported by Google" "Google").
Proof.
  apply (google_unsupported_model_misclassified "gemini-pro" sample_google generate_hello
           [text_message "user" "Hi"]
           (Some {| opt_model := Some "low-quota-model"; opt_maxTokens := None;
                    opt_systemMessage := None |})
           "low-quota-model"); reflexivity.
Defined.

Section GoogleStreamShape.
Variable DEFAULT_GOOGLE_MODEL : string.

Lemma run_unmixed (inws : bool) (cur : string) :
  all_chars (fun c => Bool.eqb (is_space c) inws) cur = true -> unmixed cur.
Proof.
  intros H. unfold unmixed. destruct inws; [left|right];
    (induction cur as [|c cur IH]; [reflexivity|]);
    cbn [all_chars] in *; apply andb_true_iff in H as [Hc H];
    rewrite (IH H), andb_true_r; destruct (is_space c); auto.
Qed.

Lemma split_go_unmixed (s : string) :
  forall inws cur,
    all_chars (fun c => Bool.eqb (is_space c) inws) cur = true ->
    Forall unmixed (split_go inws cur s).
Proof.
  induction s as [|c s IH]; intros inws cur Hcur; cbn [split_go].
  - pose proof (run_unmixed inws cur Hcur) as Hu.
    assert (Hempty : unmixed "") by (left; reflexivity).
    destruct inws; [apply Forall_cons_2; [exact Hu|]|];
      (apply Forall_cons_2; [assumption | apply Forall_nil_2]).
  - destruct (Bool.eqb (is_space c) inws) eqn:Hc.
    + apply IH. rewrite all_chars_app, Hcur. cbn [all_chars]. now rewrite Hc.
    + constructor; [exact (run_unmixed inws cur Hcur)|].
      apply IH. cbn [all_chars]. now rewrite Bool.eqb_reflx.
Qed.

Lemma split_whitespace_unmixed (s : string) : Forall unmixed (split_whitespace s).
Proof. apply split_go_unmixed. reflexivity. Qed.

Lemma stream_prelude_returns
    (this : Google.GoogleProvider)
    (fetch : string -> Google.RequestBody -> Outcome Google.FetchResponse)
    (messages : list JsValue) (options : option LLMOptions)
    (model text reason : string) :
  Google.stream_prelude DEFAULT_GOOGLE_MODEL this fetch messages options
  = Returns (model, text, reason) ->
  model = or_default (options ≫= opt_model) DEFAULT_GOOGLE_MODEL
  /\ text <> "" /\ reason <> "".
Proof.
  unfold Google.stream_prelude.
  destruct (negb (Google.supported this _)); [discriminate|].
  destruct (Google.getKey this) as [k|]; [|discriminate]. cbn [Js.bind].
  destruct (Google.map_contents messages) as [mapped|]; [|discriminate]. cbn [Js.bind].
  destruct (Google.filter_contents mapped) as [cs|]; [|discriminate]. cbn [Js.bind].
  destruct (fetch _ _) as [response|]; [|discriminate]. cbn [Js.bind].
  destruct (negb (Google.ok response)); [discriminate|].
  destruct (Google.json response) as [data|]; [|discriminate]. cbn [Js.bind].
  destruct (truthy_string (or_default (Google.candidate_text data) "")) eqn:Htext;
    [|discriminate].
  cbn [negb]. intros [= <- <- <-]. split; [reflexivity|]. split.
  - intros Hempty. rewrite Hempty in Htext. discriminate.
  - apply or_default_nonempty. discriminate.
Qed.

(** X22: the Google adapter's stream either throws before its first
    chunk, or ends normally after a run of text chunks followed by one
    final chunk: the text chunks carry no finish reason and a piece of the
    answer that is white space only or free of white space, the final chunk
    carries the empty text and a finish reason that is not empty, every
    chunk names the requested model, and the text of the whole stream is
    not empty. *)
Theorem google_stream_shape
    (this : Google.GoogleProvider)
    (fetch : string -> Google.RequestBody -> Outcome Google.FetchResponse)
    (messages : list JsValue) (options : option LLMOptions) :
  let s := Google.streamChatCompletion DEFAULT_GOOGLE_MODEL this fetch messages options in
  let model := or_default (options ≫= opt_model) DEFAULT_GOOGLE_MODEL in
  (exists e, finished s = Throws e /\ chunks s = [])
  \/ (finished s = Returns tt
      /\ exists init reason,
           chunks s
           = (init ++ [{| chunk_model := model; chunk_text := Some "";
                          chunk_finishReason := Some reason |}])%list
           /\ reason <> ""
           /\ Forall (fun c => chunk_model c = model
                               /\ chunk_finishReason c = None
                               /\ exists piece, chunk_text c = Some piece /\ unmixed piece)
                     init
           /\ stream_text s <> "").
Proof.
  intros s model. subst s. unfold Google.streamChatCompletion.
  destruct (Google.stream_prelude DEFAULT_GOOGLE_MODEL this fetch messages options)
    as [[[m text] reason]|error] eqn:Hprelude.
  - right. apply stream_prelude_returns in Hprelude as (-> & Htext & Hreason).
    fold model. cbn [finished chunks]. split; [reflexivity|].
    exists (map (Google.chunk model) (split_whitespace text)), reason.
    split; [reflexivity|]. split; [exact Hreason|]. split.
    + apply Forall_map. eapply Forall_impl; [apply split_whitespace_unmixed|].
      intros piece Hpiece. cbn. eauto.
    + unfold stream_text. cbn [chunks]. now rewrite stream_text_of_chunks.
  - left. destruct (google_handleError_throws unit error) as [e He].
    exists e. cbn [finished chunks]. auto.
Qed.

End GoogleStreamShape.

Section OutputVariableKeys.

Lemma take_word_word (s : string) :
  all_chars is_word (fst (Google.take_word s)) = true.
Proof.
  induction s as [|c s IH]; [reflexivity|]. cbn [Google.take_word].
  destruct (is_word c) eqn:Hc; [|reflexivity].
  destruct (Google.take_word s) as [w r]. cbn [fst all_chars] in *.
  now rewrite Hc, IH.
Qed.

Lemma match_tag_word (s tag value : string) (len : nat) :
  Google.match_tag s = Some (tag, value, len) ->
  tag <> "" /\ all_chars is_word tag = true.
Proof.
  unfold Google.match_tag. destruct s as [|c s1]; [discriminate|].
  destruct (Ascii.ascii_dec c "<") as [->|Hc].
  2:{ intros H. exfalso.
      destruct c as [[] [] [] [] [] [] [] []]; try discriminate H. now apply Hc. }
  pose proof (take_word_word s1) as Hword.
  destruct (Google.take_word s1) as [w s2]. cbn [fst] in Hword.
  destruct (truthy_string w) eqn:Hw; [|discriminate].
  destruct s2 as [|d s3]; [discriminate|].
  destruct (Ascii.ascii_dec d ">") as [->|Hd].
  2:{ intros H. exfalso.
      destruct d as [[] [] [] [] [] [] [] []]; try discriminate H. now apply Hd. }
  destruct (Google.find_close ("</" +:+ w +:+ ">") s3) as [v|]; [|discriminate].
  intros H. injection H as <- _ _. split; [|exact Hword].
  intros ->. discriminate.
Qed.

Lemma exec_all_word (tag value : string) (s : string) :
  forall skip, (tag, value) ∈ Google.exec_all skip s ->
               tag <> "" /\ all_chars is_word tag = true.
Proof.
  induction s as [|c s IH]; intros skip Hin.
  - simpl in Hin. now apply elem_of_nil in Hin.
  - cbn [Google.exec_all] in Hin. destruct skip as [|k]; [|now apply (IH k)].
    destruct (Google.match_tag (String c s)) as [[[tg v] len]|] eqn:Hm;
      [|now apply (IH 0%nat)].
    apply elem_of_cons in Hin. destruct Hin as [Heq|Hin]; [|now apply (IH (Nat.pred len))].
    injection Heq as -> ->. exact (match_tag_word _ _ _ _ Hm).
Qed.

(** A key the assignments leave in the object was there before, or is the
    tag of a match and not [__proto__]. *)
Lemma fold_assign_keys (key : string) (matches : list (string * string)) :
  forall acc : gmap string string,
    is_Some (fold_left (fun vars m => Google.assign (fst m) (trim (snd m)) vars)
                       matches acc !! key) ->
    is_Some (acc !! key)
    \/ (key <> "__proto__" /\ exists raw, (key, raw) ∈ matches).
Proof.
  induction matches as [|[k v] rest IH]; intros acc Hkey; [now left|].
  cbn [fold_left fst snd] in Hkey. apply IH in Hkey as [Hkey|(Hproto & raw & Hraw)].
  - unfold Google.assign in Hkey. case_bool_decide as Hk; [now left|].
    destruct (decide (k = key)) as [->|Hne].
    + right. split; [exact Hk|]. exists v. apply elem_of_cons. now left.
    + rewrite lookup_insert_ne in Hkey by exact Hne. now left.
  - right. split; [exact Hproto|]. exists raw. apply elem_of_cons. now right.
Qed.

(** X23: every key of the variables extracted from a response text is
    [qllm_response] or the tag of an element of the text: not empty, made of
    letters, digits and underscores, and never [__proto__]; and nothing at
    all is extracted exactly when the text is empty or white space only. *)
Theorem extract_keys_characterized (text : string) :
  (forall key,
     is_Some (Google.extractOutputVariables text !! key) ->
     key = "qllm_response"
     \/ (key <> "" /\ key <> "__proto__" /\ all_chars is_word key = true
         /\ exists raw before after, text = before +:+ element key raw +:+ after))
  /\ (Google.extractOutputVariables text = ∅ <-> trim text = "").
Proof.
  split.
  - intros key Hkey.
    destruct (decide (key = "qllm_response")) as [->|Hq]; [now left|]. right.
    assert (Hfold : is_Some
                      (fold_left (fun vars m => Google.assign (fst m) (trim (snd m)) vars)
                                 (Google.exec_all 0 text) ∅ !! key)).
    { unfold Google.extractOutputVariables in Hkey.
      destruct (truthy_string (trim text)); [|exact Hkey].
      now rewrite lookup_insert_ne in Hkey by congruence. }
    apply fold_assign_keys in Hfold as [Hempty|(Hproto & raw & Hraw)].
    { rewrite lookup_empty in Hempty. now destruct Hempty. }
    destruct (exec_all_word _ _ _ _ Hraw) as [Hne Hword].
    destruct (exec_all_sound _ _ _ _ Hraw) as (before & after & Htext).
    repeat split; try assumption. now exists raw, before, after.
  - unfold Google.extractOutputVariables. split.
    + destruct (trim text) as [|c t]; [reflexivity|]. cbn [truthy_string].
      intros H. now apply insert_non_empty in H.
    + intros Htrim. rewrite Htrim. cbn [truthy_string].
      rewrite (exec_all_spaces text (trim_empty_spaces text Htrim)). reflexivity.
Qed.

End OutputVariableKeys.
